(** * Boid flocking core of the submarine simulation

    A shallow embedding of [geometry.c], [boids/boid_physics.c],
    [boids/boid_behavior.c] and [boids/boids.c], followed by the properties
    of the flock update that the specification states.

    Conventions of the embedding:
    - [GLfloat] is IEEE-754 binary32, every C [float] operator rounding to
      nearest-even after each operation (FLT_EVAL_METHOD = 0); the values are
      [spec_float]s of the standard library at precision 24, so every function
      below can be evaluated.  [sqrt] (as opposed to [sqrtf]) works on binary64.
    - the two global arrays are the fields of the record [flock]; functions
      that read a global take the [flock], functions that write through a
      [boid*] return the updated [boid].
    - [qsort], [fminf], [rand] and [RAND_MAX] belong to the C library: [fminf]
      is written out, [qsort] is an interface with the contract of the C
      standard, [rand] is a stream of draws. *)

From Stdlib Require Import ZArith Lia SpecFloat Ascii.
From stdpp Require Import base list sorting.

Open Scope Z_scope.

(* ===================================================================== *)
(** * Part I: the embedding *)
(* ===================================================================== *)

(** ** Floating point: binary32 and binary64 *)

Definition GLfloat := spec_float.

Definition prec32 : Z := 24.
Definition emax32 : Z := 128.
Definition prec64 : Z := 53.
Definition emax64 : Z := 1024.

Definition fadd : GLfloat -> GLfloat -> GLfloat := SFadd prec32 emax32.
Definition fsub : GLfloat -> GLfloat -> GLfloat := SFsub prec32 emax32.
Definition fmul : GLfloat -> GLfloat -> GLfloat := SFmul prec32 emax32.
Definition fdiv : GLfloat -> GLfloat -> GLfloat := SFdiv prec32 emax32.
Definition sqrtf : GLfloat -> GLfloat := SFsqrt prec32 emax32.

(** C's [<] on floats: false as soon as one side is NaN. *)
Definition flt : GLfloat -> GLfloat -> bool := SFltb.

Declare Scope float_scope.
Delimit Scope float_scope with flt.
Infix "⊕" := fadd (at level 50, left associativity) : float_scope.
Infix "⊖" := fsub (at level 50, left associativity) : float_scope.
Infix "⊗" := fmul (at level 40, left associativity) : float_scope.
Infix "⊘" := fdiv (at level 40, left associativity) : float_scope.
Infix "≺" := flt (at level 70, no associativity) : float_scope.

(** Conversion of an [int] to [float] (rounds when the integer needs more
    than 24 bits). *)
Definition float_of_int (n : Z) : GLfloat := binary_normalize prec32 emax32 n 0 false.

(** The decimal literal [n/d] with suffix [f].  Both [n] and [d] are below
    [2^24] wherever it is used, so the correctly rounded quotient is the
    correctly rounded literal. *)
Definition float_lit (n d : Z) : GLfloat := fdiv (float_of_int n) (float_of_int d).

(** Promotion [float -> double] (exact) and conversion [double -> float]
    (rounds to nearest-even). *)
Definition double_of_float (x : GLfloat) : spec_float :=
  match x with
  | S754_finite s m e => binary_round prec64 emax64 s m e
  | _ => x
  end.

Definition float_of_double (x : spec_float) : GLfloat :=
  match x with
  | S754_finite s m e => binary_round prec32 emax32 s m e
  | _ => x
  end.

(** [sqrt] of <math.h>, on [double]. *)
Definition sqrt : spec_float -> spec_float := SFsqrt prec64 emax64.

(** [fminf] of <math.h>: a NaN argument is treated as missing data; on an
    unordered or equal pair the first argument is returned. *)
Definition fminf (x y : GLfloat) : GLfloat :=
  match x, y with
  | S754_nan, _ => y
  | _, S754_nan => x
  | _, _ => if SFltb y x then y else x
  end.

Definition is_nan (x : GLfloat) : bool :=
  match x with S754_nan => true | _ => false end.

Definition nan_or_infinite (x : GLfloat) : bool :=
  match x with S754_nan | S754_infinity _ => true | _ => false end.

Definition f0 : GLfloat := S754_zero false.
Definition f1 : GLfloat := float_of_int 1.

(** ** geometry.h / geometry.c *)

(** [typedef GLfloat vector_3d[3]] and [point_3d[3]]: components 0, 1, 2. *)
Record vector_3d : Type := mk_vector_3d { c0 : GLfloat; c1 : GLfloat; c2 : GLfloat }.
Definition point_3d : Type := vector_3d.

(** The local [length] of [geometry_normalize_vector]: the sum of squares is
    a [float], [sqrt] takes and returns a [double], the result is stored in a
    [GLfloat]. *)
Definition vector_length (vector : vector_3d) : GLfloat :=
  float_of_double (sqrt (double_of_float
    (c0 vector ⊗ c0 vector ⊕ c1 vector ⊗ c1 vector ⊕ c2 vector ⊗ c2 vector)%flt)).

Definition geometry_normalize_vector (vector : vector_3d) : vector_3d :=
  let length : GLfloat := vector_length vector in
  {| c0 := (c0 vector ⊘ length)%flt;
     c1 := (c1 vector ⊘ length)%flt;
     c2 := (c2 vector ⊘ length)%flt |}.

(** ** environment.h *)

Definition ENVIRONMENT_RADIUS_XZ : Z := 10.
Definition ENVIRONMENT_HEIGHT : Z := 10.
Definition ENVIRONMENT_FLOOR_Y : Z := -1.

(** ** boids.h, boid_behavior.h: constants and records *)

Definition BOID_COUNT : nat := 40.
Definition BOID_NEIGHBORHOOD_SIZE : nat := 6.
Definition BOID_SPEED : GLfloat := float_lit 1 100.

Definition BOID_TRIGGER_SEPARATE : GLfloat := float_of_int 1.
Definition BOID_TRIGGER_ENVIRONMENT : GLfloat := float_of_int 2.

Definition BOID_STRENGTH_ENVIRONMENT : GLfloat := float_lit 1 10.
Definition BOID_STRENGTH_SEPARATE : GLfloat := float_lit 5 1000.
Definition BOID_STRENGTH_ALIGNMENT : GLfloat := float_lit 125 100000.
Definition BOID_STRENGTH_COHESION : GLfloat := float_lit 2 1000.

(** The literal [1e-6f] of the guarded denominators. *)
Definition EPSILON_1em6 : GLfloat := float_lit 1 1000000.

Record boid : Type := mk_boid { position : point_3d; direction : vector_3d }.

Record boid_neighbor : Type := mk_boid_neighbor { distance : GLfloat; index : nat }.

Definition vector_zero : vector_3d := {| c0 := f0; c1 := f0; c2 := f0 |}.

(** Reading an array outside its bounds is undefined in C; the total lookup
    [!!!] returns these defaults there.  No index of the program leaves the
    bounds on arrays of [BOID_COUNT] elements. *)
#[global] Instance boid_inhabited : Inhabited boid :=
  populate {| position := vector_zero; direction := vector_zero |}.
#[global] Instance boid_neighbor_inhabited : Inhabited boid_neighbor :=
  populate {| distance := f0; index := 0%nat |}.

(** The two global arrays of boids.c. *)
Record flock : Type := mk_flock {
  array_boids_current : list boid;
  array_boids_previous : list boid
}.

Definition set_current (f : list boid -> list boid) (st : flock) : flock :=
  {| array_boids_current := f (array_boids_current st);
     array_boids_previous := array_boids_previous st |}.

Definition set_previous (f : list boid -> list boid) (st : flock) : flock :=
  {| array_boids_current := array_boids_current st;
     array_boids_previous := f (array_boids_previous st) |}.

Definition set_direction (d : vector_3d) (b : boid) : boid :=
  {| position := position b; direction := d |}.

Definition set_position (p : point_3d) (b : boid) : boid :=
  {| position := p; direction := direction b |}.

(** ** boid_physics.c *)

Definition boid_physics_distance_of_boids (b1 b2 : boid) : GLfloat :=
  let delta_x := (c0 (position b2) ⊖ c0 (position b1))%flt in
  let delta_y := (c1 (position b2) ⊖ c1 (position b1))%flt in
  let delta_z := (c2 (position b1) ⊖ c2 (position b2))%flt in
  sqrtf (delta_x ⊗ delta_x ⊕ delta_y ⊗ delta_y ⊕ delta_z ⊗ delta_z)%flt.

Definition distance_to_wall (subject_boid : boid) : GLfloat :=
  let distance_to_origin_xz :=
    sqrtf (c0 (position subject_boid) ⊗ c0 (position subject_boid) ⊕
           c2 (position subject_boid) ⊗ c2 (position subject_boid))%flt in
  (float_of_int ENVIRONMENT_RADIUS_XZ ⊖ distance_to_origin_xz)%flt.

Definition distance_to_floor (subject_boid : boid) : GLfloat :=
  (c1 (position subject_boid) ⊖ float_of_int ENVIRONMENT_FLOOR_Y)%flt.

Definition distance_to_ceiling (subject_boid : boid) : GLfloat :=
  (float_of_int ENVIRONMENT_HEIGHT ⊖ c1 (position subject_boid))%flt.

Definition boid_physics_min_distance_to_environment (subject_boid : boid) : GLfloat :=
  let min_distance := distance_to_wall subject_boid in
  let min_distance := fminf min_distance (distance_to_floor subject_boid) in
  let min_distance := fminf min_distance (distance_to_ceiling subject_boid) in
  min_distance.

(** [target_direction] is an in/out parameter: the caller's vector is
    accumulated into, then normalized. *)
Definition boid_physics_target_direction_environment
    (subject_boid : boid) (target_direction : vector_3d) : vector_3d :=
  let t := target_direction in
  let wall_distance := distance_to_wall subject_boid in
  let t :=
    if (wall_distance ≺ BOID_TRIGGER_ENVIRONMENT)%flt then
      let repulsion_strength :=
        (BOID_STRENGTH_ENVIRONMENT ⊘ (wall_distance ⊗ wall_distance ⊕ EPSILON_1em6))%flt in
      {| c0 := (c0 t ⊖ c0 (position subject_boid) ⊗ repulsion_strength)%flt;
         c1 := c1 t;
         c2 := (c2 t ⊖ c2 (position subject_boid) ⊗ repulsion_strength)%flt |}
    else t in
  let floor_distance := distance_to_floor subject_boid in
  let t :=
    if (floor_distance ≺ BOID_TRIGGER_ENVIRONMENT)%flt then
      let repulsion_strength :=
        (BOID_STRENGTH_ENVIRONMENT ⊘ (floor_distance ⊗ floor_distance ⊕ EPSILON_1em6))%flt in
      {| c0 := c0 t; c1 := (c1 t ⊕ repulsion_strength)%flt; c2 := c2 t |}
    else t in
  let ceiling_distance := distance_to_ceiling subject_boid in
  let t :=
    if (ceiling_distance ≺ BOID_TRIGGER_ENVIRONMENT)%flt then
      let repulsion_strength :=
        (BOID_STRENGTH_ENVIRONMENT ⊘ (ceiling_distance ⊗ ceiling_distance ⊕ EPSILON_1em6))%flt in
      {| c0 := c0 t; c1 := (c1 t ⊖ repulsion_strength)%flt; c2 := c2 t |}
    else t in
  let t :=
    {| c0 := (c0 t ⊖ c0 (direction subject_boid))%flt;
       c1 := (c1 t ⊖ c1 (direction subject_boid))%flt;
       c2 := (c2 t ⊖ c2 (direction subject_boid))%flt |} in
  geometry_normalize_vector t.

(** One iteration of the summation loop of the alignment target. *)
Definition alignment_loop_body (st : flock) (neighbors : list boid_neighbor)
    (acc : GLfloat * GLfloat * GLfloat) (i : nat) : GLfloat * GLfloat * GLfloat :=
  let '(sum_x, sum_y, sum_z) := acc in
  let idx := index (neighbors !!! i) in
  let neighbor := array_boids_previous st !!! idx in
  ((sum_x ⊕ c0 (direction neighbor))%flt,
   (sum_y ⊕ c1 (direction neighbor))%flt,
   (sum_z ⊕ c2 (direction neighbor))%flt).

Definition boid_physics_target_direction_neighbor_alignment
    (st : flock) (subject_boid : boid) (neighbors : list boid_neighbor) : vector_3d :=
  let '(sum_x, sum_y, sum_z) :=
    foldl (alignment_loop_body st neighbors) (f0, f0, f0) (seq 0 BOID_NEIGHBORHOOD_SIZE) in
  let n := float_of_int (Z.of_nat BOID_NEIGHBORHOOD_SIZE) in
  let avg_x := (sum_x ⊘ n)%flt in
  let avg_y := (sum_y ⊘ n)%flt in
  let avg_z := (sum_z ⊘ n)%flt in
  geometry_normalize_vector
    {| c0 := (avg_x ⊖ c0 (direction subject_boid))%flt;
       c1 := (avg_y ⊖ c1 (direction subject_boid))%flt;
       c2 := (avg_z ⊖ c2 (direction subject_boid))%flt |}.

(** The weight of one neighbour in the cohesion target: no epsilon in the
    denominator. *)
Definition cohesion_weight (dist : GLfloat) : GLfloat :=
  (BOID_STRENGTH_COHESION ⊘ (dist ⊗ dist))%flt.

(** One iteration of the summation loop of the cohesion target. *)
Definition cohesion_loop_body (st : flock) (subject_boid : boid)
    (neighbors : list boid_neighbor)
    (acc : GLfloat * GLfloat * GLfloat * GLfloat) (i : nat)
    : GLfloat * GLfloat * GLfloat * GLfloat :=
  let '(sum_x, sum_y, sum_z, total_weight) := acc in
  let idx := index (neighbors !!! i) in
  let neighbor := array_boids_previous st !!! idx in
  let dist := boid_physics_distance_of_boids subject_boid neighbor in
  let weight := cohesion_weight dist in
  ((sum_x ⊕ c0 (position neighbor) ⊗ weight)%flt,
   (sum_y ⊕ c1 (position neighbor) ⊗ weight)%flt,
   (sum_z ⊕ c2 (position neighbor) ⊗ weight)%flt,
   (total_weight ⊕ weight)%flt).

Definition boid_physics_target_direction_neighbor_cohesion
    (st : flock) (subject_boid : boid) (neighbors : list boid_neighbor) : vector_3d :=
  let '(sum_x, sum_y, sum_z, total_weight) :=
    foldl (cohesion_loop_body st subject_boid neighbors)
          (f0, f0, f0, f0) (seq 0 BOID_NEIGHBORHOOD_SIZE) in
  let avg_x := (sum_x ⊘ total_weight)%flt in
  let avg_y := (sum_y ⊘ total_weight)%flt in
  let avg_z := (sum_z ⊘ total_weight)%flt in
  geometry_normalize_vector
    {| c0 := (avg_x ⊖ c0 (position subject_boid))%flt;
       c1 := (avg_y ⊖ c1 (position subject_boid))%flt;
       c2 := (avg_z ⊖ c2 (position subject_boid))%flt |}.

Definition boid_physics_update_position (subject_boid : boid) : boid :=
  set_position
    {| c0 := (c0 (position subject_boid) ⊕ c0 (direction subject_boid) ⊗ BOID_SPEED)%flt;
       c1 := (c1 (position subject_boid) ⊕ c1 (direction subject_boid) ⊗ BOID_SPEED)%flt;
       c2 := (c2 (position subject_boid) ⊕ c2 (direction subject_boid) ⊗ BOID_SPEED)%flt |}
    subject_boid.

(** ** qsort of <stdlib.h> *)

(** What the C standard asks of the comparison function on the elements being
    sorted: its sign is antisymmetric and [<= 0] is transitive. *)
Definition cmp_consistent {A : Type} (cmp : A -> A -> Z) (l : list A) : Prop :=
  (forall a b, a ∈ l -> b ∈ l -> Z.sgn (cmp a b) = - Z.sgn (cmp b a)) /\
  (forall a b c, a ∈ l -> b ∈ l -> c ∈ l ->
     cmp a b <= 0 -> cmp b c <= 0 -> cmp a c <= 0).

(** The library routine, with the contract of the C standard: whenever the
    comparison function is consistent on the array, the result is a
    rearrangement of the array in ascending order of that function.  The
    order of elements that compare equal is left to the implementation.  For
    a comparison function that is not consistent the standard leaves the
    behaviour undefined: nothing is known of the result. *)
Class QSort : Type := {
  qsort : forall {A : Type}, (A -> A -> Z) -> list A -> list A;
  qsort_perm : forall (A : Type) (cmp : A -> A -> Z) (l : list A),
    cmp_consistent cmp l ->
    qsort cmp l ≡ₚ l;
  qsort_sorted : forall (A : Type) (cmp : A -> A -> Z) (l : list A),
    cmp_consistent cmp l ->
    StronglySorted (fun a b => cmp a b <= 0) (qsort cmp l)
}.

(** [qsort(base, nmemb, size, compar)]: the first [nmemb] elements are
    sorted, the rest of the array is not touched. *)
Definition qsort_n `{QSort} {A : Type} (base : list A) (nmemb : nat)
    (compar : A -> A -> Z) : list A :=
  qsort compar (take nmemb base) ++ drop nmemb base.

(** Two insertion sorts, used as implementations of the interface.  An
    element is inserted in front of the first element [y] of the sorted tail
    for which [goes_before (cmp x y)] holds. *)
Fixpoint insert_by {A : Type} (goes_before : Z -> bool) (cmp : A -> A -> Z)
    (x : A) (l : list A) : list A :=
  match l with
  | [] => [x]
  | y :: l' =>
      if goes_before (cmp x y) then x :: l
      else y :: insert_by goes_before cmp x l'
  end.

Definition isort_by {A : Type} (goes_before : Z -> bool) (cmp : A -> A -> Z)
    (l : list A) : list A :=
  foldr (insert_by goes_before cmp) [] l.

(** In front of the elements that compare equal: the input order of equal
    elements is kept. *)
Definition isort_stable {A : Type} : (A -> A -> Z) -> list A -> list A :=
  isort_by (fun c => c <=? 0).

(** Behind the elements that compare equal: the input order of equal
    elements is reversed. *)
Definition isort_reversing {A : Type} : (A -> A -> Z) -> list A -> list A :=
  isort_by (fun c => c <? 0).

(** ** boid_behavior.c *)

Definition compare_neighbor_boids (neighbor_a neighbor_b : boid_neighbor) : Z :=
  if (distance neighbor_a ≺ distance neighbor_b)%flt then -1
  else if (distance neighbor_b ≺ distance neighbor_a)%flt then 1
  else 0.

Definition sort_all_neighbors `{QSort} (all_neighbors : list boid_neighbor)
    : list boid_neighbor :=
  qsort_n all_neighbors BOID_COUNT compare_neighbor_boids.

(** The array [all_possible_neighbors] after the distance loop. *)
Definition all_possible_neighbors (st : flock) (subject_boid : boid)
    : list boid_neighbor :=
  foldl
    (fun (arr : list boid_neighbor) (i : nat) =>
       let other := array_boids_previous st !!! i in
       <[ i := {| distance := boid_physics_distance_of_boids subject_boid other;
                  index := i |} ]> arr)
    (replicate BOID_COUNT inhabitant)
    (seq 0 BOID_COUNT).

(** [neighbors] is the output array of [BOID_NEIGHBORHOOD_SIZE] records. *)
Definition boid_behavior_find_neighbors `{QSort} (st : flock) (subject_boid : boid)
    : list boid_neighbor :=
  let neighbors : list boid_neighbor :=
    replicate BOID_NEIGHBORHOOD_SIZE {| distance := f0; index := 0%nat |} in
  let sorted := sort_all_neighbors (all_possible_neighbors st subject_boid) in
  foldl
    (fun (neighbors : list boid_neighbor) (i : nat) =>
       <[ i := sorted !!! (i + 1)%nat ]> neighbors)
    neighbors
    (seq 0 BOID_NEIGHBORHOOD_SIZE).

Definition boid_behavior_environment_trigger (subject_boid : boid) : bool :=
  (boid_physics_min_distance_to_environment subject_boid ≺ BOID_TRIGGER_ENVIRONMENT)%flt.

(** [direction[i] += delta[i] * strength] for [i = 0, 1, 2], then normalize:
    the tail shared by the four steering steps. *)
Definition blend_and_normalize (d delta : vector_3d) (strength : GLfloat) : vector_3d :=
  geometry_normalize_vector
    {| c0 := (c0 d ⊕ c0 delta ⊗ strength)%flt;
       c1 := (c1 d ⊕ c1 delta ⊗ strength)%flt;
       c2 := (c2 d ⊕ c2 delta ⊗ strength)%flt |}.

Definition boid_behavior_handle_environment (subject_boid : boid) : boid :=
  let repulsion_direction :=
    boid_physics_target_direction_environment subject_boid vector_zero in
  set_direction
    (blend_and_normalize (direction subject_boid) repulsion_direction
                         BOID_STRENGTH_ENVIRONMENT)
    subject_boid.

Definition handle_neighbors_align (st : flock) (subject_boid : boid)
    (neighbors : list boid_neighbor) : boid :=
  let alignment_direction :=
    boid_physics_target_direction_neighbor_alignment st subject_boid neighbors in
  set_direction
    (blend_and_normalize (direction subject_boid) alignment_direction
                         BOID_STRENGTH_ALIGNMENT)
    subject_boid.

Definition handle_neighbors_separate (st : flock) (subject_boid : boid)
    (closest_neighbor : boid_neighbor) : boid :=
  let neighbor := array_boids_previous st !!! index closest_neighbor in
  let distance := boid_physics_distance_of_boids subject_boid neighbor in
  if (distance ≺ BOID_TRIGGER_SEPARATE)%flt then
    let separation_vector :=
      geometry_normalize_vector
        {| c0 := (c0 (position subject_boid) ⊖ c0 (position neighbor))%flt;
           c1 := (c1 (position subject_boid) ⊖ c1 (position neighbor))%flt;
           c2 := (c2 (position subject_boid) ⊖ c2 (position neighbor))%flt |} in
    let repulsion_strength :=
      (f1 ⊘ (distance ⊗ distance ⊕ EPSILON_1em6) ⊗ BOID_STRENGTH_SEPARATE)%flt in
    set_direction
      (blend_and_normalize (direction subject_boid) separation_vector repulsion_strength)
      subject_boid
  else subject_boid.

Definition handle_neighbors_cohere (st : flock) (subject_boid : boid)
    (neighbors : list boid_neighbor) : boid :=
  let cohesion_direction :=
    boid_physics_target_direction_neighbor_cohesion st subject_boid neighbors in
  set_direction
    (blend_and_normalize (direction subject_boid) cohesion_direction
                         BOID_STRENGTH_COHESION)
    subject_boid.

Definition boid_behavior_handle_neighbors `{QSort} (st : flock) (subject_boid : boid)
    : boid :=
  let neighbors := boid_behavior_find_neighbors st subject_boid in
  let subject_boid := handle_neighbors_align st subject_boid neighbors in
  let subject_boid := handle_neighbors_separate st subject_boid (neighbors !!! 0%nat) in
  let subject_boid := handle_neighbors_cohere st subject_boid neighbors in
  subject_boid.

(** ** boids.c *)

(** What one iteration of [update_boids_current] does to the boid that
    [boid] points to. *)
Definition update_boid `{QSort} (st : flock) (b : boid) : boid :=
  let b :=
    if boid_behavior_environment_trigger b
    then boid_behavior_handle_environment b
    else boid_behavior_handle_neighbors st b in
  boid_physics_update_position b.

(** The body of the loop of [update_boids_current]: [boid] aliases slot [i]
    of [array_boids_current], so the slot is read before and written after. *)
Definition update_boids_current_body `{QSort} (st : flock) (i : nat) : flock :=
  let b := array_boids_current st !!! i in
  set_current (fun cur => <[ i := update_boid st b ]> cur) st.

Definition update_boids_current `{QSort} (st : flock) : flock :=
  foldl update_boids_current_body st (seq 0 BOID_COUNT).

(** The body of the loop of [update_boids_previous]:
    [array_boids_previous[i] = array_boids_current[i]]. *)
Definition publish_body (st : flock) (i : nat) : flock :=
  set_previous (fun prev => <[ i := array_boids_current st !!! i ]> prev) st.

Definition update_boids_previous (st : flock) : flock :=
  foldl publish_body st (seq 0 BOID_COUNT).

Definition boids_update `{QSort} (st : flock) : flock :=
  update_boids_previous (update_boids_current st).

(** [rand()]: the library's generator is a stream of draws and the number of
    calls made so far. *)
Record rand_state : Type := mk_rand_state {
  rand_stream : nat -> Z;
  rand_calls : nat
}.

Definition rand (g : rand_state) : Z * rand_state :=
  (rand_stream g (rand_calls g),
   {| rand_stream := rand_stream g; rand_calls := S (rand_calls g) |}).

Section Initialize.

(** [RAND_MAX] of <stdlib.h>. *)
Variable RAND_MAX : Z.

(** The body of the loop of [boids_initialize] for slot [i]. *)
Definition boids_initialize_body (acc : rand_state * flock) (i : nat)
    : rand_state * flock :=
  let '(g, st) := acc in
  let '(r, g) := rand g in
  let p0 := (float_of_int r ⊘ float_of_int RAND_MAX ⊗ float_of_int 8 ⊖ float_of_int 4)%flt in
  let '(r, g) := rand g in
  let p1 := (float_of_int (Z.rem r 8) ⊕ f1)%flt in
  let '(r, g) := rand g in
  let p2 := (float_of_int r ⊘ float_of_int RAND_MAX ⊗ float_of_int 8 ⊖ float_of_int 4)%flt in
  let '(r, g) := rand g in
  let d0 := (float_of_int r ⊘ float_of_int RAND_MAX)%flt in
  let '(r, g) := rand g in
  let d1 := (float_of_int r ⊘ float_of_int RAND_MAX)%flt in
  let '(r, g) := rand g in
  let d2 := (float_of_int r ⊘ float_of_int RAND_MAX)%flt in
  let b :=
    {| position := {| c0 := p0; c1 := p1; c2 := p2 |};
       direction := geometry_normalize_vector {| c0 := d0; c1 := d1; c2 := d2 |} |} in
  (g, set_current (fun cur => <[ i := b ]> cur) st).

Definition boids_initialize (g : rand_state) (st : flock) : rand_state * flock :=
  foldl boids_initialize_body (g, st) (seq 0 BOID_COUNT).

End Initialize.

(** ** Concrete flocks used to evaluate the code *)

Definition f_int_vec (x y z : Z) : vector_3d :=
  {| c0 := float_of_int x; c1 := float_of_int y; c2 := float_of_int z |}.

(** A single agent at the centre of the enclosure heading along +Z. *)
Definition center_boid : boid :=
  {| position := f_int_vec 0 0 0; direction := f_int_vec 0 0 1 |}.

(** Forty agents on a grid well inside the enclosure ([x] in [-4..3],
    [y] in [1..5], [z = 0]), all heading along +Z; [previous] is the
    published copy of [current]. *)
Definition aligned_boid (i : nat) : boid :=
  {| position := f_int_vec (Z.of_nat (i mod 8) - 4) (Z.of_nat (i / 8) + 1) 0;
     direction := f_int_vec 0 0 1 |}.

Definition aligned_boids : list boid := aligned_boid <$> seq 0 BOID_COUNT.

Definition aligned_flock : flock :=
  {| array_boids_current := aligned_boids; array_boids_previous := aligned_boids |}.

(** The same grid with headings along +X (even slots) and +Z (odd slots),
    except that agent 1 sits exactly where agent 0 is. *)
Definition mixed_boid (i : nat) : boid :=
  set_direction (if Nat.even i then f_int_vec 1 0 0 else f_int_vec 0 0 1)
                (aligned_boid i).

Definition coincident_boids : list boid :=
  <[ 1%nat := set_direction (f_int_vec 0 0 1) (mixed_boid 0) ]>
    (mixed_boid <$> seq 0 BOID_COUNT).

Definition coincident_flock : flock :=
  {| array_boids_current := coincident_boids; array_boids_previous := coincident_boids |}.

(** The state of the first frame: [boids_initialize] has filled
    [array_boids_current]; [array_boids_previous], a zero-initialized global,
    has not been written yet. *)
Definition first_frame_flock : flock :=
  {| array_boids_current := mixed_boid <$> seq 0 BOID_COUNT;
     array_boids_previous :=
       replicate BOID_COUNT {| position := vector_zero; direction := vector_zero |} |}.

Definition nan_vector : vector_3d :=
  {| c0 := S754_nan; c1 := S754_nan; c2 := S754_nan |}.

(** ** Predicates of the specification *)

(** "Whenever two records have equal distance, the record with the smaller
    original index precedes the other." *)
Definition ties_by_index (sorted : list boid_neighbor) : Prop :=
  forall (p q : nat) (a b : boid_neighbor),
    (p < q)%nat -> sorted !! p = Some a -> sorted !! q = Some b ->
    SFeqb (distance a) (distance b) = true ->
    (index a < index b)%nat.

(** "Magnitude 1 within floating-point tolerance (e.g., 1e-4)": the length
    the program itself computes differs from 1 by less than [1e-4]. *)
Definition unit_within_tolerance (v : vector_3d) : bool :=
  (SFabs (vector_length v ⊖ f1) ≺ float_lit 1 10000)%flt.

(** C's [0.0f <= x]: the component lies on the non-negative side. *)
Definition nonneg (x : GLfloat) : bool := SFleb f0 x.

(** "All components >= 0". *)
Definition in_nonneg_octant (v : vector_3d) : Prop :=
  nonneg (c0 v) = true /\ nonneg (c1 v) = true /\ nonneg (c2 v) = true.

(** The direction [boids_initialize] stores from three consecutive draws. *)
Definition drawn_direction (RAND_MAX r0 r1 r2 : Z) : vector_3d :=
  geometry_normalize_vector
    {| c0 := (float_of_int r0 ⊘ float_of_int RAND_MAX)%flt;
       c1 := (float_of_int r1 ⊘ float_of_int RAND_MAX)%flt;
       c2 := (float_of_int r2 ⊘ float_of_int RAND_MAX)%flt |}.

(** A generator that returns [r] at every call. *)
Definition rand_constant (r : Z) : rand_state :=
  {| rand_stream := fun _ => r; rand_calls := 0 |}.

(** Ascending by distance, in the sense of C's [<=]. *)
Definition ascending_by_distance (sorted : list boid_neighbor) : Prop :=
  StronglySorted (fun a b => SFleb (distance a) (distance b) = true) sorted.

(** ** Ranges of floating-point values, for the proofs about rounding *)

(** A positive normal number of precision [prec] and magnitude exponent [E]:
    its value [x] satisfies [2^(E-1) <= x < 2^E]. *)
Definition normal_pos (prec E : Z) (x : spec_float) : Prop :=
  exists (m : positive) (e : Z),
    x = S754_finite false m e /\ Zdigits2 (Zpos m) = prec /\ e + prec = E.

Definition normal_between (prec lo hi : Z) (x : spec_float) : Prop :=
  exists E : Z, lo <= E <= hi /\ normal_pos prec E x.

Definition zero_or_normal (prec lo hi : Z) (x : spec_float) : Prop :=
  x = S754_zero false \/ normal_between prec lo hi x.

(** ** geometry.c: the other vector functions *)

(** [x != 0.0]: the [float] is promoted and compared with the [double]
    constant; true on a NaN. *)
Definition fne_zero (x : GLfloat) : bool :=
  negb (SFeqb (double_of_float x) (S754_zero false)).

(** The loop returns 0 at the first component that differs from zero. *)
Definition geometry_is_zero_vector (vector : vector_3d) : bool :=
  if fne_zero (c0 vector) then false
  else if fne_zero (c1 vector) then false
  else if fne_zero (c2 vector) then false
  else true.

(** [result] is an output array distinct from [a] and [b]. *)
Definition geometry_cross_product (a b : vector_3d) : vector_3d :=
  {| c0 := (c1 a ⊗ c2 b ⊖ c2 a ⊗ c1 b)%flt;
     c1 := (c2 a ⊗ c0 b ⊖ c0 a ⊗ c2 b)%flt;
     c2 := (c0 a ⊗ c1 b ⊖ c1 a ⊗ c0 b)%flt |}.

Definition geometry_calculate_normal (p1 p2 p3 : point_3d) : vector_3d :=
  let e1 := {| c0 := (c0 p2 ⊖ c0 p1)%flt; c1 := (c1 p2 ⊖ c1 p1)%flt;
               c2 := (c2 p2 ⊖ c2 p1)%flt |} in
  let e2 := {| c0 := (c0 p3 ⊖ c0 p1)%flt; c1 := (c1 p3 ⊖ c1 p1)%flt;
               c2 := (c2 p3 ⊖ c2 p1)%flt |} in
  geometry_normalize_vector
    {| c0 := (c1 e1 ⊗ c2 e2 ⊖ c2 e1 ⊗ c1 e2)%flt;
       c1 := (c2 e1 ⊗ c0 e2 ⊖ c0 e1 ⊗ c2 e2)%flt;
       c2 := (c0 e1 ⊗ c1 e2 ⊖ c1 e1 ⊗ c0 e2)%flt |}.

(** ** boids.c: the boid [boids_initialize] builds from six draws *)

Definition drawn_boid (RAND_MAX r0 r1 r2 r3 r4 r5 : Z) : boid :=
  {| position :=
       {| c0 := (float_of_int r0 ⊘ float_of_int RAND_MAX ⊗ float_of_int 8
                   ⊖ float_of_int 4)%flt;
          c1 := (float_of_int (Z.rem r1 8) ⊕ f1)%flt;
          c2 := (float_of_int r2 ⊘ float_of_int RAND_MAX ⊗ float_of_int 8
                   ⊖ float_of_int 4)%flt |};
     direction := drawn_direction RAND_MAX r3 r4 r5 |}.

(** ** Predicates of the added properties *)

(** The sign bit is clear, or the value is a NaN. *)
Definition sign_clear_or_nan (x : GLfloat) : bool :=
  match x with
  | S754_nan => true
  | S754_zero s | S754_infinity s | S754_finite s _ _ => negb s
  end.

(** A zero or a finite number: neither an infinity nor a NaN. *)
Definition is_finite (x : GLfloat) : bool :=
  match x with S754_zero _ | S754_finite _ _ _ => true | _ => false end.

Definition is_zero (x : GLfloat) : bool :=
  match x with S754_zero _ => true | _ => false end.

(** A number with the sign bit clear: [+0], a positive finite number or
    [+infinity]. *)
Definition nonneg_number (x : GLfloat) : bool :=
  match x with
  | S754_zero false | S754_infinity false | S754_finite false _ _ => true
  | _ => false
  end.

Definition zero_or_nan (x : GLfloat) : bool :=
  match x with S754_zero _ | S754_nan => true | _ => false end.


(** ** scene_object.h, scene_object.c, submarine.c: the submarine *)

Module Scene.

(** The [mesh] and the three colours are left out: after initialisation the
    functions below neither read nor write them. *)
Record scene_object : Type := mk_scene_object {
  position : point_3d;
  direction : vector_3d;
  speed : GLfloat;
  rotation : GLfloat;
  scale : GLfloat;
  shine : GLfloat
}.

Definition set_position (p : point_3d) (o : scene_object) : scene_object :=
  {| position := p; direction := direction o; speed := speed o;
     rotation := rotation o; scale := scale o; shine := shine o |}.

Definition set_direction (d : vector_3d) (o : scene_object) : scene_object :=
  {| position := position o; direction := d; speed := speed o;
     rotation := rotation o; scale := scale o; shine := shine o |}.

Definition set_speed (x : GLfloat) (o : scene_object) : scene_object :=
  {| position := position o; direction := direction o; speed := x;
     rotation := rotation o; scale := scale o; shine := shine o |}.

End Scene.

Definition SUBMARINE_SPEED : GLfloat := float_lit 25 1000.
Definition DEFAULT_SUBMARINE_ROTATION : GLfloat := float_of_int 90.
Definition DEFAULT_SUBMARINE_SCALE : GLfloat := float_lit 4 1000.
Definition DEFAULT_SUBMARINE_SHINE : GLfloat := float_of_int 150.

(** Every field is assigned, so the object before the call does not
    matter. *)
Definition scene_object_initialize : Scene.scene_object :=
  {| Scene.position := {| c0 := f0; c1 := f0; c2 := f0 |};
     Scene.direction := {| c0 := f0; c1 := f0; c2 := f0 |};
     Scene.speed := f0;
     Scene.rotation := f0;
     Scene.scale := f1;
     Scene.shine := f0 |}.

Definition submarine_initialize : Scene.scene_object :=
  let o := scene_object_initialize in
  {| Scene.position :=
       {| c0 := f0; c1 := float_of_int 2; c2 := SFopp (float_of_int 2) |};
     Scene.direction := Scene.direction o;
     Scene.speed := Scene.speed o;
     Scene.rotation := DEFAULT_SUBMARINE_ROTATION;
     Scene.scale := DEFAULT_SUBMARINE_SCALE;
     Scene.shine := DEFAULT_SUBMARINE_SHINE |}.

(** [position[i] += direction[i] * speed] for the three axes. *)
Definition submarine_update (o : Scene.scene_object) : Scene.scene_object :=
  let p := Scene.position o in
  let d := Scene.direction o in
  let s := Scene.speed o in
  Scene.set_position
    {| c0 := (c0 p ⊕ c0 d ⊗ s)%flt;
       c1 := (c1 p ⊕ c1 d ⊗ s)%flt;
       c2 := (c2 p ⊕ c2 d ⊗ s)%flt |} o.

(** ** camera.h, window.h, renderer.c: the other globals the callbacks write *)

(** [3.14159265f]. *)
Definition PI : GLfloat := S754_finite false 13176795 (-22).

Module Camera.

(** [position], [forward], [look_at] and [fov] are left out: the first and
    the third are written by [camera_update] only, through [sinf] and
    [cosf]; no callback below touches them. *)
Record camera : Type := mk_camera { theta : GLfloat; phi : GLfloat }.

End Camera.

Record Window : Type := mk_Window {
  width : Z;
  height : Z;
  mouse_x : Z;
  mouse_y : Z;
  mouse_sensitivity : GLfloat
}.

Definition DEFAULT_WINDOW_WIDTH : Z := 1280.
Definition DEFAULT_WINDOW_HEIGHT : Z := 720.
Definition DEFAULT_WINDOW_MOUSE_SENSITIVITY : GLfloat := float_lit 5 1000.
Definition DEFAULT_CAMERA_THETA : GLfloat := PI.
Definition DEFAULT_CAMERA_PHI : GLfloat := (PI ⊘ float_of_int 180)%flt.

(** The globals of submarine.c, camera.c, window.c and renderer.c. *)
Record globals : Type := mk_globals {
  object_submarine : Scene.scene_object;
  main_camera : Camera.camera;
  main_window : Window;
  full_screen_on : Z;
  fog_on : Z;
  wire_frame_on : Z
}.

Definition set_object_submarine (o : Scene.scene_object) (g : globals) : globals :=
  {| object_submarine := o; main_camera := main_camera g;
     main_window := main_window g; full_screen_on := full_screen_on g;
     fog_on := fog_on g; wire_frame_on := wire_frame_on g |}.

(** The state in which [main] enters [glutMainLoop]: the static
    initialisers, then [renderer_initialize] ([fog_on = 1],
    [submarine_initialize]). *)
Definition globals_at_main_loop : globals :=
  {| object_submarine := submarine_initialize;
     main_camera := {| Camera.theta := DEFAULT_CAMERA_THETA;
                       Camera.phi := DEFAULT_CAMERA_PHI |};
     main_window := {| width := DEFAULT_WINDOW_WIDTH;
                       height := DEFAULT_WINDOW_HEIGHT;
                       mouse_x := -1; mouse_y := -1;
                       mouse_sensitivity := DEFAULT_WINDOW_MOUSE_SENSITIVITY |};
     full_screen_on := 0;
     fog_on := 1;
     wire_frame_on := 0 |}.

(** ** glut_callbacks.c *)

(** [!x] on an [int]. *)
Definition lnot (x : Z) : Z := if x =? 0 then 1 else 0.

Definition set_c0 (x : GLfloat) (v : vector_3d) : vector_3d :=
  {| c0 := x; c1 := c1 v; c2 := c2 v |}.
Definition set_c1 (x : GLfloat) (v : vector_3d) : vector_3d :=
  {| c0 := c0 v; c1 := x; c2 := c2 v |}.
Definition set_c2 (x : GLfloat) (v : vector_3d) : vector_3d :=
  {| c0 := c0 v; c1 := c1 v; c2 := x |}.

(** The clamp bounds [PI / 2 - 0.01f] and [-PI / 2 + 0.01f]. *)
Definition phi_max : GLfloat := (PI ⊘ float_of_int 2 ⊖ float_lit 1 100)%flt.
Definition phi_min : GLfloat := (SFopp PI ⊘ float_of_int 2 ⊕ float_lit 1 100)%flt.

(** The coordinates are window coordinates; the [int] subtraction is taken
    without overflow. *)
Definition callback_passive_motion (x y : Z) (g : globals) : globals :=
  let w := main_window g in
  let store (c : Camera.camera) : globals :=
    {| object_submarine := object_submarine g;
       main_camera := c;
       main_window := {| width := width w; height := height w;
                         mouse_x := x; mouse_y := y;
                         mouse_sensitivity := mouse_sensitivity w |};
       full_screen_on := full_screen_on g;
       fog_on := fog_on g; wire_frame_on := wire_frame_on g |} in
  if (mouse_x w =? -1) || (mouse_y w =? -1) then store (main_camera g)
  else
    let mouse_delta_x := x - mouse_x w in
    let mouse_delta_y := y - mouse_y w in
    let theta := (Camera.theta (main_camera g)
                    ⊕ float_of_int mouse_delta_x ⊗ mouse_sensitivity w)%flt in
    let phi := (Camera.phi (main_camera g)
                  ⊖ float_of_int mouse_delta_y ⊗ mouse_sensitivity w)%flt in
    let phi := if (phi_max ≺ phi)%flt then phi_max
               else if (phi ≺ phi_min)%flt then phi_min
               else phi in
    store {| Camera.theta := theta; Camera.phi := phi |}.

(** "If no directional input remains, stop submarine movement." *)
Definition stop_if_still (o : Scene.scene_object) : Scene.scene_object :=
  if geometry_is_zero_vector (Scene.direction o) then Scene.set_speed f0 o
  else o.

(** "If any movement direction is active, set submarine speed to
    default." *)
Definition start_if_moving (o : Scene.scene_object) : Scene.scene_object :=
  if negb (geometry_is_zero_vector (Scene.direction o))
  then Scene.set_speed SUBMARINE_SPEED o
  else o.

Definition callback_keyboard_up (key : ascii) (g : globals) : globals :=
  let o := object_submarine g in
  let d := Scene.direction o in
  let d :=
    match key with
    | "w"%char => if (f0 ≺ c2 d)%flt then set_c2 f0 d else d
    | "s"%char => if (c2 d ≺ f0)%flt then set_c2 f0 d else d
    | "a"%char => if (f0 ≺ c0 d)%flt then set_c0 f0 d else d
    | "d"%char => if (c0 d ≺ f0)%flt then set_c0 f0 d else d
    | _ => d
    end in
  set_object_submarine (stop_if_still (Scene.set_direction d o)) g.

(** The OpenGL and GLUT calls of the [u], [f], [b] and [q] cases are not
    part of the state; [glutExit] leaves the globals as they are. *)
Definition callback_keyboard (key : ascii) (g : globals) : globals :=
  let steer (d : vector_3d) : globals :=
    set_object_submarine (Scene.set_direction d (object_submarine g)) g in
  let d := Scene.direction (object_submarine g) in
  let g :=
    match key with
    | "w"%char => steer (set_c2 f1 d)
    | "s"%char => steer (set_c2 (SFopp f1) d)
    | "a"%char => steer (set_c0 f1 d)
    | "d"%char => steer (set_c0 (SFopp f1) d)
    | "u"%char =>
        {| object_submarine := object_submarine g; main_camera := main_camera g;
           main_window := main_window g; full_screen_on := full_screen_on g;
           fog_on := fog_on g; wire_frame_on := lnot (wire_frame_on g) |}
    | "f"%char =>
        {| object_submarine := object_submarine g; main_camera := main_camera g;
           main_window := main_window g;
           full_screen_on := lnot (full_screen_on g);
           fog_on := fog_on g; wire_frame_on := wire_frame_on g |}
    | "b"%char =>
        {| object_submarine := object_submarine g; main_camera := main_camera g;
           main_window := main_window g; full_screen_on := full_screen_on g;
           fog_on := lnot (fog_on g); wire_frame_on := wire_frame_on g |}
    | _ => g
    end in
  set_object_submarine (start_if_moving (object_submarine g)) g.

Section SpecialKeys.

(** The key codes of freeglut's header. *)
Variables GLUT_KEY_UP GLUT_KEY_DOWN : Z.

Definition callback_special_up (key : Z) (g : globals) : globals :=
  let o := object_submarine g in
  let d := Scene.direction o in
  let d :=
    if (key =? GLUT_KEY_UP) && (f0 ≺ c1 d)%flt then set_c1 f0 d
    else if (key =? GLUT_KEY_DOWN) && (c1 d ≺ f0)%flt then set_c1 f0 d
    else d in
  set_object_submarine (stop_if_still (Scene.set_direction d o)) g.

Definition callback_special (key : Z) (g : globals) : globals :=
  let o := object_submarine g in
  let d := Scene.direction o in
  let d :=
    if key =? GLUT_KEY_UP then set_c1 f1 d
    else if key =? GLUT_KEY_DOWN then set_c1 (SFopp f1) d
    else d in
  set_object_submarine (start_if_moving (Scene.set_direction d o)) g.

(** The part of [callback_idle] that writes these globals:
    [water_update] and [boids_update] work on their own arrays, and
    [camera_update] writes the camera fields left out above. *)
Definition callback_idle (g : globals) : globals :=
  set_object_submarine (submarine_update (object_submarine g)) g.

(** The callbacks [window_initialize] registers that write the globals;
    [glutMainLoop] calls them in the order the events arrive. *)
Inductive glut_event : Type :=
| Keyboard (key : ascii)
| KeyboardUp (key : ascii)
| Special (key : Z)
| SpecialUp (key : Z)
| PassiveMotion (x y : Z)
| Idle.

Definition glut_dispatch (g : globals) (ev : glut_event) : globals :=
  match ev with
  | Keyboard key => callback_keyboard key g
  | KeyboardUp key => callback_keyboard_up key g
  | Special key => callback_special key g
  | SpecialUp key => callback_special_up key g
  | PassiveMotion x y => callback_passive_motion x y g
  | Idle => callback_idle g
  end.

Definition glutMainLoop (events : list glut_event) (g : globals) : globals :=
  foldl glut_dispatch g events.

End SpecialKeys.

(** ** Predicates on the controls *)

(** The three values a key press or release stores in a direction
    component. *)
Definition axis_value (x : GLfloat) : Prop := x = f0 \/ x = f1 \/ x = SFopp f1.

Definition flag (x : Z) : Prop := x = 0 \/ x = 1.

(** What the key and mouse callbacks maintain. *)
Definition submarine_invariant (o : Scene.scene_object) : Prop :=
  let d := Scene.direction o in
  axis_value (c0 d) /\ axis_value (c1 d) /\ axis_value (c2 d) /\
  Scene.speed o = if geometry_is_zero_vector d then f0 else SUBMARINE_SPEED.

Definition phi_in_range (phi : GLfloat) : Prop :=
  SFleb phi_min phi = true /\ SFleb phi phi_max = true.

Definition globals_invariant (g : globals) : Prop :=
  submarine_invariant (object_submarine g) /\
  phi_in_range (Camera.phi (main_camera g)) /\
  mouse_sensitivity (main_window g) = DEFAULT_WINDOW_MOUSE_SENSITIVITY /\
  flag (full_screen_on g) /\ flag (fog_on g) /\ flag (wire_frame_on g).

(** A coordinate after an addition of zero: the same value, except that
    [-0] becomes [+0]. *)
Definition same_coordinate (old new : GLfloat) : Prop :=
  new = old \/ (old = S754_zero true /\ new = f0).

(* ===================================================================== *)
(** * Part II: properties *)
(* ===================================================================== *)

(** ** The literals are the binary32 values a C compiler produces *)

Example float_lit_tenth : BOID_STRENGTH_ENVIRONMENT = S754_finite false 13421773 (-27).
Proof. reflexivity. Qed.

Example float_lit_1em6 : EPSILON_1em6 = S754_finite false 8796093 (-43).
Proof. reflexivity. Qed.

Example float_of_int_minus_one :
  float_of_int ENVIRONMENT_FLOOR_Y = S754_finite true 8388608 (-23).
Proof. reflexivity. Qed.

(** ** Sign symmetry of the binary32 operations *)

Section SignSymmetry.

Variables prec emax : Z.

Lemma binary_round_aux_abs (s s' : bool) (m e : Z) (l : location) :
  SFabs (binary_round_aux prec emax s m e l) =
  SFabs (binary_round_aux prec emax s' m e l).
Proof.
  unfold binary_round_aux.
  destruct (shr_fexp prec emax m e l) as [mrs1 e1].
  destruct (shr_fexp prec emax _ e1 loc_Exact) as [mrs2 e2].
  destruct (shr_m mrs2); try reflexivity.
  destruct (e2 <=? emax - prec); reflexivity.
Qed.

Lemma binary_round_abs (s s' : bool) (m : positive) (e : Z) :
  SFabs (binary_round prec emax s m e) = SFabs (binary_round prec emax s' m e).
Proof.
  unfold binary_round.
  destruct (shl_align m e _) as [mz ez].
  apply binary_round_aux_abs.
Qed.

Lemma binary_normalize_abs_opp (m e : Z) (sz : bool) :
  SFabs (binary_normalize prec emax (- m) e sz) =
  SFabs (binary_normalize prec emax m e sz).
Proof.
  destruct m as [|p|p]; simpl; try reflexivity; apply binary_round_abs.
Qed.

Lemma SFsub_abs_swap (x y : spec_float) :
  SFabs (SFsub prec emax x y) = SFabs (SFsub prec emax y x).
Proof.
  destruct x as [sx|sx| |sx mx ex], y as [sy|sy| |sy my ey];
    try (destruct sx, sy; reflexivity);
    try (destruct sx; reflexivity);
    try (destruct sy; reflexivity);
    try reflexivity.
  cbn [SFsub]. rewrite (Z.min_comm ey ex).
  rewrite <- binary_normalize_abs_opp. f_equal. f_equal. lia.
Qed.

Lemma SFmul_square_abs (x y : spec_float) :
  SFabs x = SFabs y -> SFmul prec emax x x = SFmul prec emax y y.
Proof.
  destruct x as [sx|sx| |sx mx ex], y as [sy|sy| |sy my ey];
    cbn [SFabs]; intros Heq; try discriminate; try reflexivity.
  - destruct sx, sy; reflexivity.
  - destruct sx, sy; reflexivity.
  - injection Heq as -> ->. cbn [SFmul].
    replace (xorb sx sx) with false by (destruct sx; reflexivity).
    replace (xorb sy sy) with false by (destruct sy; reflexivity).
    reflexivity.
Qed.

Lemma SFsub_square_swap (x y : spec_float) :
  SFmul prec emax (SFsub prec emax x y) (SFsub prec emax x y) =
  SFmul prec emax (SFsub prec emax y x) (SFsub prec emax y x).
Proof. apply SFmul_square_abs, SFsub_abs_swap. Qed.

End SignSymmetry.

Lemma distance_of_boids_swap (a b : boid) :
  boid_physics_distance_of_boids a b = boid_physics_distance_of_boids b a.
Proof.
  unfold boid_physics_distance_of_boids, fmul, fsub.
  rewrite (SFsub_square_swap _ _ (c0 (position b)) (c0 (position a))).
  rewrite (SFsub_square_swap _ _ (c1 (position b)) (c1 (position a))).
  rewrite (SFsub_square_swap _ _ (c2 (position a)) (c2 (position b))).
  reflexivity.
Qed.

(** C's [==] of a value with itself: true for every number, false for a
    NaN. *)
Lemma SFeqb_refl_not_nan (x : spec_float) : is_nan x = false -> SFeqb x x = true.
Proof.
  destruct x as [s|s| |s m e]; cbn; try done; destruct s; try done;
    rewrite Z.compare_refl, Pos.compare_cont_refl; done.
Qed.

Lemma SFeqb_self (x : spec_float) : SFeqb x x = negb (is_nan x).
Proof.
  destruct (is_nan x) eqn:Hn; [by destruct x | by apply SFeqb_refl_not_nan].
Qed.

(** C8, as the code has it.  The two calls return the same binary32 value
    for every pair of boids (the swapped operands of the Z difference change
    nothing, each difference being squared), and C's [==] between the two
    results holds exactly when that value is a number: when the distance is
    NaN both calls return NaN, which is not equal to itself. *)
Theorem boid_physics_distance_of_boids_symmetric (a b : boid) :
  boid_physics_distance_of_boids a b = boid_physics_distance_of_boids b a /\
  SFeqb (boid_physics_distance_of_boids a b) (boid_physics_distance_of_boids b a) =
    negb (is_nan (boid_physics_distance_of_boids a b)).
Proof.
  split; [apply distance_of_boids_swap|].
  rewrite (distance_of_boids_swap b a). apply SFeqb_self.
Qed.

Lemma distance_of_boids_eqb (a b : boid) :
  is_nan (boid_physics_distance_of_boids a b) = false ->
  SFeqb (boid_physics_distance_of_boids a b) (boid_physics_distance_of_boids b a) = true.
Proof.
  intros Hn. rewrite (distance_of_boids_swap b a).
  by apply SFeqb_refl_not_nan.
Qed.

(** ** Normalization divides unconditionally *)

Lemma fdiv_by_zero (x : GLfloat) (s : bool) :
  nan_or_infinite (x ⊘ S754_zero s)%flt = true.
Proof. destruct x; reflexivity. Qed.

Lemma fmul_nan_or_infinite (x : GLfloat) :
  nan_or_infinite x = true -> nan_or_infinite (x ⊗ x)%flt = true.
Proof. destruct x; cbn; done. Qed.

Lemma fadd_nan_or_infinite_l (x y : GLfloat) :
  nan_or_infinite x = true -> nan_or_infinite (x ⊕ y)%flt = true.
Proof. destruct x as [| [|] | |], y as [| [|] | |]; cbn; done. Qed.

Lemma fadd_nan_or_infinite_r (x y : GLfloat) :
  nan_or_infinite y = true -> nan_or_infinite (x ⊕ y)%flt = true.
Proof. destruct x as [| [|] | |], y as [| [|] | |]; cbn; done. Qed.

Lemma sqrt_via_double_nan_or_infinite (x : GLfloat) :
  nan_or_infinite x = true ->
  nan_or_infinite (float_of_double (sqrt (double_of_float x))) = true.
Proof. destruct x as [| [|] | |]; cbn; done. Qed.

(** A vector with a NaN or infinite component does not have length zero. *)
Lemma vector_length_nan_or_infinite (v : vector_3d) :
  nan_or_infinite (c0 v) = true \/ nan_or_infinite (c1 v) = true \/
  nan_or_infinite (c2 v) = true ->
  nan_or_infinite (vector_length v) = true.
Proof.
  intros H. unfold vector_length. apply sqrt_via_double_nan_or_infinite.
  destruct H as [H | [H | H]]; apply fmul_nan_or_infinite in H.
  - by apply fadd_nan_or_infinite_l, fadd_nan_or_infinite_l.
  - by apply fadd_nan_or_infinite_l, fadd_nan_or_infinite_r.
  - by apply fadd_nan_or_infinite_r.
Qed.

(** C6, as the code has it.  [geometry_normalize_vector] has no magnitude
    guard: every component is divided by the computed length, whatever it is.
    When that length is zero (the zero vector, or a vector whose squares
    underflow) every component of the result is NaN or infinite, and the
    vector is not left as it was. *)
Theorem geometry_normalize_vector_unguarded (v : vector_3d) (s : bool) :
  vector_length v = S754_zero s ->
  nan_or_infinite (c0 (geometry_normalize_vector v)) = true /\
  nan_or_infinite (c1 (geometry_normalize_vector v)) = true /\
  nan_or_infinite (c2 (geometry_normalize_vector v)) = true /\
  geometry_normalize_vector v <> v.
Proof.
  intros Hs.
  assert (H0 : nan_or_infinite (c0 (geometry_normalize_vector v)) = true).
  { unfold geometry_normalize_vector. cbn [c0]. rewrite Hs. apply fdiv_by_zero. }
  repeat split; try done.
  - unfold geometry_normalize_vector. cbn [c1]. rewrite Hs. apply fdiv_by_zero.
  - unfold geometry_normalize_vector. cbn [c2]. rewrite Hs. apply fdiv_by_zero.
  - intros Heq. rewrite Heq in H0.
    assert (Hl : nan_or_infinite (vector_length v) = true)
      by (apply vector_length_nan_or_infinite; by left).
    rewrite Hs in Hl. discriminate.
Qed.

Lemma geometry_normalize_vector_unguarded_witness :
  vector_length vector_zero = S754_zero false /\
  geometry_normalize_vector vector_zero <> vector_zero.
Proof.
  split; [reflexivity|].
  apply (geometry_normalize_vector_unguarded vector_zero false). reflexivity.
Defined.

(** C6, counterexample.  The zero vector has length zero and comes out as
    three NaNs, not unchanged. *)
Lemma geometry_normalize_vector_zero_changed :
  vector_length vector_zero = f0 /\
  geometry_normalize_vector vector_zero = nan_vector /\
  geometry_normalize_vector vector_zero <> vector_zero.
Proof. repeat split. discriminate. Qed.

(** A vector whose squares underflow is not left unchanged either. *)
Example geometry_normalize_vector_tiny :
  let tiny := S754_finite false 8388608 (-110) in
  geometry_normalize_vector {| c0 := tiny; c1 := f0; c2 := f0 |} =
    {| c0 := S754_infinity false; c1 := S754_nan; c2 := S754_nan |}.
Proof. reflexivity. Qed.

(** ** The agent at the centre of the enclosure *)

(** C7, as the code has it.  At the origin the wall is 10 away and the
    ceiling 10 away, but the floor lies at [y = -1], one unit below: the
    minimum distance is 1 and the environment trigger fires ([1 < 2]). *)
Theorem center_boid_min_distance :
  distance_to_wall center_boid = float_of_int 10 /\
  distance_to_floor center_boid = float_of_int 1 /\
  distance_to_ceiling center_boid = float_of_int 10 /\
  boid_physics_min_distance_to_environment center_boid = float_of_int 1 /\
  boid_behavior_environment_trigger center_boid = true.
Proof. repeat split. Qed.

(** C7, counterexample.  The minimum distance at the centre is not the wall
    radius and the trigger is not false. *)
Lemma center_boid_not_wall_radius :
  ~ (boid_physics_min_distance_to_environment center_boid =
       float_of_int ENVIRONMENT_RADIUS_XZ /\
     boid_behavior_environment_trigger center_boid = false).
Proof. intros [_ H]. vm_compute in H. discriminate. Qed.

(** ** Publishing the frame: [update_boids_previous] *)

Lemma publish_body_current (st : flock) (i : nat) :
  array_boids_current (publish_body st i) = array_boids_current st.
Proof. reflexivity. Qed.

Lemma publish_body_previous (st : flock) (i : nat) :
  array_boids_previous (publish_body st i) =
  <[ i := array_boids_current st !!! i ]> (array_boids_previous st).
Proof. reflexivity. Qed.

Lemma update_boids_previous_prefix (st : flock) (n : nat) :
  let st' := foldl publish_body st (seq 0 n) in
  array_boids_current st' = array_boids_current st /\
  length (array_boids_previous st') = length (array_boids_previous st) /\
  forall j : nat,
    array_boids_previous st' !! j =
      if decide (j < n /\ j < length (array_boids_previous st))%nat
      then Some (array_boids_current st !!! j)
      else array_boids_previous st !! j.
Proof.
  induction n as [|n IH]; cbn zeta.
  - split; [done|]. split; [done|]. intros j. case_decide; [lia | done].
  - rewrite seq_S, foldl_snoc. cbn zeta in IH.
    destruct IH as (Hcur & Hlen & Hprev). cbn [plus].
    rewrite publish_body_current, publish_body_previous.
    split; [done|]. split; [by rewrite length_insert|].
    intros j. rewrite Hcur.
    destruct (decide (n = j)) as [<- | Hne].
    + destruct (decide (n < length (array_boids_previous st))%nat) as [Hlt | Hge].
      * rewrite list_lookup_insert_eq by lia. case_decide; [done | lia].
      * rewrite list_insert_ge by lia. rewrite Hprev.
        repeat case_decide; try lia; done.
    + rewrite list_lookup_insert_ne by done. rewrite Hprev.
      repeat case_decide; try lia; done.
Qed.

(** C9.  After [update_boids_previous] the previous buffer is, element for
    element, the current buffer as it was before the call, and the current
    buffer has not changed. *)
Theorem update_boids_previous_copies (st : flock) :
  length (array_boids_current st) = BOID_COUNT ->
  length (array_boids_previous st) = BOID_COUNT ->
  array_boids_previous (update_boids_previous st) = array_boids_current st /\
  array_boids_current (update_boids_previous st) = array_boids_current st.
Proof.
  intros Hc Hp.
  destruct (update_boids_previous_prefix st BOID_COUNT) as (Hcur & _ & Hprev).
  split; [|exact Hcur].
  apply list_eq. intros j.
  unfold update_boids_previous. rewrite Hprev, Hp. case_decide as Hj.
  - symmetry. apply list_lookup_lookup_total_lt. lia.
  - rewrite !lookup_ge_None_2; [done | lia | lia].
Qed.

Lemma update_boids_previous_copies_witness :
  array_boids_previous (update_boids_previous coincident_flock) = coincident_boids /\
  array_boids_current (update_boids_previous coincident_flock) = coincident_boids.
Proof.
  apply (update_boids_previous_copies coincident_flock); reflexivity.
Defined.

(** ** The per-agent update reads [previous] and its own slot only *)

Section PerAgent.

Context `{Q : QSort}.

Lemma update_boid_previous_only (st st' : flock) (b : boid) :
  array_boids_previous st = array_boids_previous st' ->
  update_boid st b = update_boid st' b.
Proof.
  intros Hprev.
  unfold update_boid, boid_behavior_handle_neighbors, boid_behavior_find_neighbors,
    all_possible_neighbors, handle_neighbors_cohere, handle_neighbors_separate,
    handle_neighbors_align, boid_physics_target_direction_neighbor_cohesion,
    boid_physics_target_direction_neighbor_alignment,
    cohesion_loop_body, alignment_loop_body.
  rewrite Hprev. reflexivity.
Qed.

Lemma update_boids_current_body_previous (st : flock) (i : nat) :
  array_boids_previous (update_boids_current_body st i) = array_boids_previous st.
Proof. reflexivity. Qed.

Lemma update_boids_current_body_other (st : flock) (i j : nat) :
  i <> j ->
  array_boids_current (update_boids_current_body st i) !! j =
  array_boids_current st !! j.
Proof. intros Hne. cbn. by rewrite list_lookup_insert_ne. Qed.

Lemma update_boids_current_body_own (st : flock) (i : nat) :
  array_boids_current (update_boids_current_body st i) !! i =
  update_boid st <$> array_boids_current st !! i.
Proof.
  cbn. destruct (decide (i < length (array_boids_current st))%nat) as [Hlt | Hge].
  - rewrite list_lookup_insert_eq by done.
    by rewrite (list_lookup_lookup_total_lt _ _ Hlt).
  - rewrite list_insert_ge by lia. by rewrite lookup_ge_None_2 by lia.
Qed.

(** After the first [n] iterations of the pass, the slots below [n] hold the
    update of what they held at the start, computed against the [previous]
    of the start; the other slots and [previous] are as they were. *)
Lemma update_boids_current_prefix (st : flock) (n : nat) :
  let st' := foldl update_boids_current_body st (seq 0 n) in
  array_boids_previous st' = array_boids_previous st /\
  forall j : nat,
    array_boids_current st' !! j =
      if decide (j < n)%nat
      then update_boid st <$> array_boids_current st !! j
      else array_boids_current st !! j.
Proof.
  induction n as [|n IH]; cbn zeta.
  - split; [done|]. intros j. case_decide; [lia | done].
  - rewrite seq_S, foldl_snoc. cbn zeta in IH. cbn [plus].
    destruct IH as (Hprev & Hcur).
    split; [by rewrite update_boids_current_body_previous|].
    intros j. destruct (decide (n = j)) as [<- | Hne].
    + rewrite update_boids_current_body_own, Hcur.
      repeat case_decide; try lia.
      destruct (array_boids_current st !! n) as [b|]; [|done].
      cbn. f_equal. by apply update_boid_previous_only.
    + rewrite update_boids_current_body_other by done. rewrite Hcur.
      repeat case_decide; try lia; done.
Qed.

Lemma update_boids_current_lookup (st : flock) (i : nat) :
  (i < BOID_COUNT)%nat ->
  array_boids_current (update_boids_current st) !! i =
  update_boid st <$> array_boids_current st !! i.
Proof.
  intros Hi. destruct (update_boids_current_prefix st BOID_COUNT) as (_ & Hcur).
  unfold update_boids_current. rewrite Hcur. by case_decide.
Qed.

Lemma update_boids_current_previous (st : flock) :
  array_boids_previous (update_boids_current st) = array_boids_previous st.
Proof. by destruct (update_boids_current_prefix st BOID_COUNT) as (? & _). Qed.

Lemma update_boids_current_length (st : flock) :
  length (array_boids_current (update_boids_current st)) =
  length (array_boids_current st).
Proof.
  unfold update_boids_current. generalize BOID_COUNT. intros n.
  induction n as [|n IH]; [done|].
  rewrite seq_S, foldl_snoc. cbn. by rewrite length_insert.
Qed.

(** C2.  The update of agent [i] is a function of the previous buffer and of
    slot [i] of the current buffer: two states that agree on these produce
    the same boid in slot [i], after the loop body alone and after the full
    pass, whatever the other slots of [current] hold. *)
Theorem update_boid_reads_previous_and_own_slot (st st' : flock) (i : nat) :
  array_boids_previous st = array_boids_previous st' ->
  array_boids_current st !! i = array_boids_current st' !! i ->
  array_boids_current (update_boids_current_body st i) !! i =
    array_boids_current (update_boids_current_body st' i) !! i /\
  array_boids_current (update_boids_current st) !! i =
    array_boids_current (update_boids_current st') !! i.
Proof.
  intros Hprev Hown. split.
  - rewrite !update_boids_current_body_own, Hown.
    destruct (array_boids_current st' !! i) as [b|]; [|done].
    cbn. f_equal. by apply update_boid_previous_only.
  - destruct (update_boids_current_prefix st BOID_COUNT) as (_ & Hcur).
    destruct (update_boids_current_prefix st' BOID_COUNT) as (_ & Hcur').
    unfold update_boids_current. rewrite Hcur, Hcur', Hown.
    case_decide; [|done].
    destruct (array_boids_current st' !! i) as [b|]; [|done].
    cbn. f_equal. by apply update_boid_previous_only.
Qed.

End PerAgent.

(** ** Two implementations of the [qsort] interface *)

Ltac elem_cons := rewrite ?elem_of_cons in *; intuition auto.

Section InsertionSort.

Context {A : Type} (goes_before : Z -> bool) (cmp : A -> A -> Z).

Hypothesis goes_before_le : forall c : Z, goes_before c = true -> c <= 0.
Hypothesis goes_before_ge : forall c : Z, goes_before c = false -> 0 <= c.

Lemma insert_by_perm (x : A) (l : list A) :
  insert_by goes_before cmp x l ≡ₚ x :: l.
Proof.
  induction l as [|y l IH]; cbn; [done|].
  destruct (goes_before (cmp x y)); [done|].
  rewrite IH. apply Permutation_swap.
Qed.

Lemma isort_by_perm (l : list A) : isort_by goes_before cmp l ≡ₚ l.
Proof.
  induction l as [|x l IH]; cbn; [done|].
  fold (isort_by goes_before cmp l). by rewrite insert_by_perm, IH.
Qed.

Lemma insert_by_sorted (x : A) (l : list A) :
  cmp_consistent cmp (x :: l) ->
  StronglySorted (fun a b => cmp a b <= 0) l ->
  StronglySorted (fun a b => cmp a b <= 0) (insert_by goes_before cmp x l).
Proof.
  intros [Hanti Htrans]. induction l as [|y l IH]; intros Hs; cbn.
  - repeat constructor.
  - apply StronglySorted_inv in Hs as [Hs Hy].
    destruct (goes_before (cmp x y)) eqn:Hxy.
    + apply goes_before_le in Hxy.
      constructor; [by constructor|].
      constructor; [done|].
      rewrite Forall_forall in Hy |- *. intros z Hz.
      apply (Htrans x y z); try done; elem_cons.
    + apply goes_before_ge in Hxy.
      assert (Hyx : cmp y x <= 0).
      { specialize (Hanti x y ltac:(elem_cons) ltac:(elem_cons)). lia. }
      constructor.
      * apply IH; [| |done].
        -- intros a b Ha Hb. apply Hanti; elem_cons.
        -- intros a b c Ha Hb Hc. apply Htrans; elem_cons.
      * rewrite Forall_forall in Hy |- *. intros z Hz.
        rewrite (insert_by_perm x l) in Hz.
        apply elem_of_cons in Hz as [-> | Hz]; [done | by apply Hy].
Qed.

Lemma isort_by_sorted (l : list A) :
  cmp_consistent cmp l ->
  StronglySorted (fun a b => cmp a b <= 0) (isort_by goes_before cmp l).
Proof.
  induction l as [|x l IH]; intros [Hanti Htrans]; cbn; [constructor|].
  fold (isort_by goes_before cmp l).
  assert (Hl : cmp_consistent cmp l).
  { split.
    - intros a b Ha Hb. apply Hanti; elem_cons.
    - intros a b c Ha Hb Hc. apply Htrans; elem_cons. }
  apply insert_by_sorted; [|by apply IH].
  split.
  - intros a b Ha Hb. rewrite isort_by_perm in Ha, Hb. by apply Hanti.
  - intros a b c Ha Hb Hc. rewrite isort_by_perm in Ha, Hb, Hc. by apply Htrans.
Qed.

End InsertionSort.

(** A [qsort] that keeps the input order of equal elements. *)
Definition qsort_stable : QSort :=
  {| qsort := @isort_stable;
     qsort_perm := fun A cmp l _ => isort_by_perm _ cmp l;
     qsort_sorted := fun A cmp l =>
       isort_by_sorted (fun c => c <=? 0) cmp
         (fun c H => proj1 (Z.leb_le c 0) H)
         (fun c H => Z.lt_le_incl _ _ (proj1 (Z.leb_gt c 0) H)) l |}.

(** A [qsort] that reverses the input order of equal elements. *)
Definition qsort_reversing : QSort :=
  {| qsort := @isort_reversing;
     qsort_perm := fun A cmp l _ => isort_by_perm _ cmp l;
     qsort_sorted := fun A cmp l =>
       isort_by_sorted (fun c => c <? 0) cmp
         (fun c H => Z.lt_le_incl _ _ (proj1 (Z.ltb_lt c 0) H))
         (fun c H => proj1 (Z.ltb_ge c 0) H) l |}.

(** ** The comparison function of the neighbour sort *)

Lemma SFcompare_antisym (x y : spec_float) :
  SFcompare y x = CompOpp <$> SFcompare x y.
Proof.
  destruct x as [sx|sx| |sx mx ex], y as [sy|sy| |sy my ey];
    try reflexivity;
    try (destruct sx; reflexivity);
    try (destruct sy; reflexivity);
    try (destruct sx, sy; reflexivity).
  cbn. change (PosDef.Pos.compare_cont Eq) with Pos.compare.
  destruct sx, sy; try reflexivity;
    rewrite (Z.compare_antisym ex ey), (Pos.compare_antisym mx my);
    destruct (ex ?= ey); cbn; try reflexivity;
    by rewrite ?CompOpp_involutive.
Qed.

Lemma compare_neighbor_boids_antisym (a b : boid_neighbor) :
  Z.sgn (compare_neighbor_boids a b) = - Z.sgn (compare_neighbor_boids b a).
Proof.
  unfold compare_neighbor_boids, flt, SFltb.
  rewrite (SFcompare_antisym (distance a) (distance b)).
  by destruct (SFcompare (distance a) (distance b)) as [[]|].
Qed.

(** The comparison function looks at the distances only: records at equal
    distance compare equal whatever their indices. *)
Lemma compare_neighbor_boids_tie (a b : boid_neighbor) :
  SFeqb (distance a) (distance b) = true -> compare_neighbor_boids a b = 0.
Proof.
  unfold compare_neighbor_boids, flt, SFltb, SFeqb.
  rewrite (SFcompare_antisym (distance a) (distance b)).
  by destruct (SFcompare (distance a) (distance b)) as [[]|].
Qed.

Lemma compare_neighbor_boids_le (a b : boid_neighbor) :
  is_nan (distance a) = false -> is_nan (distance b) = false ->
  compare_neighbor_boids a b <= 0 <-> SFleb (distance a) (distance b) = true.
Proof.
  intros Ha Hb. unfold compare_neighbor_boids, flt, SFltb, SFleb.
  rewrite (SFcompare_antisym (distance a) (distance b)).
  destruct (SFcompare (distance a) (distance b)) as [[]|] eqn:Hc; cbn;
    try (split; [done | lia]); try (split; [lia | done]).
  destruct (distance a) as [| | |], (distance b) as [| | |]; done.
Qed.

Lemma SFleb_trans (x y z : spec_float) :
  SFleb x y = true -> SFleb y z = true -> SFleb x z = true.
Proof.
  unfold SFleb.
  destruct x as [sx|sx| |sx mx ex], y as [sy|sy| |sy my ey], z as [sz|sz| |sz mz ez];
    cbn; try done;
    try (destruct sx; done); try (destruct sy; done); try (destruct sz; done);
    try (destruct sx, sy; done); try (destruct sx, sz; done);
    try (destruct sy, sz; done); try (destruct sx, sy, sz; done).
  change (PosDef.Pos.compare_cont Eq) with Pos.compare.
  destruct sx, sy, sz; try done;
    destruct (Z.compare_spec ex ey), (Z.compare_spec ey ez), (Z.compare_spec ex ez);
    try lia; try done; subst;
    destruct (Pos.compare_spec mx my), (Pos.compare_spec my mz),
             (Pos.compare_spec mx mz); try lia; done.
Qed.

Lemma compare_neighbor_boids_consistent (l : list boid_neighbor) :
  Forall (fun n => is_nan (distance n) = false) l ->
  cmp_consistent compare_neighbor_boids l.
Proof.
  rewrite Forall_forall. intros Hnan. split.
  - intros a b _ _. apply compare_neighbor_boids_antisym.
  - intros a b c Ha Hb Hc.
    rewrite !compare_neighbor_boids_le by auto. apply SFleb_trans.
Qed.

(** ** The neighbour sort *)

Lemma qsort_n_all `{QSort} {A : Type} (base : list A) (nmemb : nat)
    (compar : A -> A -> Z) :
  length base = nmemb -> qsort_n base nmemb compar = qsort compar base.
Proof.
  intros <-. unfold qsort_n. by rewrite take_ge, drop_ge, app_nil_r by lia.
Qed.

Lemma sort_all_neighbors_perm `{QSort} (arr : list boid_neighbor) :
  Forall (fun n => is_nan (distance n) = false) arr ->
  sort_all_neighbors arr ≡ₚ arr.
Proof.
  intros Hnan. unfold sort_all_neighbors, qsort_n.
  rewrite qsort_perm, take_drop; [done|].
  by apply compare_neighbor_boids_consistent, Forall_take.
Qed.

Lemma sort_all_neighbors_sorted `{QSort} (arr : list boid_neighbor) :
  length arr = BOID_COUNT ->
  Forall (fun n => is_nan (distance n) = false) arr ->
  ascending_by_distance (sort_all_neighbors arr).
Proof.
  intros Hlen Hnan. unfold sort_all_neighbors, ascending_by_distance.
  rewrite qsort_n_all by done.
  pose proof (qsort_sorted _ _ _ (compare_neighbor_boids_consistent arr Hnan)) as Hs.
  assert (Hnan' : Forall (fun n => is_nan (distance n) = false)
                         (qsort compare_neighbor_boids arr))
    by (rewrite qsort_perm;
        [done | by apply compare_neighbor_boids_consistent]).
  induction Hs as [|a l Hs IH Ha]; [constructor|].
  apply Forall_cons in Hnan' as [Hna Hnl].
  constructor; [by apply IH|].
  rewrite Forall_forall in Ha, Hnl |- *. intros b Hb.
  apply compare_neighbor_boids_le; auto.
Qed.

(** C3, as the code has it.  The neighbour sort returns a rearrangement of
    the [BOID_COUNT] records in ascending order of distance (the distances
    being numbers); the comparison function returns 0 on equal distances
    without looking at the indices, so the order of equidistant records is
    whatever the library's [qsort] makes it. *)
Theorem sort_all_neighbors_ascending `{QSort} (arr : list boid_neighbor) :
  length arr = BOID_COUNT ->
  Forall (fun n => is_nan (distance n) = false) arr ->
  sort_all_neighbors arr ≡ₚ arr /\
  ascending_by_distance (sort_all_neighbors arr) /\
  (forall a b : boid_neighbor,
     SFeqb (distance a) (distance b) = true -> compare_neighbor_boids a b = 0).
Proof.
  intros Hlen Hnan. split; [by apply sort_all_neighbors_perm|].
  split; [by apply sort_all_neighbors_sorted|].
  apply compare_neighbor_boids_tie.
Qed.

Lemma aligned_neighbors_no_nan :
  Forall (fun n => is_nan (distance n) = false)
         (all_possible_neighbors aligned_flock (aligned_boid 0)).
Proof. vm_compute. repeat constructor. Qed.

Lemma sort_all_neighbors_ascending_witness :
  ascending_by_distance
    (@sort_all_neighbors qsort_stable
       (all_possible_neighbors aligned_flock (aligned_boid 0))).
Proof.
  apply (@sort_all_neighbors_ascending qsort_stable
           (all_possible_neighbors aligned_flock (aligned_boid 0))).
  - reflexivity.
  - apply aligned_neighbors_no_nan.
Defined.

(** C3, counterexample.  Seen from agent 0 of the grid, agents 1 and 8 are
    both at distance 1.  With a [qsort] that reverses the input order of
    equal elements the record of agent 8 precedes the record of agent 1. *)
Lemma sort_all_neighbors_ties_not_by_index :
  ~ ties_by_index
      (@sort_all_neighbors qsort_reversing
         (all_possible_neighbors aligned_flock (aligned_boid 0))).
Proof.
  intros Hties.
  specialize (Hties 1%nat 2%nat
                {| distance := float_of_int 1; index := 8 |}
                {| distance := float_of_int 1; index := 1 |}).
  cbn [index] in Hties.
  assert (8 < 1)%nat; [|lia].
  apply Hties; [lia | reflexivity | reflexivity | reflexivity].
Qed.

Example sort_all_neighbors_reversing_head :
  take 3 (@sort_all_neighbors qsort_reversing
            (all_possible_neighbors aligned_flock (aligned_boid 0))) =
  [ {| distance := f0; index := 0 |};
    {| distance := float_of_int 1; index := 8 |};
    {| distance := float_of_int 1; index := 1 |} ].
Proof. reflexivity. Qed.

Example sort_all_neighbors_stable_head :
  take 3 (@sort_all_neighbors qsort_stable
            (all_possible_neighbors aligned_flock (aligned_boid 0))) =
  [ {| distance := f0; index := 0 |};
    {| distance := float_of_int 1; index := 1 |};
    {| distance := float_of_int 1; index := 8 |} ].
Proof. reflexivity. Qed.

(** ** The neighbour finder *)

Lemma all_possible_neighbors_eq (st : flock) (subject_boid : boid) :
  all_possible_neighbors st subject_boid =
  (fun i => {| distance :=
                 boid_physics_distance_of_boids subject_boid
                   (array_boids_previous st !!! i);
               index := i |}) <$> seq 0 BOID_COUNT.
Proof. reflexivity. Qed.

Lemma all_possible_neighbors_length (st : flock) (subject_boid : boid) :
  length (all_possible_neighbors st subject_boid) = BOID_COUNT.
Proof. reflexivity. Qed.

Lemma all_possible_neighbors_index (st : flock) (subject_boid : boid)
    (n : boid_neighbor) :
  n ∈ all_possible_neighbors st subject_boid -> (index n < BOID_COUNT)%nat.
Proof.
  rewrite all_possible_neighbors_eq. intros Hn.
  apply list_elem_of_fmap in Hn as (i & -> & Hi).
  apply elem_of_seq in Hi. cbn. lia.
Qed.

Section FindNeighbors.

Context `{Q : QSort}.

Lemma boid_behavior_find_neighbors_eq (st : flock) (subject_boid : boid) :
  boid_behavior_find_neighbors st subject_boid =
  (fun i => sort_all_neighbors (all_possible_neighbors st subject_boid) !!! (i + 1)%nat)
    <$> seq 0 BOID_NEIGHBORHOOD_SIZE.
Proof. reflexivity. Qed.

Lemma boid_behavior_find_neighbors_length (st : flock) (subject_boid : boid) :
  length (boid_behavior_find_neighbors st subject_boid) = BOID_NEIGHBORHOOD_SIZE.
Proof. reflexivity. Qed.

Lemma sort_all_neighbors_length (arr : list boid_neighbor) :
  Forall (fun n => is_nan (distance n) = false) arr ->
  length (sort_all_neighbors arr) = length arr.
Proof. intros Hnan. by rewrite sort_all_neighbors_perm. Qed.

Lemma boid_behavior_find_neighbors_lookup (st : flock) (subject_boid : boid) (i : nat) :
  Forall (fun n => is_nan (distance n) = false)
         (all_possible_neighbors st subject_boid) ->
  (i < BOID_NEIGHBORHOOD_SIZE)%nat ->
  sort_all_neighbors (all_possible_neighbors st subject_boid) !! (i + 1)%nat =
  Some (boid_behavior_find_neighbors st subject_boid !!! i).
Proof.
  intros Hnan Hi. rewrite boid_behavior_find_neighbors_eq.
  rewrite (list_lookup_total_correct _ i
             (sort_all_neighbors (all_possible_neighbors st subject_boid) !!! (i + 1)%nat)).
  - apply list_lookup_lookup_total_lt.
    rewrite sort_all_neighbors_length, all_possible_neighbors_length by done.
    unfold BOID_NEIGHBORHOOD_SIZE, BOID_COUNT in *. lia.
  - rewrite list_lookup_fmap, lookup_seq_lt by done. reflexivity.
Qed.

(** When the distances are numbers, every record handed to the steering
    steps names a slot of the flock. *)
Lemma boid_behavior_find_neighbors_index (st : flock) (subject_boid : boid) (i : nat) :
  Forall (fun n => is_nan (distance n) = false)
         (all_possible_neighbors st subject_boid) ->
  (i < BOID_NEIGHBORHOOD_SIZE)%nat ->
  (index (boid_behavior_find_neighbors st subject_boid !!! i) < BOID_COUNT)%nat.
Proof.
  intros Hnan Hi. apply (all_possible_neighbors_index st subject_boid).
  rewrite <- (sort_all_neighbors_perm (all_possible_neighbors st subject_boid))
    by done.
  apply list_elem_of_lookup. exists (i + 1)%nat.
  by apply boid_behavior_find_neighbors_lookup.
Qed.

End FindNeighbors.

(** ** Two agents at the same point: the subject among its own neighbours *)

Lemma SFltb_not_leb (x y : spec_float) : SFltb x y = true -> SFleb y x = false.
Proof.
  unfold SFltb, SFleb. rewrite (SFcompare_antisym x y).
  by destruct (SFcompare x y) as [[]|].
Qed.

(** In [coincident_flock] agents 0 and 1 see the same array of distances:
    both are at distance 0, every other agent is farther. *)
Lemma coincident_neighbors_same :
  all_possible_neighbors coincident_flock (coincident_boids !!! 1%nat) =
  all_possible_neighbors coincident_flock (coincident_boids !!! 0%nat).
Proof. reflexivity. Qed.

Lemma coincident_neighbors_no_nan :
  Forall (fun n => is_nan (distance n) = false)
         (all_possible_neighbors coincident_flock (coincident_boids !!! 0%nat)).
Proof. vm_compute. repeat constructor. Qed.

Lemma coincident_neighbors_far :
  Forall (fun n => index n = 0%nat \/ index n = 1%nat \/
                   SFltb f0 (distance n) = true)
         (all_possible_neighbors coincident_flock (coincident_boids !!! 0%nat)).
Proof.
  vm_compute.
  repeat (constructor; [first [by left | by right; left | by right; right]|]).
  constructor.
Qed.

Section SubjectAmongNeighbors.

Context `{Q : QSort}.

Let arr := all_possible_neighbors coincident_flock (coincident_boids !!! 0%nat).
Let r0 : boid_neighbor := {| distance := f0; index := 0 |}.
Let r1 : boid_neighbor := {| distance := f0; index := 1 |}.

(** Whatever [qsort] does with ties, the record at sorted position 1 is that
    of agent 0 or of agent 1. *)
Lemma coincident_second_record :
  exists x1 : boid_neighbor,
    sort_all_neighbors arr !! 1%nat = Some x1 /\
    (index x1 = 0%nat \/ index x1 = 1%nat).
Proof.
  pose proof (sort_all_neighbors_perm arr coincident_neighbors_no_nan) as Hperm.
  pose proof (sort_all_neighbors_sorted arr eq_refl coincident_neighbors_no_nan) as Hs.
  pose proof (Permutation_length Hperm) as Hlen.
  assert (Hr0 : r0 ∈ sort_all_neighbors arr).
  { rewrite Hperm. apply list_elem_of_lookup. by exists 0%nat. }
  assert (Hr1 : r1 ∈ sort_all_neighbors arr).
  { rewrite Hperm. apply list_elem_of_lookup. by exists 1%nat. }
  assert (Hfar : Forall (fun n => index n = 0%nat \/ index n = 1%nat \/
                                  SFltb f0 (distance n) = true)
                        (sort_all_neighbors arr)).
  { rewrite Hperm. apply coincident_neighbors_far. }
  unfold ascending_by_distance in Hs.
  destruct (sort_all_neighbors arr) as [|x0 [|x1 rest]]; [done | done |].
  exists x1. split; [done|].
  apply Forall_cons in Hfar as [_ Hfar]. apply Forall_cons in Hfar as [Hx1 _].
  destruct Hx1 as [? | [? | Hpos]]; [by left | by right |].
  exfalso.
  apply StronglySorted_inv in Hs as [Hs _].
  apply StronglySorted_inv in Hs as [_ Hx1].
  rewrite Forall_forall in Hx1.
  assert (Hnot : forall r : boid_neighbor,
             distance r = f0 -> r ∈ x0 :: x1 :: rest -> r <> x1 -> r = x0).
  { intros r Hd Hr Hne.
    apply elem_of_cons in Hr as [-> | Hr]; [done|].
    apply elem_of_cons in Hr as [-> | Hr]; [done|].
    apply Hx1 in Hr. rewrite Hd in Hr.
    apply SFltb_not_leb in Hpos. congruence. }
  assert (H0 : r0 = x0).
  { apply Hnot; [done | done |]. intros <-. by vm_compute in Hpos. }
  assert (H1 : r1 = x0).
  { apply Hnot; [done | done |]. intros <-. by vm_compute in Hpos. }
  rewrite <- H1 in H0. discriminate.
Qed.

(** C4, at the failing input.  [boid_behavior_find_neighbors] always fills
    [BOID_NEIGHBORHOOD_SIZE] records, but in a flock where agents 0 and 1 are
    at the same point one of the two finds its own index among them,
    whatever the library's [qsort] does with equal distances. *)
Theorem boid_behavior_find_neighbors_returns_subject :
  exists i : nat,
    (i < BOID_COUNT)%nat /\
    length (boid_behavior_find_neighbors coincident_flock
              (array_boids_current coincident_flock !!! i)) = BOID_NEIGHBORHOOD_SIZE /\
    i ∈ index <$> boid_behavior_find_neighbors coincident_flock
                    (array_boids_current coincident_flock !!! i).
Proof.
  destruct coincident_second_record as (x1 & Hx1 & Hidx).
  assert (Hfirst : forall i : nat,
             all_possible_neighbors coincident_flock
               (array_boids_current coincident_flock !!! i) = arr ->
             index x1 ∈ index <$> boid_behavior_find_neighbors coincident_flock
                                    (array_boids_current coincident_flock !!! i)).
  { intros i Harr. apply list_elem_of_fmap. exists x1. split; [done|].
    apply list_elem_of_lookup. exists 0%nat.
    rewrite list_lookup_lookup_total_lt
      by (rewrite boid_behavior_find_neighbors_length; unfold BOID_NEIGHBORHOOD_SIZE; lia).
    rewrite <- (boid_behavior_find_neighbors_lookup _ _ 0);
      [by rewrite Harr
      | rewrite Harr; apply coincident_neighbors_no_nan
      | unfold BOID_NEIGHBORHOOD_SIZE; lia]. }
  destruct Hidx as [Hi | Hi].
  - exists 0%nat. split; [unfold BOID_COUNT; lia|].
    split; [apply boid_behavior_find_neighbors_length|].
    rewrite <- Hi at 1. by apply Hfirst.
  - exists 1%nat. split; [unfold BOID_COUNT; lia|].
    split; [apply boid_behavior_find_neighbors_length|].
    rewrite <- Hi at 1. apply Hfirst. apply coincident_neighbors_same.
Qed.

End SubjectAmongNeighbors.

(** Where the exclusion by position does work: when the record of the
    subject's own slot is strictly nearer than every other record, it is the
    one at sorted position 0 and the subject is not among its neighbours. *)
Lemma boid_behavior_find_neighbors_excludes_nearest `{QSort}
    (st : flock) (subject_boid : boid) (i : nat) :
  (i < BOID_COUNT)%nat ->
  Forall (fun n => is_nan (distance n) = false)
         (all_possible_neighbors st subject_boid) ->
  (forall j : nat, (j < BOID_COUNT)%nat -> j <> i ->
     SFltb (boid_physics_distance_of_boids subject_boid (array_boids_previous st !!! i))
           (boid_physics_distance_of_boids subject_boid (array_boids_previous st !!! j))
       = true) ->
  i ∉ index <$> boid_behavior_find_neighbors st subject_boid.
Proof.
  intros Hi Hnan Hnear Hin.
  set (rec := fun j : nat =>
         {| distance := boid_physics_distance_of_boids subject_boid
                          (array_boids_previous st !!! j);
            index := j |}).
  pose proof (all_possible_neighbors_eq st subject_boid) as Harr. fold rec in Harr.
  pose proof (sort_all_neighbors_perm (all_possible_neighbors st subject_boid) Hnan)
    as Hperm.
  pose proof (sort_all_neighbors_sorted _ (all_possible_neighbors_length st subject_boid)
                Hnan) as Hs.
  assert (Hdup : NoDup (sort_all_neighbors (all_possible_neighbors st subject_boid))).
  { rewrite Hperm, Harr. apply NoDup_fmap_2; [|apply NoDup_seq].
    intros a b Hab. by injection Hab. }
  assert (Hall : forall n, n ∈ sort_all_neighbors (all_possible_neighbors st subject_boid) ->
                   (index n < BOID_COUNT)%nat /\ n = rec (index n)).
  { intros n Hn. rewrite Hperm, Harr in Hn.
    apply list_elem_of_fmap in Hn as (j & -> & Hj). apply elem_of_seq in Hj.
    cbn. split; [lia | done]. }
  apply list_elem_of_fmap in Hin as (n & Hidx & Hn).
  apply list_elem_of_lookup in Hn as (k & Hk).
  pose proof (lookup_lt_Some _ _ _ Hk) as Hlt.
  rewrite boid_behavior_find_neighbors_length in Hlt.
  apply list_lookup_total_correct in Hk.
  pose proof (boid_behavior_find_neighbors_lookup st subject_boid k Hnan Hlt) as Hsk.
  rewrite Hk in Hsk. unfold ascending_by_distance in Hs.
  destruct (sort_all_neighbors (all_possible_neighbors st subject_boid))
    as [|x0 rest]; [done|].
  replace (k + 1)%nat with (S k) in Hsk by lia. cbn in Hsk.
  assert (Hnr : n ∈ rest) by (apply list_elem_of_lookup; by exists k).
  destruct (Hall n ltac:(by right)) as [_ Hnrec]. rewrite <- Hidx in Hnrec.
  destruct (Hall x0 ltac:(by left)) as [Hx0 Hx0rec].
  apply NoDup_cons in Hdup as [Hx0n _].
  apply StronglySorted_inv in Hs as [_ Hle].
  rewrite Forall_forall in Hle. specialize (Hle n Hnr).
  destruct (decide (index x0 = i)) as [Heq | Hne].
  - apply Hx0n. rewrite Hx0rec, Heq, <- Hnrec. done.
  - specialize (Hnear (index x0) Hx0 Hne). apply SFltb_not_leb in Hnear.
    rewrite Hx0rec, Hnrec in Hle. cbn [distance rec] in Hle. congruence.
Qed.

(** In the first frame every record is at the same distance from the
    subject (all of [array_boids_previous] is at the origin): with a [qsort]
    that keeps the input order the neighbours are the slots 1 to 6, whoever
    the subject is. *)
Example find_neighbors_first_frame :
  index <$> @boid_behavior_find_neighbors qsort_stable first_frame_flock
              (array_boids_current first_frame_flock !!! 3%nat)
  = [1; 2; 3; 4; 5; 6]%nat.
Proof. reflexivity. Qed.

(** With a [qsort] that keeps the input order of equal elements it is agent
    1 that is its own nearest neighbour; with one that reverses it, agent 0. *)
Example find_neighbors_stable_agent_1 :
  index <$> @boid_behavior_find_neighbors qsort_stable coincident_flock
              (coincident_boids !!! 1%nat) = [1; 8; 9; 2; 16; 10]%nat.
Proof. reflexivity. Qed.

Example find_neighbors_reversing_agent_0 :
  index <$> @boid_behavior_find_neighbors qsort_reversing coincident_flock
              (coincident_boids !!! 0%nat) = [0; 8; 9; 16; 2; 17]%nat.
Proof. reflexivity. Qed.

Lemma update_boid_reads_previous_and_own_slot_witness :
  array_boids_current
    (@update_boids_current qsort_stable coincident_flock) !! 2%nat =
  array_boids_current
    (@update_boids_current qsort_stable
       (set_current (fun cur => <[ 5%nat := center_boid ]> cur) coincident_flock)) !! 2%nat.
Proof.
  apply (@update_boid_reads_previous_and_own_slot qsort_stable coincident_flock
           (set_current (fun cur => <[ 5%nat := center_boid ]> cur) coincident_flock)
           2%nat); reflexivity.
Defined.

(** ** The cohesion weight has no epsilon *)

Lemma cohesion_weight_zero (s : bool) :
  cohesion_weight (S754_zero s) = S754_infinity false.
Proof. by destruct s. Qed.

(** The guarded denominators of separation and environment repulsion at
    distance zero, for comparison: the quotient is a finite number. *)
Example guarded_weight_zero :
  (BOID_STRENGTH_ENVIRONMENT ⊘ (f0 ⊗ f0 ⊕ EPSILON_1em6))%flt =
    S754_finite false 12800000 (-7) /\
  (f1 ⊘ (f0 ⊗ f0 ⊕ EPSILON_1em6) ⊗ BOID_STRENGTH_SEPARATE)%flt =
    S754_finite false 10240000 (-11).
Proof. split; reflexivity. Qed.

(** C5, at the failing input.  Agent 0 of [coincident_flock] has agent 1 as
    nearest neighbour, at distance 0: the cohesion weight
    [BOID_STRENGTH_COHESION / (dist * dist)] is a division by zero, the
    weight is infinite and the cohesion target is three NaNs. *)
Theorem cohesion_weight_unguarded :
  let subject := coincident_boids !!! 0%nat in
  let neighbors := @boid_behavior_find_neighbors qsort_stable coincident_flock subject in
  let nearest := array_boids_previous coincident_flock !!! index (neighbors !!! 0%nat) in
  boid_physics_distance_of_boids subject nearest = f0 /\
  cohesion_weight (boid_physics_distance_of_boids subject nearest) = S754_infinity false /\
  boid_physics_target_direction_neighbor_cohesion coincident_flock subject neighbors =
    nan_vector.
Proof. repeat split. Qed.

(** ** A perfectly aligned flock loses its directions *)

Lemma blend_and_normalize_nan (delta : vector_3d) (strength : GLfloat) :
  blend_and_normalize nan_vector delta strength = nan_vector.
Proof. reflexivity. Qed.

Lemma handle_neighbors_separate_nan (st : flock) (b : boid) (n : boid_neighbor) :
  direction b = nan_vector ->
  direction (handle_neighbors_separate st b n) = nan_vector.
Proof.
  intros Hd. unfold handle_neighbors_separate.
  destruct (_ ≺ _)%flt; [|done].
  cbn [set_direction direction]. rewrite Hd. apply blend_and_normalize_nan.
Qed.

Lemma handle_neighbors_cohere_nan (st : flock) (b : boid) (ns : list boid_neighbor) :
  direction b = nan_vector ->
  direction (handle_neighbors_cohere st b ns) = nan_vector.
Proof.
  intros Hd. unfold handle_neighbors_cohere.
  cbn [set_direction direction]. rewrite Hd. apply blend_and_normalize_nan.
Qed.

(** The alignment target of an agent heading along +Z whose neighbours all
    head along +Z: the average minus the own direction is the zero vector,
    and normalizing it divides 0 by 0. *)
Lemma alignment_target_aligned (st : flock) (b : boid) (ns : list boid_neighbor) :
  direction b = f_int_vec 0 0 1 ->
  (forall i : nat, (i < BOID_NEIGHBORHOOD_SIZE)%nat ->
     direction (array_boids_previous st !!! index (ns !!! i)) = f_int_vec 0 0 1) ->
  boid_physics_target_direction_neighbor_alignment st b ns = nan_vector.
Proof.
  intros Hb Hns. unfold boid_physics_target_direction_neighbor_alignment.
  cbv beta iota zeta delta [foldl seq BOID_NEIGHBORHOOD_SIZE alignment_loop_body].
  rewrite Hb, !Hns by (unfold BOID_NEIGHBORHOOD_SIZE; lia).
  reflexivity.
Qed.

Lemma boid_physics_update_position_direction (b : boid) :
  direction (boid_physics_update_position b) = direction b.
Proof. reflexivity. Qed.

Lemma handle_neighbors_align_direction (st : flock) (b : boid)
    (ns : list boid_neighbor) :
  direction (handle_neighbors_align st b ns) =
  blend_and_normalize (direction b)
    (boid_physics_target_direction_neighbor_alignment st b ns)
    BOID_STRENGTH_ALIGNMENT.
Proof. reflexivity. Qed.

Lemma blend_aligned_nan :
  blend_and_normalize (f_int_vec 0 0 1) nan_vector BOID_STRENGTH_ALIGNMENT = nan_vector.
Proof. vm_compute. reflexivity. Qed.

Lemma aligned_boids_facts :
  Forall (fun b => boid_behavior_environment_trigger b = false /\
                   direction b = f_int_vec 0 0 1) aligned_boids.
Proof.
  unfold aligned_boids. cbn [BOID_COUNT seq fmap list_fmap].
  repeat (constructor; [split; reflexivity|]). constructor.
Qed.

(** Seen from any agent of the grid, the forty distances are numbers. *)
Lemma aligned_flock_no_nan (b : boid) :
  b ∈ aligned_boids ->
  Forall (fun n => is_nan (distance n) = false)
         (all_possible_neighbors aligned_flock b).
Proof.
  assert (Hall : forallb
            (fun b => forallb (fun n => negb (is_nan (distance n)))
                        (all_possible_neighbors aligned_flock b))
            aligned_boids = true)
    by (vm_compute; reflexivity).
  rewrite forallb_forall in Hall. intros Hb.
  apply list_elem_of_In, Hall in Hb. rewrite forallb_forall in Hb.
  apply Forall_forall. intros n Hn. apply list_elem_of_In, Hb in Hn.
  by apply negb_true_iff in Hn.
Qed.

Lemma aligned_previous_direction (idx : nat) :
  (idx < BOID_COUNT)%nat ->
  direction (array_boids_previous aligned_flock !!! idx) = f_int_vec 0 0 1.
Proof.
  intros Hidx. cbn [aligned_flock array_boids_previous].
  pose proof aligned_boids_facts as Hall. rewrite Forall_lookup in Hall.
  apply (Hall idx). by apply list_lookup_lookup_total_lt.
Qed.

(** Each branch of the update ends by normalizing the direction, and the
    position integration leaves the direction as it is. *)
Lemma update_boid_direction_normalized `{QSort} (st : flock) (b : boid) :
  exists v : vector_3d,
    direction (update_boid st b) = geometry_normalize_vector v.
Proof.
  unfold update_boid. rewrite boid_physics_update_position_direction.
  destruct (boid_behavior_environment_trigger b); eexists; reflexivity.
Qed.

Section AlignedFlock.

Context `{Q : QSort}.

Lemma update_boid_aligned (b : boid) :
  b ∈ aligned_boids -> direction (update_boid aligned_flock b) = nan_vector.
Proof.
  intros Hb. pose proof aligned_boids_facts as Hall.
  rewrite Forall_forall in Hall. destruct (Hall b Hb) as [Htrig Hdir].
  unfold update_boid. rewrite Htrig, boid_physics_update_position_direction.
  unfold boid_behavior_handle_neighbors.
  apply handle_neighbors_cohere_nan, handle_neighbors_separate_nan.
  rewrite handle_neighbors_align_direction, alignment_target_aligned, Hdir.
  - apply blend_aligned_nan.
  - done.
  - intros i Hi. apply aligned_previous_direction.
    apply boid_behavior_find_neighbors_index; [by apply aligned_flock_no_nan | done].
Qed.

Lemma boids_update_current (st : flock) :
  array_boids_current (boids_update st) =
  array_boids_current (update_boids_current st).
Proof.
  unfold boids_update, update_boids_previous.
  by destruct (update_boids_previous_prefix (update_boids_current st) BOID_COUNT)
    as (? & _).
Qed.

(** C1, at the failing input.  In a flock whose agents all head the same way
    the alignment target is the zero vector, its normalization divides 0 by
    0, and after one full update pass every direction is three NaNs: no
    agent has a direction of magnitude 1, whatever the library's [qsort]. *)
Theorem boids_update_aligned_flock_not_unit :
  length (array_boids_current (boids_update aligned_flock)) = BOID_COUNT /\
  Forall (fun b => direction b = nan_vector /\
                   unit_within_tolerance (direction b) = false)
         (array_boids_current (boids_update aligned_flock)).
Proof.
  rewrite boids_update_current. split.
  - by rewrite update_boids_current_length.
  - apply Forall_lookup. intros i x Hx.
    assert (Hi : (i < BOID_COUNT)%nat).
    { apply lookup_lt_Some in Hx. by rewrite update_boids_current_length in Hx. }
    rewrite update_boids_current_lookup in Hx by done.
    apply fmap_Some in Hx as (b & Hb & ->).
    rewrite update_boid_aligned; [done|].
    apply list_elem_of_lookup. by exists i.
Qed.

(** With its direction the position is lost too: the integration adds
    [NaN * BOID_SPEED] to every coordinate. *)
Lemma fadd_nan_speed (x : GLfloat) : (x ⊕ S754_nan ⊗ BOID_SPEED)%flt = S754_nan.
Proof. by destruct x. Qed.

Lemma update_boid_aligned_position (b : boid) :
  b ∈ aligned_boids -> position (update_boid aligned_flock b) = nan_vector.
Proof.
  intros Hb. pose proof (update_boid_aligned b Hb) as Hdir.
  unfold update_boid in *.
  set (b' := if boid_behavior_environment_trigger b then _ else _) in *.
  rewrite boid_physics_update_position_direction in Hdir.
  unfold boid_physics_update_position, set_position. cbn [position].
  rewrite Hdir. cbn [nan_vector c0 c1 c2]. by rewrite !fadd_nan_speed.
Qed.

Lemma boids_update_aligned_flock_position (i : nat) :
  (i < BOID_COUNT)%nat ->
  position (array_boids_current (boids_update aligned_flock) !!! i) = nan_vector.
Proof.
  intros Hi. rewrite boids_update_current.
  assert (Hb : array_boids_current aligned_flock !! i =
               Some (array_boids_current aligned_flock !!! i))
    by (by apply list_lookup_lookup_total_lt).
  rewrite (list_lookup_total_correct _ i
             (update_boid aligned_flock (array_boids_current aligned_flock !!! i))).
  - apply update_boid_aligned_position, list_elem_of_lookup. by exists i.
  - by rewrite update_boids_current_lookup, Hb.
Qed.

End AlignedFlock.

(** The distance between two boids whose coordinates are NaN is NaN. *)
Lemma boid_physics_distance_of_boids_nan (a b : boid) :
  position a = nan_vector -> position b = nan_vector ->
  boid_physics_distance_of_boids a b = S754_nan.
Proof.
  intros Ha Hb. unfold boid_physics_distance_of_boids. by rewrite Ha, Hb.
Qed.

(** C8, counterexample.  One update after the flock in which all agents
    head the same way, every coordinate is NaN; the distance between agents
    0 and 1 is NaN in both orders and the two calls do not compare equal. *)
Lemma boid_physics_distance_of_boids_nan_not_equal :
  ~ (SFeqb (boid_physics_distance_of_boids
              (array_boids_current (@boids_update qsort_stable aligned_flock) !!! 0%nat)
              (array_boids_current (@boids_update qsort_stable aligned_flock) !!! 1%nat))
           (boid_physics_distance_of_boids
              (array_boids_current (@boids_update qsort_stable aligned_flock) !!! 1%nat)
              (array_boids_current (@boids_update qsort_stable aligned_flock) !!! 0%nat))
       = true).
Proof.
  rewrite !boid_physics_distance_of_boids_nan;
    try (apply boids_update_aligned_flock_position; unfold BOID_COUNT; lia).
  discriminate.
Qed.

(** The unit directions the flock started from. *)
Example aligned_flock_unit_before :
  forallb (fun b => unit_within_tolerance (direction b))
          (array_boids_current aligned_flock) = true.
Proof. reflexivity. Qed.

(** ** Rounding: where the result of an operation on normal numbers lies *)

(** The number of binary digits of a positive integer. *)
Lemma digits2_pos_bounds (m : positive) :
  2 ^ (Zpos (digits2_pos m) - 1) <= Zpos m < 2 ^ Zpos (digits2_pos m).
Proof.
  induction m as [m IH|m IH|]; cbn [digits2_pos].
  - rewrite Pos2Z.inj_succ, Z.pow_succ_r by lia.
    replace (Z.succ (Zpos (digits2_pos m)) - 1) with (Z.succ (Zpos (digits2_pos m) - 1)) by lia.
    rewrite Z.pow_succ_r by lia. lia.
  - rewrite Pos2Z.inj_succ, Z.pow_succ_r by lia.
    replace (Z.succ (Zpos (digits2_pos m)) - 1) with (Z.succ (Zpos (digits2_pos m) - 1)) by lia.
    rewrite Z.pow_succ_r by lia. lia.
  - cbn. lia.
Qed.

Lemma Zdigits2_bounds (m : Z) :
  0 < m -> 2 ^ (Zdigits2 m - 1) <= m < 2 ^ Zdigits2 m.
Proof. destruct m; try lia. intros _. apply digits2_pos_bounds. Qed.

Lemma Zdigits2_pos (m : Z) : 0 < m -> 0 < Zdigits2 m.
Proof. destruct m; cbn; lia. Qed.

Lemma Zdigits2_unique (m d : Z) :
  2 ^ (d - 1) <= m < 2 ^ d -> 0 < m -> Zdigits2 m = d.
Proof.
  intros Hd Hm. pose proof (Zdigits2_bounds m Hm) as Hb.
  pose proof (Zdigits2_pos m Hm) as Hp.
  assert (0 < d).
  { destruct (Z_lt_le_dec 0 d) as [|Hle]; [done|].
    assert (2 ^ d <= 2 ^ 0) by (apply Z.pow_le_mono_r; lia). cbn in *. lia. }
  destruct (Z.lt_trichotomy (Zdigits2 m) d) as [Hlt | [Heq | Hgt]]; [|done|].
  - assert (2 ^ Zdigits2 m <= 2 ^ (d - 1)) by (apply Z.pow_le_mono_r; lia). lia.
  - assert (2 ^ d <= 2 ^ (Zdigits2 m - 1)) by (apply Z.pow_le_mono_r; lia). lia.
Qed.

(** Shifting a mantissa right by [n] bits divides it by [2^n]. *)
Lemma shr_1_m (mrs : shr_record) :
  0 <= shr_m mrs -> shr_m (shr_1 mrs) = shr_m mrs / 2.
Proof.
  destruct mrs as [m r s]. cbn [shr_m]. intros Hm.
  destruct m as [|[p|p|]|p]; cbn [shr_1 shr_m]; try lia; try reflexivity.
  - apply Z.div_unique with 1; lia.
  - apply Z.div_unique with 0; lia.
Qed.

Lemma pow2_xI (p : positive) : 2 ^ Zpos p~1 = 2 * 2 ^ Zpos p * 2 ^ Zpos p.
Proof.
  replace (Zpos p~1) with (1 + Zpos p + Zpos p) by lia.
  rewrite !Z.pow_add_r by lia. reflexivity.
Qed.

Lemma pow2_xO (p : positive) : 2 ^ Zpos p~0 = 2 ^ Zpos p * 2 ^ Zpos p.
Proof.
  replace (Zpos p~0) with (Zpos p + Zpos p) by lia.
  rewrite !Z.pow_add_r by lia. reflexivity.
Qed.

Lemma iter_shr_1_m (p : positive) (mrs : shr_record) :
  0 <= shr_m mrs ->
  shr_m (SpecFloat.iter_pos shr_1 p mrs) = shr_m mrs / 2 ^ Zpos p.
Proof.
  revert mrs. induction p as [p IH|p IH|]; intros mrs Hm; cbn [SpecFloat.iter_pos];
    try (assert (Hpow : 0 < 2 ^ Zpos p) by (apply Z.pow_pos_nonneg; lia)).
  - assert (H1 : 0 <= shr_m (shr_1 mrs)) by (rewrite shr_1_m by done; apply Z.div_pos; lia).
    assert (H2 : 0 <= shr_m (SpecFloat.iter_pos shr_1 p (shr_1 mrs)))
      by (rewrite IH by done; apply Z.div_pos; lia).
    rewrite IH, IH, shr_1_m by done.
    rewrite !Z.div_div by lia. rewrite pow2_xI. f_equal. lia.
  - assert (H2 : 0 <= shr_m (SpecFloat.iter_pos shr_1 p mrs))
      by (rewrite IH by done; apply Z.div_pos; lia).
    rewrite IH, IH by done.
    rewrite !Z.div_div by lia. by rewrite pow2_xO.
  - rewrite shr_1_m by done. reflexivity.
Qed.

Lemma shr_spec (mrs : shr_record) (e n : Z) :
  0 <= shr_m mrs ->
  shr_m (fst (shr mrs e n)) = shr_m mrs / 2 ^ Z.max 0 n /\
  snd (shr mrs e n) = e + Z.max 0 n.
Proof.
  intros Hm. destruct n as [|p|p]; cbn [shr fst snd Z.max Z.compare].
  - rewrite Z.div_1_r. lia.
  - rewrite iter_shr_1_m by done. split; [done | lia].
  - rewrite Z.div_1_r. cbn. lia.
Qed.

Lemma shr_record_of_loc_m (m : Z) (l : location) : shr_m (shr_record_of_loc m l) = m.
Proof. by destruct l as [|[]]. Qed.

Lemma round_nearest_even_bounds (m : Z) (l : location) :
  m <= round_nearest_even m l <= m + 1.
Proof. destruct l as [|[]]; cbn; try lia. destruct (Z.even m); lia. Qed.

Lemma pow2_pos (n : Z) : 0 <= n -> 0 < 2 ^ n.
Proof. intros. apply Z.pow_pos_nonneg; lia. Qed.

Lemma pow2_split (a b : Z) : 0 <= a -> 0 <= b -> 2 ^ (a + b) = 2 ^ a * 2 ^ b.
Proof. intros. by rewrite Z.pow_add_r. Qed.

(** Dropping the [n] low bits of a number of [d] bits leaves [d - n] bits. *)
Lemma div_pow2_bounds (m d n : Z) :
  0 <= n -> n < d -> 2 ^ (d - 1) <= m < 2 ^ d ->
  2 ^ (d - n - 1) <= m / 2 ^ n < 2 ^ (d - n).
Proof.
  intros Hn Hd [Hlo Hhi]. pose proof (pow2_pos n Hn) as Hp.
  split.
  - apply Z.div_le_lower_bound; [done|].
    rewrite <- pow2_split by lia. by replace (n + (d - n - 1)) with (d - 1) by lia.
  - apply Z.div_lt_upper_bound; [done|].
    rewrite <- pow2_split by lia. by replace (n + (d - n)) with d by lia.
Qed.

(** The integer square root of a number of [D] bits has [(D + 1) / 2] bits. *)
Lemma sqrt_pow2_bounds (m D : Z) :
  0 < D -> 2 ^ (D - 1) <= m < 2 ^ D ->
  2 ^ ((D + 1) / 2 - 1) <= Z.sqrt m < 2 ^ ((D + 1) / 2).
Proof.
  intros HD [Hlo Hhi]. set (h := (D + 1) / 2).
  assert (Hh : D <= 2 * h <= D + 1) by (subst h; Z.div_mod_to_equations; lia).
  pose proof (pow2_pos (D - 1) ltac:(lia)) as HpD.
  pose proof (Z.sqrt_spec m ltac:(lia)) as Hs. cbn zeta in Hs.
  pose proof (Z.sqrt_nonneg m) as Hs0.
  pose proof (pow2_pos (h - 1) ltac:(lia)) as Hph.
  assert (P1 : 2 ^ D <= 2 ^ h * 2 ^ h).
  { rewrite <- pow2_split by lia. apply Z.pow_le_mono_r; lia. }
  assert (P2 : 2 ^ (h - 1) * 2 ^ (h - 1) <= 2 ^ (D - 1)).
  { rewrite <- pow2_split by lia. apply Z.pow_le_mono_r; lia. }
  pose proof (pow2_pos h ltac:(lia)) as Hph'.
  split.
  - destruct (Z_lt_le_dec (Z.sqrt m) (2 ^ (h - 1))) as [Hlt | Hge]; [|done].
    exfalso. unfold Z.succ in Hs. nia.
  - destruct (Z_lt_le_dec (Z.sqrt m) (2 ^ h)) as [Hlt | Hge]; [done|].
    exfalso. nia.
Qed.

Section Rounding.

Variables prec emax : Z.
Hypothesis prec_pos : 0 < prec.

Local Abbreviation emin := (SpecFloat.emin prec emax).

Lemma fexp_normal (E : Z) : emin + prec <= E -> fexp prec emax E = E - prec.
Proof. intros H. unfold fexp. lia. Qed.

Lemma shr_fexp_spec (m e : Z) (l : location) :
  0 < m -> emin + prec <= e + Zdigits2 m -> prec <= Zdigits2 m ->
  shr_m (fst (shr_fexp prec emax m e l)) = m / 2 ^ (Zdigits2 m - prec) /\
  snd (shr_fexp prec emax m e l) = e + Zdigits2 m - prec.
Proof.
  intros Hm HE Hd. unfold shr_fexp.
  rewrite (Z.add_comm (Zdigits2 m) e), fexp_normal by done.
  destruct (shr_spec (shr_record_of_loc m l) e (e + Zdigits2 m - prec - e)) as [H1 H2].
  { rewrite shr_record_of_loc_m. lia. }
  rewrite H1, H2, shr_record_of_loc_m.
  replace (Z.max 0 (e + Zdigits2 m - prec - e)) with (Zdigits2 m - prec) by lia.
  split; [done | lia].
Qed.

(** Rounding a positive mantissa of at least [prec] bits whose value is not
    below the normal range: the result is a normal number in the same binade
    or at the bottom of the next, or infinity when that exponent is too
    large. *)
Lemma binary_round_aux_normal_or_overflow (s : bool) (mx ex : Z) (lx : location) :
  0 < mx -> prec <= Zdigits2 mx ->
  emin + prec <= ex + Zdigits2 mx ->
  exists (m' : positive) (e' : Z),
    Zdigits2 (Zpos m') = prec /\
    ex + Zdigits2 mx <= e' + prec <= ex + Zdigits2 mx + 1 /\
    binary_round_aux prec emax s mx ex lx =
      if e' <=? emax - prec then S754_finite s m' e' else S754_infinity s.
Proof.
  intros Hm Hd Hlo. unfold binary_round_aux.
  destruct (shr_fexp_spec mx ex lx Hm Hlo Hd) as [Hm1 He1].
  destruct (shr_fexp prec emax mx ex lx) as [mrs1 e1]. cbn [fst snd] in Hm1, He1.
  pose proof (Zdigits2_bounds mx Hm) as Hb.
  assert (Hb1 : 2 ^ (prec - 1) <= shr_m mrs1 < 2 ^ prec).
  { rewrite Hm1.
    pose proof (div_pow2_bounds mx (Zdigits2 mx) (Zdigits2 mx - prec)
                  ltac:(lia) ltac:(lia) Hb) as Hdiv.
    by replace (Zdigits2 mx - (Zdigits2 mx - prec) - 1) with (prec - 1) in Hdiv by lia;
       replace (Zdigits2 mx - (Zdigits2 mx - prec)) with prec in Hdiv by lia. }
  pose proof (round_nearest_even_bounds (shr_m mrs1) (loc_of_shr_record mrs1)) as Hr.
  set (m2 := round_nearest_even (shr_m mrs1) (loc_of_shr_record mrs1)) in *.
  pose proof (pow2_pos (prec - 1) ltac:(lia)) as Hpp.
  assert (Hm2 : 0 < m2) by lia.
  assert (Hpow : 2 ^ prec = 2 * 2 ^ (prec - 1)).
  { replace prec with (1 + (prec - 1)) at 1 by lia. by rewrite pow2_split by lia. }
  destruct (Z_lt_le_dec m2 (2 ^ prec)) as [Hlt | Hge].
  - assert (Hd2 : Zdigits2 m2 = prec) by (apply Zdigits2_unique; lia).
    destruct (shr_fexp_spec m2 e1 loc_Exact Hm2) as [Hm3 He3]; [lia | lia |].
    destruct (shr_fexp prec emax m2 e1 loc_Exact) as [mrs2 e2]. cbn [fst snd] in Hm3, He3.
    rewrite Hd2, Z.sub_diag, Z.div_1_r in Hm3. rewrite Hm3.
    destruct m2 as [|m'|]; try lia.
    exists m', e2. repeat split; [done | lia | lia].
  - assert (Heq : m2 = 2 ^ prec) by lia.
    assert (Hd2 : Zdigits2 m2 = prec + 1).
    { apply Zdigits2_unique; [|done]. replace (prec + 1 - 1) with prec by lia.
      rewrite (pow2_split prec 1) by lia. change (2 ^ 1) with 2. lia. }
    destruct (shr_fexp_spec m2 e1 loc_Exact Hm2) as [Hm3 He3]; [lia | lia |].
    destruct (shr_fexp prec emax m2 e1 loc_Exact) as [mrs2 e2]. cbn [fst snd] in Hm3, He3.
    replace (Zdigits2 m2 - prec) with 1 in Hm3 by lia. change (2 ^ 1) with 2 in Hm3.
    assert (Hm3' : shr_m mrs2 = 2 ^ (prec - 1)).
    { rewrite Hm3, Heq, Hpow. rewrite Z.mul_comm. by apply Z.div_mul. }
    rewrite Hm3'. destruct (2 ^ (prec - 1)) as [|m'|] eqn:Hm'; try lia.
    exists m', e2. repeat split; [|lia|lia].
    apply Zdigits2_unique; lia.
Qed.

(** The same within the normal range: no overflow. *)
Lemma binary_round_aux_normal (s : bool) (mx ex : Z) (lx : location) :
  0 < mx -> prec <= Zdigits2 mx ->
  emin + prec <= ex + Zdigits2 mx -> ex + Zdigits2 mx + 1 <= emax ->
  exists (m' : positive) (e' : Z),
    binary_round_aux prec emax s mx ex lx = S754_finite s m' e' /\
    Zdigits2 (Zpos m') = prec /\
    ex + Zdigits2 mx <= e' + prec <= ex + Zdigits2 mx + 1.
Proof.
  intros Hm Hd Hlo Hhi.
  destruct (binary_round_aux_normal_or_overflow s mx ex lx Hm Hd Hlo)
    as (m' & e' & H1 & H2 & H3).
  exists m', e'. split; [|done].
  rewrite H3. by replace (e' <=? emax - prec) with true by (symmetry; apply Z.leb_le; lia).
Qed.

(** Whatever the range, rounding a non-negative mantissa gives a zero, a
    finite number or an infinity of the requested sign, never a NaN. *)
Lemma binary_round_aux_cases (s : bool) (mx ex : Z) (lx : location) :
  0 <= mx ->
  binary_round_aux prec emax s mx ex lx = S754_zero s \/
  binary_round_aux prec emax s mx ex lx = S754_infinity s \/
  exists (m' : positive) (e' : Z),
    binary_round_aux prec emax s mx ex lx = S754_finite s m' e'.
Proof.
  intros Hm. unfold binary_round_aux, shr_fexp.
  destruct (shr_spec (shr_record_of_loc mx lx) ex
              (fexp prec emax (Zdigits2 mx + ex) - ex)) as [H1 _];
    [by rewrite shr_record_of_loc_m|].
  destruct (shr (shr_record_of_loc mx lx) ex _) as [mrs1 e1]. cbn [fst] in H1.
  rewrite shr_record_of_loc_m in H1.
  pose proof (round_nearest_even_bounds (shr_m mrs1) (loc_of_shr_record mrs1)) as Hr.
  set (m2 := round_nearest_even (shr_m mrs1) (loc_of_shr_record mrs1)) in *.
  assert (Hm1 : 0 <= shr_m mrs1).
  { rewrite H1. apply Z.div_pos; [done|]. apply pow2_pos. lia. }
  destruct (shr_spec (shr_record_of_loc m2 loc_Exact) e1
              (fexp prec emax (Zdigits2 m2 + e1) - e1)) as [H2 _];
    [rewrite shr_record_of_loc_m; lia|].
  destruct (shr (shr_record_of_loc m2 loc_Exact) e1 _) as [mrs2 e2]. cbn [fst] in H2.
  rewrite shr_record_of_loc_m in H2.
  assert (Hm2 : 0 <= shr_m mrs2).
  { rewrite H2. apply Z.div_pos; [lia|]. apply pow2_pos. lia. }
  destruct (shr_m mrs2) as [|m'|m']; [by left | | lia].
  destruct (e2 <=? emax - prec); [right; right; by exists m', e2 | right; by left].
Qed.

Local Abbreviation normal_pos := (normal_pos prec).

Lemma pos_iter_xO (m d : positive) : Zpos (Pos.iter xO m d) = Zpos m * 2 ^ Zpos d.
Proof.
  apply (Pos.iter_ind _ xO m (fun p a => Zpos a = Zpos m * 2 ^ Zpos p)).
  - change (2 ^ 1) with 2. lia.
  - intros p a Ha. rewrite Pos2Z.inj_succ, Z.pow_succ_r by lia. lia.
Qed.

Lemma mul_pow2_digits (m k : Z) :
  0 < m -> 0 <= k -> Zdigits2 (m * 2 ^ k) = Zdigits2 m + k.
Proof.
  intros Hm Hk. pose proof (Zdigits2_bounds m Hm) as [Hlo Hhi].
  pose proof (Zdigits2_pos m Hm) as Hd. pose proof (pow2_pos k Hk) as Hp.
  apply Zdigits2_unique; [|nia].
  replace (Zdigits2 m + k - 1) with (Zdigits2 m - 1 + k) by lia.
  rewrite !pow2_split by lia. nia.
Qed.

Lemma shl_align_spec (m : positive) (e e' : Z) :
  let '(mz, ez) := shl_align m e e' in
  ez = Z.min e e' /\ Zpos mz = Zpos m * 2 ^ (e - ez).
Proof.
  unfold shl_align. destruct (e' - e) as [|d|d] eqn:Hd.
  - split; [lia|]. rewrite Z.sub_diag. lia.
  - split; [lia|]. rewrite Z.sub_diag. lia.
  - split; [lia|]. rewrite pos_iter_xO. f_equal. f_equal. lia.
Qed.

Lemma binary_round_normal (s : bool) (m : positive) (e : Z) :
  emin + prec <= e + Zdigits2 (Zpos m) -> e + Zdigits2 (Zpos m) + 1 <= emax ->
  exists (m' : positive) (e' : Z),
    binary_round prec emax s m e = S754_finite s m' e' /\
    Zdigits2 (Zpos m') = prec /\
    e + Zdigits2 (Zpos m) <= e' + prec <= e + Zdigits2 (Zpos m) + 1.
Proof.
  intros Hlo Hhi. unfold binary_round.
  change (Zpos (digits2_pos m)) with (Zdigits2 (Zpos m)).
  rewrite (Z.add_comm (Zdigits2 (Zpos m)) e), fexp_normal by done.
  pose proof (shl_align_spec m e (e + Zdigits2 (Zpos m) - prec)) as Hal.
  destruct (shl_align m e _) as [mz ez]. destruct Hal as [Hez Hmz].
  assert (Hdz : Zdigits2 (Zpos mz) = Zdigits2 (Zpos m) + (e - ez))
    by (rewrite Hmz; apply mul_pow2_digits; lia).
  destruct (binary_round_aux_normal s (Zpos mz) ez loc_Exact) as (m' & e' & H1 & H2 & H3);
    try lia.
  exists m', e'. repeat split; [done | done | lia | lia].
Qed.

Lemma Zdigits2_between (m a : Z) :
  0 < m -> 2 ^ (a - 1) <= m < 2 ^ (a + 1) ->
  Zdigits2 m = a \/ Zdigits2 m = a + 1.
Proof.
  intros Hm [Hlo Hhi].
  destruct (Z_lt_le_dec m (2 ^ a)) as [Hlt | Hge].
  - left. by apply Zdigits2_unique.
  - right. apply Zdigits2_unique; [|done]. by replace (a + 1 - 1) with a by lia.
Qed.

Lemma SFmul_normal (E1 E2 : Z) (x y : spec_float) :
  normal_pos E1 x -> normal_pos E2 y ->
  emin + prec <= E1 + E2 - 1 -> E1 + E2 + 1 <= emax ->
  exists E, E1 + E2 - 1 <= E <= E1 + E2 + 1 /\ normal_pos E (SFmul prec emax x y).
Proof.
  intros (mx & ex & -> & Hdx & HEx) (my & ey & -> & Hdy & HEy) Hlo Hhi.
  cbn [SFmul xorb].
  pose proof (Zdigits2_bounds (Zpos mx) ltac:(lia)) as Hbx.
  pose proof (Zdigits2_bounds (Zpos my) ltac:(lia)) as Hby.
  rewrite Hdx in Hbx. rewrite Hdy in Hby.
  pose proof (pow2_pos (prec - 1) ltac:(lia)) as Hpp.
  assert (Hd : Zdigits2 (Zpos (mx * my)) = 2 * prec - 1 \/
               Zdigits2 (Zpos (mx * my)) = 2 * prec - 1 + 1).
  { apply Zdigits2_between; [lia|]. rewrite Pos2Z.inj_mul.
    replace (2 * prec - 1 - 1) with ((prec - 1) + (prec - 1)) by lia.
    replace (2 * prec - 1 + 1) with (prec + prec) by lia.
    rewrite !pow2_split by lia. nia. }
  destruct (binary_round_aux_normal false (Zpos (mx * my)) (ex + ey) loc_Exact)
    as (m' & e' & H1 & H2 & H3); try lia.
  exists (e' + prec). split; [lia|]. by exists m', e'.
Qed.

Lemma SFdiv_normal (E1 E2 : Z) (x y : spec_float) :
  normal_pos E1 x -> normal_pos E2 y ->
  emin + prec <= E1 - E2 -> E1 - E2 + 2 <= emax ->
  exists E, E1 - E2 <= E <= E1 - E2 + 2 /\ normal_pos E (SFdiv prec emax x y).
Proof.
  intros (mx & ex & -> & Hdx & HEx) (my & ey & -> & Hdy & HEy) Hlo Hhi.
  cbn [SFdiv xorb]. unfold SFdiv_core_binary. rewrite Hdx, Hdy.
  replace (prec + ex - (prec + ey)) with (ex - ey) by lia.
  rewrite fexp_normal by lia.
  replace (Z.min (ex - ey - prec) (ex - ey)) with (ex - ey - prec) by lia.
  replace (ex - ey - (ex - ey - prec)) with prec by lia.
  pose proof (Zdigits2_bounds (Zpos mx) ltac:(lia)) as Hbx.
  pose proof (Zdigits2_bounds (Zpos my) ltac:(lia)) as Hby.
  rewrite Hdx in Hbx. rewrite Hdy in Hby.
  pose proof (pow2_pos (prec - 1) ltac:(lia)) as Hpp.
  assert (Hpow : 2 ^ prec = 2 * 2 ^ (prec - 1)).
  { replace prec with (1 + (prec - 1)) at 1 by lia. by rewrite pow2_split by lia. }
  assert (Hsh : match prec with
                | 0 => Zpos mx
                | Zpos _ => Z.shiftl (Zpos mx) prec
                | Zneg _ => 0
                end = Zpos mx * 2 ^ prec).
  { destruct prec as [|p|p] eqn:Hp; try lia. rewrite Z.shiftl_mul_pow2; lia. }
  rewrite Hsh.
  pose proof (Z.div_eucl_eq (Zpos mx * 2 ^ prec) (Zpos my) ltac:(lia)) as Hdiv.
  pose proof (Z.mod_pos_bound (Zpos mx * 2 ^ prec) (Zpos my) ltac:(lia)) as Hmod.
  unfold Z.modulo in Hmod.
  destruct (Z.div_eucl (Zpos mx * 2 ^ prec) (Zpos my)) as [q r].
  assert (Hq : 2 ^ (prec - 1) <= q < 2 ^ (prec + 1)).
  { rewrite (pow2_split prec 1) by lia. change (2 ^ 1) with 2. nia. }
  assert (Hq0 : 0 < q) by lia.
  destruct (Zdigits2_between q prec Hq0 Hq) as [Hd | Hd];
    (destruct (binary_round_aux_normal false q (ex - ey - prec) (new_location (Zpos my) r))
      as (m' & e' & H1 & H2 & H3); try lia;
     exists (e' + prec); split; [lia | by exists m', e']).
Qed.

Lemma SFadd_normal (E1 E2 : Z) (x y : spec_float) :
  normal_pos E1 x -> normal_pos E2 y ->
  emin + prec <= Z.max E1 E2 -> Z.max E1 E2 + 2 <= emax ->
  exists E, Z.max E1 E2 <= E <= Z.max E1 E2 + 2 /\ normal_pos E (SFadd prec emax x y).
Proof.
  intros (mx & ex & -> & Hdx & HEx) (my & ey & -> & Hdy & HEy) Hlo Hhi.
  cbn [SFadd cond_Zopp].
  pose proof (shl_align_spec mx ex (Z.min ex ey)) as Hax.
  pose proof (shl_align_spec my ey (Z.min ex ey)) as Hay.
  destruct (shl_align mx ex (Z.min ex ey)) as [ax ex'].
  destruct (shl_align my ey (Z.min ex ey)) as [ay ey'].
  destruct Hax as [Hex' Hax]. destruct Hay as [Hey' Hay]. cbn [fst].
  change (Zpos ax + Zpos ay) with (Zpos (ax + ay)). cbn [binary_normalize].
  pose proof (Zdigits2_bounds (Zpos mx) ltac:(lia)) as Hbx.
  pose proof (Zdigits2_bounds (Zpos my) ltac:(lia)) as Hby.
  rewrite Hdx in Hbx. rewrite Hdy in Hby.
  set (ez := Z.min ex ey) in *.
  assert (Hd : Zdigits2 (Zpos (ax + ay)) = Z.max E1 E2 - ez \/
               Zdigits2 (Zpos (ax + ay)) = Z.max E1 E2 - ez + 1).
  { apply Zdigits2_between; [lia|]. rewrite Pos2Z.inj_add, Hax, Hay.
    replace (ex - ex') with (ex - ez) by lia. replace (ey - ey') with (ey - ez) by lia.
    pose proof (pow2_pos (ex - ez) ltac:(lia)) as Hpx.
    pose proof (pow2_pos (ey - ez) ltac:(lia)) as Hpy.
    pose proof (pow2_pos (prec - 1) ltac:(lia)) as Hpp.
    assert (Hpow : 2 ^ prec = 2 * 2 ^ (prec - 1)).
    { replace prec with (1 + (prec - 1)) at 1 by lia. by rewrite pow2_split by lia. }
    destruct (Z.max_spec E1 E2) as [[Hlt ->] | [Hle ->]].
    - replace (E2 - ez - 1) with ((prec - 1) + (ey - ez)) by lia.
      replace (E2 - ez + 1) with (1 + prec + (ey - ez)) by lia.
      rewrite !pow2_split by lia. change (2 ^ 1) with 2.
      assert (2 ^ (ex - ez) <= 2 ^ (ey - ez)) by (apply Z.pow_le_mono_r; lia).
      nia.
    - replace (E1 - ez - 1) with ((prec - 1) + (ex - ez)) by lia.
      replace (E1 - ez + 1) with (1 + prec + (ex - ez)) by lia.
      rewrite !pow2_split by lia. change (2 ^ 1) with 2.
      assert (2 ^ (ey - ez) <= 2 ^ (ex - ez)) by (apply Z.pow_le_mono_r; lia).
      nia. }
  destruct (binary_round_normal false (ax + ay) ez) as (m' & e' & H1 & H2 & H3);
    try lia.
  exists (e' + prec). split; [lia|]. by exists m', e'.
Qed.

Lemma SFsqrt_normal (E : Z) (x : spec_float) :
  normal_pos E x ->
  emin + prec <= (E + 1) / 2 -> (E + 1) / 2 + 1 <= emax ->
  exists E', (E + 1) / 2 <= E' <= (E + 1) / 2 + 1 /\
             normal_pos E' (SFsqrt prec emax x).
Proof.
  intros (m & e & -> & Hd & HE) Hlo Hhi.
  cbn [SFsqrt]. unfold SFsqrt_core_binary. rewrite Hd, !Z.div2_div.
  replace (prec + e + 1) with (E + 1) by lia.
  rewrite fexp_normal by done.
  set (e' := Z.min ((E + 1) / 2 - prec) (e / 2)).
  assert (He1 : e' <= (E + 1) / 2 - prec) by lia.
  assert (He2 : 2 * e' <= e) by (subst e'; Z.div_mod_to_equations; lia).
  set (sh := e - 2 * e').
  assert (Hsh : match sh with
                | 0 => Zpos m
                | Zpos _ => Z.shiftl (Zpos m) sh
                | Zneg _ => 0
                end = Zpos m * 2 ^ sh).
  { destruct sh as [|p|p] eqn:Hp; try lia. rewrite Z.shiftl_mul_pow2; lia. }
  rewrite Hsh.
  pose proof (Z.sqrtrem_sqrt (Zpos m * 2 ^ sh)) as Hq.
  destruct (Z.sqrtrem (Zpos m * 2 ^ sh)) as [q r]. cbn [fst] in Hq.
  pose proof (mul_pow2_digits (Zpos m) sh ltac:(lia) ltac:(lia)) as HD.
  pose proof (pow2_pos sh ltac:(lia)) as Hps.
  pose proof (Zdigits2_bounds (Zpos m * 2 ^ sh) ltac:(nia)) as Hb.
  rewrite HD, Hd in Hb.
  pose proof (sqrt_pow2_bounds _ (prec + sh) ltac:(lia) Hb) as Hsq.
  rewrite <- Hq in Hsq.
  assert (Hh : (prec + sh + 1) / 2 = (E + 1) / 2 - e')
    by (subst sh; Z.div_mod_to_equations; lia).
  rewrite Hh in Hsq.
  pose proof (pow2_pos ((E + 1) / 2 - e' - 1) ltac:(lia)) as Hpq.
  assert (Hdq : Zdigits2 q = (E + 1) / 2 - e') by (apply Zdigits2_unique; lia).
  destruct (binary_round_aux_normal false q e'
              (if r =? 0 then loc_Exact else loc_Inexact (if r <=? q then Lt else Gt)))
    as (m' & e'' & H1 & H2 & H3); try lia.
  exists (e'' + prec). split; [lia|]. by exists m', e''.
Qed.

(** Adding a normal number to any positive finite number: the sum is at
    least as large as the normal number, or overflows to infinity. *)
Lemma SFadd_finite_normal (m : positive) (e E : Z) (y : spec_float) :
  normal_pos E y -> emin + prec <= E ->
  SFadd prec emax (S754_finite false m e) y = S754_infinity false \/
  exists E', E <= E' <= emax /\
             normal_pos E' (SFadd prec emax (S754_finite false m e) y).
Proof.
  intros (my & ey & -> & Hdy & HEy) Hlo.
  cbn [SFadd cond_Zopp].
  pose proof (shl_align_spec m e (Z.min e ey)) as Hax.
  pose proof (shl_align_spec my ey (Z.min e ey)) as Hay.
  destruct (shl_align m e (Z.min e ey)) as [ax ex'].
  destruct (shl_align my ey (Z.min e ey)) as [ay ey'].
  destruct Hax as [Hex' Hax]. destruct Hay as [Hey' Hay]. cbn [fst].
  change (Zpos ax + Zpos ay) with (Zpos (ax + ay)). cbn [binary_normalize].
  set (ez := Z.min e ey) in *.
  pose proof (Zdigits2_bounds (Zpos my) ltac:(lia)) as Hby. rewrite Hdy in Hby.
  pose proof (Zdigits2_bounds (Zpos (ax + ay)) ltac:(lia)) as HbS.
  pose proof (Zdigits2_pos (Zpos (ax + ay)) ltac:(lia)) as HdS.
  assert (HD : prec + (ey - ez) <= Zdigits2 (Zpos (ax + ay))).
  { assert (Hlow : 2 ^ (prec - 1 + (ey - ez)) <= Zpos ay).
    { rewrite Hay, pow2_split by lia. replace (ey - ey') with (ey - ez) by lia.
      pose proof (pow2_pos (ey - ez) ltac:(lia)). nia. }
    assert (Hlt : 2 ^ (prec - 1 + (ey - ez)) < 2 ^ Zdigits2 (Zpos (ax + ay))) by lia.
    apply Z.pow_lt_mono_r_iff in Hlt; lia. }
  unfold binary_round.
  change (Zpos (digits2_pos (ax + ay))) with (Zdigits2 (Zpos (ax + ay))).
  rewrite (Z.add_comm (Zdigits2 (Zpos (ax + ay))) ez), fexp_normal by lia.
  pose proof (shl_align_spec (ax + ay) ez (ez + Zdigits2 (Zpos (ax + ay)) - prec)) as Hal.
  destruct (shl_align (ax + ay) ez _) as [mz ez']. destruct Hal as [Hez Hmz].
  assert (Hez' : ez' = ez) by lia.
  replace (ez - ez') with 0 in Hmz by lia. change (2 ^ 0) with 1 in Hmz.
  rewrite Z.mul_1_r in Hmz. rewrite Hmz, Hez'.
  destruct (binary_round_aux_normal_or_overflow false (Zpos (ax + ay)) ez loc_Exact)
    as (m' & e' & H1 & H2 & H3); try lia.
  rewrite H3. destruct (e' <=? emax - prec) eqn:Hle; [right | by left].
  apply Z.leb_le in Hle. exists (e' + prec). split; [lia|]. by exists m', e'.
Qed.

End Rounding.

(** ** Initial directions: the chain of operations at binary32 *)

Ltac range_tac :=
  unfold SpecFloat.emin, prec32, emax32, prec64, emax64 in *;
  try lia; try (Z.div_mod_to_equations; lia).

Lemma prec32_pos : 0 < prec32.
Proof. reflexivity. Qed.

Lemma prec64_pos : 0 < prec64.
Proof. reflexivity. Qed.

Lemma Zdigits2_le (m n : Z) : 0 < m -> 0 <= n -> m < 2 ^ n -> Zdigits2 m <= n.
Proof.
  intros Hm Hn Hlt. pose proof (Zdigits2_bounds m Hm) as [Hlo _].
  pose proof (Zdigits2_pos m Hm) as Hd.
  assert (H : 2 ^ (Zdigits2 m - 1) < 2 ^ n) by lia.
  apply Z.pow_lt_mono_r_iff in H; lia.
Qed.

Lemma normal_between_weaken (prec lo hi lo' hi' : Z) (x : spec_float) :
  lo' <= lo -> hi <= hi' ->
  normal_between prec lo hi x -> normal_between prec lo' hi' x.
Proof. intros Hlo Hhi (E & HE & Hn). exists E. split; [lia | done]. Qed.

Lemma zero_or_normal_weaken (prec lo hi lo' hi' : Z) (x : spec_float) :
  lo' <= lo -> hi <= hi' ->
  zero_or_normal prec lo hi x -> zero_or_normal prec lo' hi' x.
Proof.
  intros Hlo Hhi [-> | Hn]; [by left | right].
  by apply (normal_between_weaken prec lo hi).
Qed.

Lemma float_of_int_normal (n : Z) :
  0 < n < 2 ^ 31 -> normal_between prec32 1 32 (float_of_int n).
Proof.
  intros [Hn0 Hn]. destruct n as [|p|p]; try lia.
  unfold float_of_int. cbn [binary_normalize].
  pose proof (Zdigits2_pos (Zpos p) Hn0) as Hd0.
  pose proof (Zdigits2_le (Zpos p) 31 Hn0 ltac:(lia) Hn) as Hd1.
  destruct (binary_round_normal prec32 emax32 prec32_pos false p 0)
    as (m' & e' & H1 & H2 & H3); [range_tac | range_tac |].
  exists (e' + prec32). split; [lia|]. by exists m', e'.
Qed.

Lemma float_of_int_zero_or_normal (n : Z) :
  0 <= n < 2 ^ 31 -> zero_or_normal prec32 1 32 (float_of_int n).
Proof.
  intros [Hn0 Hn]. destruct (Z.eq_dec n 0) as [-> | Hne]; [by left | right].
  apply float_of_int_normal. lia.
Qed.

Lemma fdiv_draw (r m : GLfloat) :
  zero_or_normal prec32 1 32 r -> normal_between prec32 1 32 m ->
  zero_or_normal prec32 (-31) 33 (r ⊘ m)%flt.
Proof.
  intros [-> | (E1 & HE1 & Hn1)] (E2 & HE2 & Hn2).
  - left. by destruct Hn2 as (mm & e & -> & _).
  - right.
    destruct (SFdiv_normal prec32 emax32 prec32_pos E1 E2 _ _ Hn1 Hn2)
      as (E & HE & Hn); [range_tac | range_tac |].
    exists E. split; [lia | done].
Qed.

Lemma fmul_square (x : GLfloat) :
  zero_or_normal prec32 (-31) 33 x -> zero_or_normal prec32 (-63) 67 (x ⊗ x)%flt.
Proof.
  intros [-> | (E1 & HE1 & Hn1)]; [by left | right].
  destruct (SFmul_normal prec32 emax32 prec32_pos E1 E1 _ _ Hn1 Hn1)
    as (E & HE & Hn); [range_tac | range_tac |].
  exists E. split; [lia | done].
Qed.

Lemma fmul_square_normal (x : GLfloat) :
  normal_between prec32 (-31) 33 x -> normal_between prec32 (-63) 67 (x ⊗ x)%flt.
Proof.
  intros (E1 & HE1 & Hn1).
  destruct (SFmul_normal prec32 emax32 prec32_pos E1 E1 _ _ Hn1 Hn1)
    as (E & HE & Hn); [range_tac | range_tac |].
  exists E. split; [lia | done].
Qed.

Lemma fadd_normal_normal (lo hi : Z) (x y : GLfloat) :
  -125 <= lo -> hi + 2 <= 128 ->
  normal_between prec32 lo hi x -> normal_between prec32 lo hi y ->
  normal_between prec32 lo (hi + 2) (x ⊕ y)%flt.
Proof.
  intros Hlo Hhi (E1 & HE1 & Hn1) (E2 & HE2 & Hn2).
  destruct (SFadd_normal prec32 emax32 prec32_pos E1 E2 _ _ Hn1 Hn2)
    as (E & HE & Hn); [range_tac | range_tac |].
  exists E. split; [lia | done].
Qed.

Lemma fadd_normal_l (lo hi : Z) (x y : GLfloat) :
  -125 <= lo -> hi + 2 <= 128 ->
  normal_between prec32 lo hi x -> zero_or_normal prec32 lo hi y ->
  normal_between prec32 lo (hi + 2) (x ⊕ y)%flt.
Proof.
  intros Hlo Hhi Hx [-> | Hy]; [|by apply fadd_normal_normal].
  apply (normal_between_weaken prec32 lo hi); [lia | lia |].
  by destruct Hx as (E & HE & m & e & -> & Hd & He); exists E; split; [|exists m, e].
Qed.

Lemma fadd_normal_r (lo hi : Z) (x y : GLfloat) :
  -125 <= lo -> hi + 2 <= 128 ->
  zero_or_normal prec32 lo hi x -> normal_between prec32 lo hi y ->
  normal_between prec32 lo (hi + 2) (x ⊕ y)%flt.
Proof.
  intros Hlo Hhi [-> | Hx] Hy; [|by apply fadd_normal_normal].
  apply (normal_between_weaken prec32 lo hi); [lia | lia |].
  by destruct Hy as (E & HE & m & e & -> & Hd & He); exists E; split; [|exists m, e].
Qed.

Lemma fadd_zero_or_normal (lo hi : Z) (x y : GLfloat) :
  -125 <= lo -> hi + 2 <= 128 ->
  zero_or_normal prec32 lo hi x -> zero_or_normal prec32 lo hi y ->
  zero_or_normal prec32 lo (hi + 2) (x ⊕ y)%flt.
Proof.
  intros Hlo Hhi [-> | Hx] Hy.
  - destruct Hy as [-> | Hy]; [by left | right].
    by apply fadd_normal_r; [| |left|].
  - right. by apply fadd_normal_l.
Qed.

(** The sum of three squares of which one at least is not zero. *)
Lemma sum_of_squares_normal (q0 q1 q2 : GLfloat) :
  zero_or_normal prec32 (-63) 67 q0 ->
  zero_or_normal prec32 (-63) 67 q1 ->
  zero_or_normal prec32 (-63) 67 q2 ->
  normal_between prec32 (-63) 67 q0 \/ normal_between prec32 (-63) 67 q1 \/
  normal_between prec32 (-63) 67 q2 ->
  normal_between prec32 (-63) 71 (q0 ⊕ q1 ⊕ q2)%flt.
Proof.
  intros H0 H1 H2 Hn.
  pose proof (zero_or_normal_weaken prec32 (-63) 67 (-63) 69 q2
                ltac:(lia) ltac:(lia) H2) as H2'.
  apply (fadd_zero_or_normal (-63) 67 q0 q1 ltac:(lia) ltac:(lia) H0) in H1 as H01.
  destruct Hn as [Hn | [Hn | Hn]].
  - apply (fadd_normal_l (-63) 69); [lia | lia | | done].
    by apply (fadd_normal_l (-63) 67).
  - apply (fadd_normal_l (-63) 69); [lia | lia | | done].
    by apply (fadd_normal_r (-63) 67).
  - apply (fadd_normal_r (-63) 69); [lia | lia | done |].
    by apply (normal_between_weaken prec32 (-63) 67).
Qed.

(** [(GLfloat) sqrt((double) s)] of a normal [s]. *)
Lemma sqrt_via_double_normal (s : GLfloat) :
  normal_between prec32 (-63) 71 s ->
  normal_between prec32 (-31) 38 (float_of_double (sqrt (double_of_float s))).
Proof.
  intros (E & HE & m & e & -> & Hd & He). cbn [double_of_float].
  destruct (binary_round_normal prec64 emax64 prec64_pos false m e)
    as (m1 & e1 & H1 & Hd1 & HE1); [range_tac | range_tac |].
  rewrite H1. unfold sqrt.
  destruct (SFsqrt_normal prec64 emax64 prec64_pos (e1 + prec64) (S754_finite false m1 e1))
    as (E2 & HE2 & m2 & e2 & H2 & Hd2 & He2);
    [by exists m1, e1 | range_tac | range_tac |].
  rewrite H2. cbn [float_of_double].
  destruct (binary_round_normal prec32 emax32 prec32_pos false m2 e2)
    as (m3 & e3 & H3 & Hd3 & HE3); [range_tac | range_tac |].
  rewrite H3. exists (e3 + prec32). split; [range_tac|]. by exists m3, e3.
Qed.

Lemma fdiv_nonneg (x len : GLfloat) :
  zero_or_normal prec32 (-31) 33 x -> normal_between prec32 (-31) 38 len ->
  nonneg (x ⊘ len)%flt = true.
Proof.
  intros [-> | (E1 & HE1 & Hn1)] (E2 & HE2 & Hn2).
  - by destruct Hn2 as (m & e & -> & _).
  - destruct (SFdiv_normal prec32 emax32 prec32_pos E1 E2 _ _ Hn1 Hn2)
      as (E & HE & m & e & Hq & _); [range_tac | range_tac |].
    unfold fdiv. by rewrite Hq.
Qed.

(** Normalizing a vector of draws of which one at least is not zero. *)
Lemma geometry_normalize_vector_nonneg (v : vector_3d) :
  zero_or_normal prec32 (-31) 33 (c0 v) ->
  zero_or_normal prec32 (-31) 33 (c1 v) ->
  zero_or_normal prec32 (-31) 33 (c2 v) ->
  normal_between prec32 (-31) 33 (c0 v) \/ normal_between prec32 (-31) 33 (c1 v) \/
  normal_between prec32 (-31) 33 (c2 v) ->
  in_nonneg_octant (geometry_normalize_vector v).
Proof.
  intros H0 H1 H2 Hn.
  assert (Hlen : normal_between prec32 (-31) 38 (vector_length v)).
  { unfold vector_length. apply sqrt_via_double_normal.
    apply sum_of_squares_normal; try by apply fmul_square.
    destruct Hn as [Hn | [Hn | Hn]]; [left | right; left | right; right];
      by apply fmul_square_normal. }
  unfold in_nonneg_octant, geometry_normalize_vector. cbn [c0 c1 c2].
  repeat split; by apply fdiv_nonneg.
Qed.

Lemma drawn_direction_nonneg (RAND_MAX r0 r1 r2 : Z) :
  0 < RAND_MAX < 2 ^ 31 ->
  0 <= r0 <= RAND_MAX -> 0 <= r1 <= RAND_MAX -> 0 <= r2 <= RAND_MAX ->
  r0 <> 0 \/ r1 <> 0 \/ r2 <> 0 ->
  in_nonneg_octant (drawn_direction RAND_MAX r0 r1 r2).
Proof.
  intros HM Hr0 Hr1 Hr2 Hnz.
  pose proof (float_of_int_normal RAND_MAX HM) as HMf.
  assert (Hdraw : forall r, 0 <= r <= RAND_MAX ->
            zero_or_normal prec32 (-31) 33 (float_of_int r ⊘ float_of_int RAND_MAX)%flt).
  { intros r Hr. apply fdiv_draw; [|done]. apply float_of_int_zero_or_normal. lia. }
  assert (Hnorm : forall r, 0 <= r <= RAND_MAX -> r <> 0 ->
            normal_between prec32 (-31) 33 (float_of_int r ⊘ float_of_int RAND_MAX)%flt).
  { intros r Hr Hne.
    destruct (float_of_int_normal r ltac:(lia)) as (E1 & HE1 & Hn1).
    destruct HMf as (E2 & HE2 & Hn2).
    destruct (SFdiv_normal prec32 emax32 prec32_pos E1 E2 _ _ Hn1 Hn2)
      as (E & HE & Hn); [range_tac | range_tac |].
    exists E. split; [lia | done]. }
  unfold drawn_direction. apply geometry_normalize_vector_nonneg; cbn [c0 c1 c2]; auto.
  destruct Hnz as [? | [? | ?]]; [left | right; left | right; right]; auto.
Qed.

(** ** [boids_initialize] *)

Section InitializeLoop.

Variable RAND_MAX : Z.

(** One iteration consumes six draws; the direction stored in slot [i] comes
    from the last three of them. *)
Lemma boids_initialize_body_spec (g : rand_state) (st : flock) (i : nat) :
  exists b : boid,
    direction b =
      drawn_direction RAND_MAX
        (rand_stream g (rand_calls g + 3)%nat)
        (rand_stream g (rand_calls g + 4)%nat)
        (rand_stream g (rand_calls g + 5)%nat) /\
    boids_initialize_body RAND_MAX (g, st) i =
      ({| rand_stream := rand_stream g; rand_calls := (rand_calls g + 6)%nat |},
       set_current (fun cur => <[ i := b ]> cur) st).
Proof.
  eexists. split; [|unfold boids_initialize_body, rand; cbn [rand_stream rand_calls];
                    replace (rand_calls g + 6)%nat
                      with (S (S (S (S (S (S (rand_calls g))))))) by lia;
                    reflexivity].
  cbn [direction]. unfold drawn_direction.
  by replace (rand_calls g + 3)%nat with (S (S (S (rand_calls g)))) by lia;
     replace (rand_calls g + 4)%nat with (S (S (S (S (rand_calls g))))) by lia;
     replace (rand_calls g + 5)%nat with (S (S (S (S (S (rand_calls g)))))) by lia.
Qed.

Lemma boids_initialize_prefix (g : rand_state) (st : flock) (n : nat) :
  let r := foldl (boids_initialize_body RAND_MAX) (g, st) (seq 0 n) in
  rand_stream (fst r) = rand_stream g /\
  rand_calls (fst r) = (rand_calls g + 6 * n)%nat /\
  length (array_boids_current (snd r)) = length (array_boids_current st) /\
  forall j : nat,
    (j < n)%nat -> (j < length (array_boids_current st))%nat ->
    direction (array_boids_current (snd r) !!! j) =
      drawn_direction RAND_MAX
        (rand_stream g (rand_calls g + 6 * j + 3)%nat)
        (rand_stream g (rand_calls g + 6 * j + 4)%nat)
        (rand_stream g (rand_calls g + 6 * j + 5)%nat).
Proof.
  induction n as [|n IH]; cbn zeta.
  - cbn. repeat split; try lia.
  - rewrite seq_S, foldl_snoc. cbn zeta in IH. cbn [plus].
    destruct (foldl (boids_initialize_body RAND_MAX) (g, st) (seq 0 n)) as [g' st'].
    cbn [fst snd] in IH. destruct IH as (Hs & Hc & Hl & Hd).
    destruct (boids_initialize_body_spec g' st' n) as (b & Hb & ->).
    cbn [fst snd rand_stream rand_calls set_current array_boids_current].
    split; [done|]. split; [lia|]. split; [by rewrite length_insert|].
    intros j Hj Hjl. destruct (decide (j = n)) as [-> | Hne].
    + rewrite list_lookup_total_insert_eq by lia.
      rewrite Hb, Hs, Hc. reflexivity.
    + rewrite list_lookup_total_insert_ne by done. apply Hd; lia.
Qed.

End InitializeLoop.

(** C10, as the code has it.  Every draw lies in [0, RAND_MAX], so the three
    components handed to the normalization are [>= 0]; whenever the three
    draws of an agent are not all zero, its initial direction has all its
    components [>= 0]: it lies in the closed non-negative octant, not
    anywhere on the sphere. *)
Theorem boids_initialize_direction_nonneg
    (RAND_MAX : Z) (g : rand_state) (st : flock) (i : nat) :
  0 < RAND_MAX < 2 ^ 31 ->
  (forall k : nat, 0 <= rand_stream g k <= RAND_MAX) ->
  length (array_boids_current st) = BOID_COUNT ->
  (i < BOID_COUNT)%nat ->
  rand_stream g (rand_calls g + 6 * i + 3)%nat <> 0 \/
  rand_stream g (rand_calls g + 6 * i + 4)%nat <> 0 \/
  rand_stream g (rand_calls g + 6 * i + 5)%nat <> 0 ->
  in_nonneg_octant
    (direction (array_boids_current (snd (boids_initialize RAND_MAX g st)) !!! i)).
Proof.
  intros HM Hdraws Hlen Hi Hnz.
  destruct (boids_initialize_prefix RAND_MAX g st BOID_COUNT) as (_ & _ & _ & Hd).
  unfold boids_initialize. rewrite Hd by lia.
  by apply drawn_direction_nonneg.
Qed.

Lemma boids_initialize_direction_nonneg_witness :
  in_nonneg_octant
    (direction
       (array_boids_current
          (snd (boids_initialize 32767 (rand_constant 1) aligned_flock)) !!! 3%nat)).
Proof.
  apply (boids_initialize_direction_nonneg 32767 (rand_constant 1) aligned_flock 3).
  - split; reflexivity.
  - intros k. cbn. lia.
  - reflexivity.
  - unfold BOID_COUNT. lia.
  - left. cbn. lia.
Defined.

(** C10, counterexample.  When the three draws of an agent are 0 the vector
    handed to the normalization is the zero vector and the direction is
    three NaNs, which are not [>= 0]. *)
Lemma boids_initialize_direction_nan :
  direction
    (array_boids_current
       (snd (boids_initialize 32767 (rand_constant 0) aligned_flock)) !!! 0%nat) =
    nan_vector /\
  ~ in_nonneg_octant
      (direction
         (array_boids_current
            (snd (boids_initialize 32767 (rand_constant 0) aligned_flock)) !!! 0%nat)).
Proof.
  assert (H : direction
    (array_boids_current
       (snd (boids_initialize 32767 (rand_constant 0) aligned_flock)) !!! 0%nat) =
    nan_vector) by (vm_compute; reflexivity).
  split; [done|]. rewrite H. intros (H0 & _). discriminate.
Qed.

(** Draws of 1 out of 32767: the direction is the diagonal of the octant. *)
Example drawn_direction_diagonal :
  drawn_direction 32767 1 1 1 =
  {| c0 := S754_finite false 9686330 (-24);
     c1 := S754_finite false 9686330 (-24);
     c2 := S754_finite false 9686330 (-24) |}.
Proof. vm_compute. reflexivity. Qed.

(** ** The guarded denominators of separation and environment repulsion *)

Lemma fmul_square_cases (d : GLfloat) :
  is_nan d = false ->
  (d ⊗ d)%flt = S754_zero false \/ (d ⊗ d)%flt = S754_infinity false \/
  exists (m : positive) (e : Z), (d ⊗ d)%flt = S754_finite false m e.
Proof.
  destruct d as [s|s| |s m e]; intros Hn; try done.
  - left. by destruct s.
  - right. left. by destruct s.
  - unfold fmul. cbn [SFmul].
    replace (xorb s s) with false by (by destruct s).
    destruct (binary_round_aux_cases prec32 emax32 false (Zpos (m * m)) (e + e) loc_Exact)
      as [H | [H | H]]; [lia | | |]; auto.
Qed.

Lemma EPSILON_1em6_normal : normal_pos prec32 (-19) EPSILON_1em6.
Proof. exists 8796093%positive, (-43). by repeat split. Qed.

(** For every distance that is a number, [distance * distance + 1e-6f] is
    at least about [1e-6], or infinite: never zero, never NaN. *)
Lemma guarded_denominator (d : GLfloat) :
  is_nan d = false ->
  (d ⊗ d ⊕ EPSILON_1em6)%flt = S754_infinity false \/
  normal_between prec32 (-19) 128 (d ⊗ d ⊕ EPSILON_1em6)%flt.
Proof.
  intros Hn. destruct (fmul_square_cases d Hn) as [-> | [-> | (m & e & ->)]].
  - right. exists (-19). split; [lia | apply EPSILON_1em6_normal].
  - by left.
  - destruct (SFadd_finite_normal prec32 emax32 prec32_pos m e (-19) EPSILON_1em6
                EPSILON_1em6_normal ltac:(range_tac)) as [H | (E & HE & H)].
    + by left.
    + right. exists E. split; [range_tac | done].
Qed.

Lemma guarded_denominator_positive (d : GLfloat) :
  is_nan d = false -> (f0 ≺ d ⊗ d ⊕ EPSILON_1em6)%flt = true.
Proof.
  intros Hn. destruct (guarded_denominator d Hn) as [-> | (E & _ & m & e & -> & _)]; done.
Qed.

(** The denominator of the cohesion weight is zero at distance zero. *)
Example cohesion_denominator_zero : (f0 ⊗ f0)%flt = f0.
Proof. reflexivity. Qed.

(* ===================================================================== *)
(** * Part III: further properties of the flock code *)
(* ===================================================================== *)

(** ** What the neighbour finder returns *)

Section NeighborFinder.

Context `{Q : QSort}.

(** X1.  When no distance from the subject is NaN, so that the comparison
    function is consistent and the behaviour of [qsort] is defined,
    [boid_behavior_find_neighbors] fills [BOID_NEIGHBORHOOD_SIZE] records
    and every one of them names a slot below [BOID_COUNT]: the steering
    steps do not index [array_boids_previous] out of bounds. *)
Theorem find_neighbors_in_bounds (st : flock) (subject_boid : boid) :
  Forall (fun n => is_nan (distance n) = false)
         (all_possible_neighbors st subject_boid) ->
  length (boid_behavior_find_neighbors st subject_boid) = BOID_NEIGHBORHOOD_SIZE /\
  Forall (fun n => (index n < BOID_COUNT)%nat)
         (boid_behavior_find_neighbors st subject_boid).
Proof.
  intros Hnan. split; [apply boid_behavior_find_neighbors_length|].
  apply Forall_lookup. intros i n Hn.
  pose proof (lookup_lt_Some _ _ _ Hn) as Hi.
  rewrite boid_behavior_find_neighbors_length in Hi.
  apply list_lookup_total_correct in Hn as <-.
  by apply boid_behavior_find_neighbors_index.
Qed.

Lemma sort_all_neighbors_split (st : flock) (subject_boid : boid) :
  Forall (fun n => is_nan (distance n) = false)
         (all_possible_neighbors st subject_boid) ->
  exists (x0 : boid_neighbor) (rest : list boid_neighbor),
    sort_all_neighbors (all_possible_neighbors st subject_boid) =
    x0 :: boid_behavior_find_neighbors st subject_boid ++ rest.
Proof.
  intros Hnan. rewrite boid_behavior_find_neighbors_eq.
  pose proof (sort_all_neighbors_length (all_possible_neighbors st subject_boid) Hnan)
    as Hlen.
  rewrite all_possible_neighbors_length in Hlen.
  destruct (sort_all_neighbors (all_possible_neighbors st subject_boid))
    as [|x0 [|n1 [|n2 [|n3 [|n4 [|n5 [|n6 rest]]]]]]]; try discriminate.
  by exists x0, rest.
Qed.

(** X2.  When the distances are numbers, the record that is dropped and the
    six that are returned are the seven nearest of the flock, in ascending
    order: the whole array is a rearrangement of the dropped record, the
    neighbours and a remainder that is at least as far. *)
Theorem find_neighbors_nearest (st : flock) (subject_boid : boid) :
  Forall (fun n => is_nan (distance n) = false)
         (all_possible_neighbors st subject_boid) ->
  exists (x0 : boid_neighbor) (rest : list boid_neighbor),
    all_possible_neighbors st subject_boid ≡ₚ
      x0 :: boid_behavior_find_neighbors st subject_boid ++ rest /\
    ascending_by_distance
      (x0 :: boid_behavior_find_neighbors st subject_boid ++ rest).
Proof.
  intros Hnan.
  destruct (sort_all_neighbors_split st subject_boid Hnan) as (x0 & rest & Heq).
  exists x0, rest. rewrite <- Heq. split.
  - symmetry. by apply sort_all_neighbors_perm.
  - apply sort_all_neighbors_sorted; [apply all_possible_neighbors_length | done].
Qed.

(** X3.  When the record of slot [i] is strictly nearer to the subject than
    every other record, slot [i] is not among the neighbours returned:
    dropping sorted position 0 excludes the subject as long as no other
    agent is as near as the subject's own slot. *)
Theorem find_neighbors_excludes_strict_nearest
    (st : flock) (subject_boid : boid) (i : nat) :
  (i < BOID_COUNT)%nat ->
  Forall (fun n => is_nan (distance n) = false)
         (all_possible_neighbors st subject_boid) ->
  (forall j : nat, (j < BOID_COUNT)%nat -> j <> i ->
     SFltb (boid_physics_distance_of_boids subject_boid (array_boids_previous st !!! i))
           (boid_physics_distance_of_boids subject_boid (array_boids_previous st !!! j))
       = true) ->
  i ∉ index <$> boid_behavior_find_neighbors st subject_boid.
Proof. apply boid_behavior_find_neighbors_excludes_nearest. Qed.

End NeighborFinder.

Lemma find_neighbors_in_bounds_witness :
  Forall (fun n => (index n < BOID_COUNT)%nat)
         (@boid_behavior_find_neighbors qsort_reversing aligned_flock (aligned_boid 0)).
Proof.
  apply (@find_neighbors_in_bounds qsort_reversing aligned_flock (aligned_boid 0)).
  apply aligned_neighbors_no_nan.
Defined.

Lemma find_neighbors_nearest_witness :
  exists (x0 : boid_neighbor) (rest : list boid_neighbor),
    all_possible_neighbors aligned_flock (aligned_boid 0) ≡ₚ
      x0 :: @boid_behavior_find_neighbors qsort_stable aligned_flock (aligned_boid 0)
              ++ rest /\
    ascending_by_distance
      (x0 :: @boid_behavior_find_neighbors qsort_stable aligned_flock (aligned_boid 0)
               ++ rest).
Proof.
  apply (@find_neighbors_nearest qsort_stable aligned_flock (aligned_boid 0)).
  apply aligned_neighbors_no_nan.
Defined.

(** Seen from agent 0 of the grid, its own slot is the only one at distance
    0. *)
Lemma aligned_agent_0_strictly_nearest (j : nat) :
  (j < BOID_COUNT)%nat -> j <> 0%nat ->
  SFltb (boid_physics_distance_of_boids (aligned_boid 0)
           (array_boids_previous aligned_flock !!! 0%nat))
        (boid_physics_distance_of_boids (aligned_boid 0)
           (array_boids_previous aligned_flock !!! j)) = true.
Proof.
  intros Hj Hne.
  assert (Hall : forallb (fun k =>
            SFltb (boid_physics_distance_of_boids (aligned_boid 0)
                     (array_boids_previous aligned_flock !!! 0%nat))
                  (boid_physics_distance_of_boids (aligned_boid 0)
                     (array_boids_previous aligned_flock !!! k)))
            (seq 1 39) = true) by (vm_compute; reflexivity).
  rewrite forallb_forall in Hall. apply Hall, in_seq. unfold BOID_COUNT in Hj. lia.
Qed.

Lemma find_neighbors_excludes_strict_nearest_witness :
  0%nat ∉ index <$> @boid_behavior_find_neighbors qsort_stable aligned_flock
                      (aligned_boid 0).
Proof.
  apply (@find_neighbors_excludes_strict_nearest qsort_stable aligned_flock
           (aligned_boid 0) 0).
  - unfold BOID_COUNT. lia.
  - apply aligned_neighbors_no_nan.
  - apply aligned_agent_0_strictly_nearest.
Defined.

(** ** Signs: squares, sums of squares and their roots *)

Lemma binary_round_aux_nonneg_number (prec emax mx ex : Z) (lx : location) :
  0 <= mx -> nonneg_number (binary_round_aux prec emax false mx ex lx) = true.
Proof.
  intros Hm.
  destruct (binary_round_aux_cases prec emax false mx ex lx Hm)
    as [-> | [-> | (m & e & ->)]]; reflexivity.
Qed.

Lemma binary_round_nonneg_number (prec emax : Z) (m : positive) (e : Z) :
  nonneg_number (binary_round prec emax false m e) = true.
Proof.
  unfold binary_round. destruct (shl_align m e _) as [mz ez].
  apply binary_round_aux_nonneg_number. lia.
Qed.

Lemma nonneg_number_sign (x : GLfloat) :
  nonneg_number x = true -> sign_clear_or_nan x = true.
Proof. by destruct x as [[]|[]| |[]]. Qed.

Lemma nonneg_number_leb (x : GLfloat) :
  nonneg_number x = true -> SFleb f0 x = true.
Proof. by destruct x as [[]|[]| |[]]. Qed.

Lemma sign_clear_cases (x : GLfloat) :
  sign_clear_or_nan x = true -> is_nan x = true \/ nonneg_number x = true.
Proof. destruct x as [[]|[]| |[]]; cbn; auto. Qed.

Lemma fmul_square_sign (x : GLfloat) : sign_clear_or_nan (x ⊗ x)%flt = true.
Proof.
  destruct (is_nan x) eqn:Hn; [by destruct x|].
  by destruct (fmul_square_cases x Hn) as [-> | [-> | (m & e & ->)]].
Qed.

Lemma fadd_sign (x y : GLfloat) :
  sign_clear_or_nan x = true -> sign_clear_or_nan y = true ->
  sign_clear_or_nan (x ⊕ y)%flt = true.
Proof.
  destruct x as [[]|[]| |[] mx ex], y as [[]|[]| |[] my ey]; try done.
  intros _ _. unfold fadd. cbn [SFadd cond_Zopp].
  destruct (shl_align mx ex _) as [ax ex']. destruct (shl_align my ey _) as [ay ey'].
  cbn [fst]. change (Zpos ax + Zpos ay) with (Zpos (ax + ay)). cbn [binary_normalize].
  apply nonneg_number_sign, binary_round_nonneg_number.
Qed.

Lemma SFsqrt_sign (prec emax : Z) (x : spec_float) :
  sign_clear_or_nan x = true -> sign_clear_or_nan (SFsqrt prec emax x) = true.
Proof.
  destruct x as [[]|[]| |[] m e]; try done. intros _.
  cbn [SFsqrt]. unfold SFsqrt_core_binary.
  match goal with |- context [Z.sqrtrem ?a] =>
    pose proof (Z.sqrtrem_sqrt a) as Hq; pose proof (Z.sqrt_nonneg a) as Hq0;
    destruct (Z.sqrtrem a) as [q r] end.
  cbn [fst] in Hq. apply nonneg_number_sign, binary_round_aux_nonneg_number. lia.
Qed.

(** X4.  The distance between two boids is never negative: the function
    returns a NaN or a number [>= 0] with the sign bit clear, whatever the
    coordinates. *)
Theorem boid_physics_distance_of_boids_sign (a b : boid) :
  is_nan (boid_physics_distance_of_boids a b) = true \/
  (nonneg_number (boid_physics_distance_of_boids a b) = true /\
   SFleb f0 (boid_physics_distance_of_boids a b) = true).
Proof.
  assert (H : sign_clear_or_nan (boid_physics_distance_of_boids a b) = true).
  { unfold boid_physics_distance_of_boids, sqrtf.
    apply SFsqrt_sign, fadd_sign; [apply fadd_sign|]; apply fmul_square_sign. }
  destruct (sign_clear_cases _ H) as [Hn | Hn]; [by left | right].
  split; [done | by apply nonneg_number_leb].
Qed.

Lemma fsub_self (x : GLfloat) : is_finite x = true -> (x ⊖ x)%flt = f0.
Proof.
  destruct x as [[]| | |s m e]; try done. intros _.
  unfold fsub. cbn [SFsub]. by rewrite Z.sub_diag.
Qed.

(** X5.  A boid whose coordinates are finite is at distance [+0] from
    itself (and from any boid at the same coordinates): the subject's own
    slot is a nearest record. *)
Theorem boid_physics_distance_of_boids_self (a b : boid) :
  position a = position b ->
  is_finite (c0 (position a)) = true ->
  is_finite (c1 (position a)) = true ->
  is_finite (c2 (position a)) = true ->
  boid_physics_distance_of_boids a b = f0.
Proof.
  intros Hp H0 H1 H2. unfold boid_physics_distance_of_boids.
  rewrite <- Hp, !fsub_self by done. reflexivity.
Qed.

Lemma boid_physics_distance_of_boids_self_witness :
  boid_physics_distance_of_boids (aligned_boid 3) (aligned_boid 3) = f0.
Proof.
  apply (boid_physics_distance_of_boids_self (aligned_boid 3) (aligned_boid 3));
    reflexivity.
Defined.

(** With an infinite coordinate the self-distance is a NaN. *)
Example boid_physics_distance_of_boids_self_infinite :
  let b := {| position := {| c0 := S754_infinity false; c1 := f0; c2 := f0 |};
              direction := vector_zero |} in
  boid_physics_distance_of_boids b b = S754_nan.
Proof. reflexivity. Qed.

(** ** The guarded weights *)

Lemma SFcompare_defined (x y : spec_float) :
  is_nan x = false -> is_nan y = false -> exists c, SFcompare x y = Some c.
Proof. destruct x as [| | |], y as [| | |]; cbn; try done; eauto. Qed.

Lemma SFltb_leb (x y : spec_float) : SFltb x y = true -> SFleb x y = true.
Proof. unfold SFltb, SFleb. by destruct (SFcompare x y) as [[]|]. Qed.

Lemma SFltb_not_nan (x y : spec_float) :
  SFltb x y = true -> is_nan x = false /\ is_nan y = false.
Proof. by destruct x as [| | |], y as [| | |]. Qed.

Lemma SFleb_false_ltb (x y : spec_float) :
  is_nan x = false -> is_nan y = false -> SFleb y x = false -> SFltb x y = true.
Proof.
  intros Hx Hy. unfold SFltb, SFleb. rewrite (SFcompare_antisym x y).
  destruct (SFcompare_defined x y Hx Hy) as (c & ->). by destruct c.
Qed.

Lemma SFltb_false_leb (x y : spec_float) :
  is_nan x = false -> is_nan y = false -> SFltb y x = false -> SFleb x y = true.
Proof.
  intros Hx Hy. unfold SFltb, SFleb. rewrite (SFcompare_antisym x y).
  destruct (SFcompare_defined x y Hx Hy) as (c & ->). by destruct c.
Qed.

Lemma SFleb_ltb_trans (x y t : spec_float) :
  SFleb x y = true -> SFltb y t = true -> SFltb x t = true.
Proof.
  intros Hxy Hyt. destruct (SFltb_not_nan y t Hyt) as [Hy Ht].
  assert (Hx : is_nan x = false) by (by destruct x as [| | |], y as [| | |]).
  apply SFleb_false_ltb; try done.
  destruct (SFleb t x) eqn:Htx; [|done].
  pose proof (SFleb_trans t x y Htx Hxy) as Hty.
  apply SFltb_not_leb in Hyt. congruence.
Qed.







(** Rounding without overflow, underflow included. *)
Section Below.

Variables prec emax : Z.
Hypothesis prec_pos : 0 < prec.
Hypothesis emin_le : SpecFloat.emin prec emax <= emax - prec.

Local Abbreviation emin := (SpecFloat.emin prec emax).







End Below.








(** ** The environment trigger *)

(** [fminf] is below a threshold exactly when one of its arguments is. *)
Lemma fminf_ltb (x y t : GLfloat) :
  SFltb (fminf x y) t = SFltb x t || SFltb y t.
Proof.
  destruct (is_nan x) eqn:Hx.
  { by destruct x. }
  destruct (is_nan y) eqn:Hy.
  { destruct y; try done. destruct x; try done; cbn [fminf SFltb SFcompare];
      by rewrite ?orb_false_r. }
  assert (Hmin : fminf x y = if SFltb y x then y else x)
    by (by destruct x as [| | |], y as [| | |]).
  rewrite Hmin. destruct (SFltb y x) eqn:Hyx.
  - destruct (SFltb y t) eqn:Hyt; [by rewrite orb_true_r|].
    rewrite orb_false_r. destruct (SFltb x t) eqn:Hxt; [|done].
    pose proof (SFleb_ltb_trans y x t (SFltb_leb _ _ Hyx) Hxt). congruence.
  - destruct (SFltb x t) eqn:Hxt; [done|]. cbn [orb].
    destruct (SFltb y t) eqn:Hyt; [|done].
    pose proof (SFleb_ltb_trans x y t (SFltb_false_leb x y Hx Hy Hyx) Hyt). congruence.
Qed.

Lemma boid_behavior_environment_trigger_tests (b : boid) :
  boid_behavior_environment_trigger b =
    (distance_to_wall b ≺ BOID_TRIGGER_ENVIRONMENT)%flt ||
    (distance_to_floor b ≺ BOID_TRIGGER_ENVIRONMENT)%flt ||
    (distance_to_ceiling b ≺ BOID_TRIGGER_ENVIRONMENT)%flt.
Proof.
  unfold boid_behavior_environment_trigger, boid_physics_min_distance_to_environment, flt.
  by rewrite !fminf_ltb.
Qed.

(** X7.  The environment trigger fires exactly when the boid is nearer than
    [BOID_TRIGGER_ENVIRONMENT] to the wall, to the floor or to the ceiling
    (a NaN distance is not nearer).  These are the three tests of
    [boid_physics_target_direction_environment]: for a boid that does not
    fire the trigger that function applies no repulsion term, its result is
    the normalized difference of the target and the direction. *)
Theorem boid_behavior_environment_trigger_iff (b : boid) :
  boid_behavior_environment_trigger b =
    (distance_to_wall b ≺ BOID_TRIGGER_ENVIRONMENT)%flt ||
    (distance_to_floor b ≺ BOID_TRIGGER_ENVIRONMENT)%flt ||
    (distance_to_ceiling b ≺ BOID_TRIGGER_ENVIRONMENT)%flt /\
  (boid_behavior_environment_trigger b = false ->
   forall target_direction : vector_3d,
     boid_physics_target_direction_environment b target_direction =
     geometry_normalize_vector
       {| c0 := (c0 target_direction ⊖ c0 (direction b))%flt;
          c1 := (c1 target_direction ⊖ c1 (direction b))%flt;
          c2 := (c2 target_direction ⊖ c2 (direction b))%flt |}).
Proof.
  split; [apply boid_behavior_environment_trigger_tests|].
  rewrite boid_behavior_environment_trigger_tests. intros Hoff t.
  apply orb_false_elim in Hoff as [Hoff Hceiling].
  apply orb_false_elim in Hoff as [Hwall Hfloor].
  unfold boid_physics_target_direction_environment.
  by rewrite Hwall, Hfloor, Hceiling.
Qed.

Lemma boid_behavior_environment_trigger_iff_witness :
  boid_physics_target_direction_environment (aligned_boid 0) vector_zero =
  geometry_normalize_vector
    {| c0 := (c0 vector_zero ⊖ c0 (direction (aligned_boid 0)))%flt;
       c1 := (c1 vector_zero ⊖ c1 (direction (aligned_boid 0)))%flt;
       c2 := (c2 vector_zero ⊖ c2 (direction (aligned_boid 0)))%flt |}.
Proof.
  apply (boid_behavior_environment_trigger_iff (aligned_boid 0)).
  reflexivity.
Defined.

(** ** The comparison function and NaN distances *)

(** X8.  On records whose distances are numbers [compare_neighbor_boids]
    meets what [qsort] requires of a comparison function: its sign is
    antisymmetric and [<= 0] is transitive. *)
Theorem compare_neighbor_boids_order (l : list boid_neighbor) :
  Forall (fun n => is_nan (distance n) = false) l ->
  cmp_consistent compare_neighbor_boids l.
Proof. apply compare_neighbor_boids_consistent. Qed.

Lemma compare_neighbor_boids_order_witness :
  cmp_consistent compare_neighbor_boids
    (all_possible_neighbors aligned_flock (aligned_boid 0)).
Proof.
  apply (compare_neighbor_boids_order
           (all_possible_neighbors aligned_flock (aligned_boid 0))).
  apply aligned_neighbors_no_nan.
Defined.

Lemma compare_neighbor_boids_nan (a b : boid_neighbor) :
  is_nan (distance a) = true ->
  compare_neighbor_boids a b = 0 /\ compare_neighbor_boids b a = 0.
Proof.
  unfold compare_neighbor_boids, flt.
  destruct (distance a) as [| | |]; try done. intros _.
  by destruct (distance b) as [| | |].
Qed.

(** X9.  A record with a NaN distance compares equal to every record, so
    with such a record between two records of different distances the
    comparison function is not transitive: the array no longer meets the
    requirement of [qsort]. *)
Theorem compare_neighbor_boids_nan_inconsistent (a n b : boid_neighbor) :
  is_nan (distance n) = true ->
  SFltb (distance b) (distance a) = true ->
  (forall x : boid_neighbor,
     compare_neighbor_boids n x = 0 /\ compare_neighbor_boids x n = 0) /\
  ~ cmp_consistent compare_neighbor_boids [a; n; b].
Proof.
  intros Hn Hba. split; [intros x; by apply compare_neighbor_boids_nan|].
  intros [_ Htrans].
  destruct (compare_neighbor_boids_nan n a Hn) as [_ Han].
  destruct (compare_neighbor_boids_nan n b Hn) as [Hnb _].
  specialize (Htrans a n b ltac:(elem_cons) ltac:(elem_cons) ltac:(elem_cons)
                ltac:(lia) ltac:(lia)).
  unfold compare_neighbor_boids, flt in Htrans.
  pose proof (SFltb_not_leb _ _ Hba) as Hab.
  assert (Hlt : SFltb (distance a) (distance b) = false).
  { destruct (SFltb (distance a) (distance b)) eqn:H; [|done].
    apply SFltb_leb in H. congruence. }
  rewrite Hlt, Hba in Htrans. lia.
Qed.

Lemma compare_neighbor_boids_nan_inconsistent_witness :
  ~ cmp_consistent compare_neighbor_boids
      [ {| distance := float_of_int 2; index := 0 |};
        {| distance := S754_nan; index := 1 |};
        {| distance := float_of_int 1; index := 2 |} ].
Proof.
  apply (compare_neighbor_boids_nan_inconsistent
           {| distance := float_of_int 2; index := 0 |}
           {| distance := S754_nan; index := 1 |}
           {| distance := float_of_int 1; index := 2 |}); reflexivity.
Defined.

(** ** The frame *)

Lemma publish_copies (st : flock) :
  length (array_boids_current st) = BOID_COUNT ->
  length (array_boids_previous st) = BOID_COUNT ->
  array_boids_previous (update_boids_previous st) = array_boids_current st.
Proof.
  intros Hc Hp.
  destruct (update_boids_previous_prefix st BOID_COUNT) as (_ & _ & Hprev).
  apply list_eq. intros j. unfold update_boids_previous. rewrite Hprev, Hp.
  case_decide as Hj.
  - symmetry. apply list_lookup_lookup_total_lt. lia.
  - rewrite !lookup_ge_None_2; [done | lia | lia].
Qed.

(** X10.  At the end of [boids_update] the frame is published: the previous
    buffer equals the current buffer, both still hold [BOID_COUNT] boids, and
    during the update pass itself the previous buffer is not written. *)
Theorem boids_update_published `{QSort} (st : flock) :
  length (array_boids_current st) = BOID_COUNT ->
  length (array_boids_previous st) = BOID_COUNT ->
  array_boids_previous (update_boids_current st) = array_boids_previous st /\
  array_boids_previous (boids_update st) = array_boids_current (boids_update st) /\
  length (array_boids_current (boids_update st)) = BOID_COUNT.
Proof.
  intros Hc Hp. split; [apply update_boids_current_previous|].
  rewrite boids_update_current. unfold boids_update. split.
  - apply publish_copies.
    + by rewrite update_boids_current_length.
    + by rewrite update_boids_current_previous.
  - by rewrite update_boids_current_length.
Qed.

Lemma boids_update_published_witness :
  array_boids_previous (@boids_update qsort_stable first_frame_flock) =
  array_boids_current (@boids_update qsort_stable first_frame_flock).
Proof.
  apply (@boids_update_published qsort_stable first_frame_flock); reflexivity.
Defined.

(** ** [boids_initialize]: draws and positions *)

Section InitializeSlots.

Variable RAND_MAX : Z.

Lemma boids_initialize_body_eq (g : rand_state) (st : flock) (i : nat) :
  boids_initialize_body RAND_MAX (g, st) i =
    ({| rand_stream := rand_stream g; rand_calls := (rand_calls g + 6)%nat |},
     set_current
       (fun cur =>
          <[ i := drawn_boid RAND_MAX
                    (rand_stream g (rand_calls g))
                    (rand_stream g (rand_calls g + 1)%nat)
                    (rand_stream g (rand_calls g + 2)%nat)
                    (rand_stream g (rand_calls g + 3)%nat)
                    (rand_stream g (rand_calls g + 4)%nat)
                    (rand_stream g (rand_calls g + 5)%nat) ]> cur) st).
Proof.
  replace (rand_calls g + 1)%nat with (S (rand_calls g)) by lia.
  replace (rand_calls g + 2)%nat with (S (S (rand_calls g))) by lia.
  replace (rand_calls g + 3)%nat with (S (S (S (rand_calls g)))) by lia.
  replace (rand_calls g + 4)%nat with (S (S (S (S (rand_calls g))))) by lia.
  replace (rand_calls g + 5)%nat with (S (S (S (S (S (rand_calls g)))))) by lia.
  replace (rand_calls g + 6)%nat with (S (S (S (S (S (S (rand_calls g))))))) by lia.
  reflexivity.
Qed.

Lemma boids_initialize_slots (g : rand_state) (st : flock) (n : nat) :
  let r := foldl (boids_initialize_body RAND_MAX) (g, st) (seq 0 n) in
  rand_stream (fst r) = rand_stream g /\
  rand_calls (fst r) = (rand_calls g + 6 * n)%nat /\
  array_boids_previous (snd r) = array_boids_previous st /\
  length (array_boids_current (snd r)) = length (array_boids_current st) /\
  forall j : nat,
    (j < length (array_boids_current st))%nat ->
    array_boids_current (snd r) !!! j =
      if decide (j < n)%nat then
        drawn_boid RAND_MAX
          (rand_stream g (rand_calls g + 6 * j)%nat)
          (rand_stream g (rand_calls g + 6 * j + 1)%nat)
          (rand_stream g (rand_calls g + 6 * j + 2)%nat)
          (rand_stream g (rand_calls g + 6 * j + 3)%nat)
          (rand_stream g (rand_calls g + 6 * j + 4)%nat)
          (rand_stream g (rand_calls g + 6 * j + 5)%nat)
      else array_boids_current st !!! j.
Proof.
  induction n as [|n IH]; cbn zeta.
  - cbn. split; [done|]. split; [lia|]. split; [done|]. split; [done|].
    intros j _. by case_decide; [lia|].
  - rewrite seq_S, foldl_snoc. cbn zeta in IH. cbn [plus].
    destruct (foldl (boids_initialize_body RAND_MAX) (g, st) (seq 0 n)) as [g' st'].
    cbn [fst snd] in IH. destruct IH as (Hs & Hc & Hp & Hl & Hd).
    rewrite boids_initialize_body_eq.
    cbn [fst snd rand_stream rand_calls set_current array_boids_current
         array_boids_previous].
    split; [done|]. split; [lia|]. split; [done|]. split; [by rewrite length_insert|].
    intros j Hj. destruct (decide (j = n)) as [-> | Hne].
    + rewrite list_lookup_total_insert_eq by lia.
      rewrite Hs, Hc. case_decide; [|lia].
      by replace (rand_calls g + 6 * n + 0)%nat with (rand_calls g + 6 * n)%nat by lia.
    + rewrite list_lookup_total_insert_ne by done. rewrite Hd by done.
      repeat case_decide; try lia; done.
Qed.

(** X11.  [boids_initialize] calls [rand] exactly [6 * BOID_COUNT] times,
    writes [array_boids_current] only, and keeps its length:
    [array_boids_previous] is what it was before the call. *)
Theorem boids_initialize_effects (g : rand_state) (st : flock) :
  rand_calls (fst (boids_initialize RAND_MAX g st)) =
    (rand_calls g + 6 * BOID_COUNT)%nat /\
  rand_stream (fst (boids_initialize RAND_MAX g st)) = rand_stream g /\
  array_boids_previous (snd (boids_initialize RAND_MAX g st)) =
    array_boids_previous st /\
  length (array_boids_current (snd (boids_initialize RAND_MAX g st))) =
    length (array_boids_current st).
Proof.
  destruct (boids_initialize_slots g st BOID_COUNT) as (Hs & Hc & Hp & Hl & _).
  unfold boids_initialize.
  split; [exact Hc|]. split; [exact Hs|]. split; [exact Hp | exact Hl].
Qed.

End InitializeSlots.

Lemma float_of_int_rem_8 (r : Z) :
  0 <= r ->
  1 <= Z.rem r 8 + 1 <= 8 /\
  (float_of_int (Z.rem r 8) ⊕ f1)%flt = float_of_int (Z.rem r 8 + 1).
Proof.
  intros Hr. pose proof (Z.rem_bound_pos r 8 Hr ltac:(lia)) as Hb.
  split; [lia|].
  assert (Hk : Z.rem r 8 = 0 \/ Z.rem r 8 = 1 \/ Z.rem r 8 = 2 \/ Z.rem r 8 = 3 \/
               Z.rem r 8 = 4 \/ Z.rem r 8 = 5 \/ Z.rem r 8 = 6 \/ Z.rem r 8 = 7) by lia.
  destruct Hk as [-> | [-> | [-> | [-> | [-> | [-> | [-> | ->]]]]]]]; reflexivity.
Qed.

(** X12.  Whatever [array_boids_current] held, after [boids_initialize] slot
    [i] is the boid built from the draws [6i .. 6i+5], and its Y coordinate
    is exactly one of the integers 1 to 8 ([rand() % 8 + 1]): the initial
    heights are quantized. *)
Theorem boids_initialize_slot
    (RAND_MAX : Z) (g : rand_state) (st : flock) (i : nat) :
  length (array_boids_current st) = BOID_COUNT ->
  (i < BOID_COUNT)%nat ->
  0 <= rand_stream g (rand_calls g + 6 * i + 1)%nat ->
  let b := array_boids_current (snd (boids_initialize RAND_MAX g st)) !!! i in
  let k := Z.rem (rand_stream g (rand_calls g + 6 * i + 1)%nat) 8 + 1 in
  b = drawn_boid RAND_MAX
        (rand_stream g (rand_calls g + 6 * i)%nat)
        (rand_stream g (rand_calls g + 6 * i + 1)%nat)
        (rand_stream g (rand_calls g + 6 * i + 2)%nat)
        (rand_stream g (rand_calls g + 6 * i + 3)%nat)
        (rand_stream g (rand_calls g + 6 * i + 4)%nat)
        (rand_stream g (rand_calls g + 6 * i + 5)%nat) /\
  1 <= k <= 8 /\ c1 (position b) = float_of_int k.
Proof.
  intros Hlen Hi Hr. cbn zeta.
  destruct (boids_initialize_slots RAND_MAX g st BOID_COUNT) as (_ & _ & _ & _ & Hd).
  unfold boids_initialize. rewrite Hd by lia. case_decide; [|lia].
  split; [done|]. cbn [drawn_boid position c1].
  by apply float_of_int_rem_8.
Qed.

Lemma boids_initialize_slot_witness :
  c1 (position (array_boids_current
                  (snd (boids_initialize 32767 (rand_constant 13) aligned_flock))
                !!! 7%nat)) = float_of_int 6.
Proof.
  apply (boids_initialize_slot 32767 (rand_constant 13) aligned_flock 7).
  - reflexivity.
  - unfold BOID_COUNT. lia.
  - cbn. lia.
Defined.

(* ===================================================================== *)
(** * Part IV: the other vector functions of geometry.c *)
(* ===================================================================== *)

(** ** The zero test *)

(** A valid binary32 number has at most 24 digits and an exponent between
    those of the smallest subnormal and of the largest finite number. *)
Lemma valid_binary32_range (s : bool) (m : positive) (e : Z) :
  valid_binary prec32 emax32 (S754_finite s m e) = true ->
  -148 <= e + Zdigits2 (Zpos m) <= 128.
Proof.
  cbn [valid_binary]. unfold bounded, canonical_mantissa, fexp, SpecFloat.emin.
  intros H. apply andb_prop in H as [H1 H2].
  apply Z.eqb_eq in H1. apply Z.leb_le in H2.
  change (Zpos (digits2_pos m)) with (Zdigits2 (Zpos m)) in H1.
  pose proof (Zdigits2_pos (Zpos m) ltac:(lia)).
  unfold prec32, emax32 in *. lia.
Qed.

Lemma fne_zero_valid (x : GLfloat) :
  valid_binary prec32 emax32 x = true -> fne_zero x = negb (is_zero x).
Proof.
  destruct x as [s|s| |s m e]; try done; intros Hv.
  - by destruct s.
  - pose proof (valid_binary32_range s m e Hv) as Hr.
    unfold fne_zero. cbn [double_of_float is_zero negb].
    destruct (binary_round_normal prec64 emax64 prec64_pos s m e)
      as (m' & e' & -> & _); [range_tac | range_tac |].
    by destruct s.
Qed.

(** X13.  On valid binary32 components [geometry_is_zero_vector] returns 1
    exactly when the three components are zeros of either sign (a NaN is not
    zero), and every vector it accepts is one that
    [geometry_normalize_vector] turns into three NaNs. *)
Theorem geometry_is_zero_vector_spec (v : vector_3d) :
  valid_binary prec32 emax32 (c0 v) = true ->
  valid_binary prec32 emax32 (c1 v) = true ->
  valid_binary prec32 emax32 (c2 v) = true ->
  geometry_is_zero_vector v = is_zero (c0 v) && is_zero (c1 v) && is_zero (c2 v) /\
  (geometry_is_zero_vector v = true -> geometry_normalize_vector v = nan_vector).
Proof.
  intros H0 H1 H2.
  assert (Heq : geometry_is_zero_vector v =
                is_zero (c0 v) && is_zero (c1 v) && is_zero (c2 v)).
  { unfold geometry_is_zero_vector. rewrite !fne_zero_valid by done.
    by destruct (is_zero (c0 v)), (is_zero (c1 v)), (is_zero (c2 v)). }
  split; [done|]. rewrite Heq. destruct v as [x y z]. cbn [c0 c1 c2].
  destruct x as [[]| | |], y as [[]| | |], z as [[]| | |]; try done.
Qed.

Lemma geometry_is_zero_vector_spec_witness :
  geometry_is_zero_vector {| c0 := f0; c1 := S754_zero true; c2 := f0 |} = true.
Proof.
  apply (geometry_is_zero_vector_spec {| c0 := f0; c1 := S754_zero true; c2 := f0 |});
    reflexivity.
Defined.

(** ** The cross product *)

Lemma SFmul_comm (prec emax : Z) (x y : spec_float) :
  SFmul prec emax x y = SFmul prec emax y x.
Proof.
  destruct x as [sx|sx| |sx mx ex], y as [sy|sy| |sy my ey]; cbn [SFmul];
    rewrite ?(xorb_comm sy sx); try reflexivity.
  by rewrite (Pos.mul_comm my mx), (Z.add_comm ey ex).
Qed.

Lemma binary_round_aux_opp (prec emax : Z) (s : bool) (m e : Z) (l : location) :
  binary_round_aux prec emax (negb s) m e l =
  SFopp (binary_round_aux prec emax s m e l).
Proof.
  unfold binary_round_aux.
  destruct (shr_fexp prec emax m e l) as [mrs1 e1].
  destruct (shr_fexp prec emax _ e1 loc_Exact) as [mrs2 e2].
  destruct (shr_m mrs2); try reflexivity.
  destruct (e2 <=? emax - prec); reflexivity.
Qed.

Lemma SFopp_involutive (x : spec_float) : SFopp (SFopp x) = x.
Proof. destruct x; cbn [SFopp]; by rewrite ?negb_involutive. Qed.

Lemma binary_normalize_opp (prec emax m e : Z) :
  m <> 0 ->
  binary_normalize prec emax (- m) e false =
  SFopp (binary_normalize prec emax m e false).
Proof.
  intros Hm. destruct m as [|p|p]; try done.
  - change (- Z.pos p) with (Z.neg p). cbn [binary_normalize].
    unfold binary_round. destruct (shl_align p e _) as [mz ez].
    apply (binary_round_aux_opp prec emax false).
  - change (- Z.neg p) with (Z.pos p). cbn [binary_normalize].
    unfold binary_round. destruct (shl_align p e _) as [mz ez].
    by rewrite (binary_round_aux_opp prec emax false), SFopp_involutive.
Qed.

(** Swapping the operands of a subtraction negates the result, except that
    a difference that is exactly zero is [+0] both ways round. *)
Lemma SFsub_swap (prec emax : Z) (x y : spec_float) :
  SFsub prec emax y x = SFopp (SFsub prec emax x y) \/
  (SFsub prec emax x y = S754_zero false /\
   SFsub prec emax y x = S754_zero false).
Proof.
  destruct x as [sx|sx| |sx mx ex], y as [sy|sy| |sy my ey];
    try (destruct sx, sy; cbn; by auto);
    try (destruct sx; cbn; by auto);
    try (destruct sy; cbn; by auto);
    try (cbn; by auto).
  cbn [SFsub]. rewrite (Z.min_comm ey ex).
  set (X := cond_Zopp sx _). set (Y := cond_Zopp sy _).
  destruct (Z.eq_dec (X - Y) 0) as [Hz|Hnz].
  - right. replace (Y - X) with 0 by lia. rewrite Hz. by split.
  - left. replace (Y - X) with (- (X - Y)) by lia.
    by apply binary_normalize_opp.
Qed.

(** X14.  [geometry_cross_product] is antisymmetric in binary32: every
    component of [b x a] is the negation of the same component of [a x b]
    (a NaN stays a NaN), except that a component that cancels exactly is
    [+0] in both. *)
Theorem geometry_cross_product_antisymmetric (a b : vector_3d) :
  let opposite (x y : GLfloat) := y = SFopp x \/ (x = f0 /\ y = f0) in
  opposite (c0 (geometry_cross_product a b)) (c0 (geometry_cross_product b a)) /\
  opposite (c1 (geometry_cross_product a b)) (c1 (geometry_cross_product b a)) /\
  opposite (c2 (geometry_cross_product a b)) (c2 (geometry_cross_product b a)).
Proof.
  cbn zeta. unfold geometry_cross_product, fsub, fmul, f0. cbn [c0 c1 c2].
  rewrite (SFmul_comm _ _ (c1 b) (c2 a)), (SFmul_comm _ _ (c2 b) (c1 a)),
    (SFmul_comm _ _ (c2 b) (c0 a)), (SFmul_comm _ _ (c0 b) (c2 a)),
    (SFmul_comm _ _ (c0 b) (c1 a)), (SFmul_comm _ _ (c1 b) (c0 a)).
  split; [|split]; apply SFsub_swap.
Qed.

(** ** The surface normal *)

Lemma fsub_self_zero_or_nan (x : GLfloat) : zero_or_nan (x ⊖ x)%flt = true.
Proof.
  destruct x as [[]|[]| |s m e]; try reflexivity.
  by rewrite fsub_self.
Qed.

Lemma fmul_zero_or_nan_l (x y : GLfloat) :
  zero_or_nan x = true -> zero_or_nan (x ⊗ y)%flt = true.
Proof. destruct x as [sx|sx| |sx mx ex], y as [sy|sy| |sy my ey]; done. Qed.

Lemma fmul_zero_or_nan_r (x y : GLfloat) :
  zero_or_nan y = true -> zero_or_nan (x ⊗ y)%flt = true.
Proof. destruct x as [sx|sx| |sx mx ex], y as [sy|sy| |sy my ey]; done. Qed.

Lemma fsub_zero_or_nan (x y : GLfloat) :
  zero_or_nan x = true -> zero_or_nan y = true -> zero_or_nan (x ⊖ y)%flt = true.
Proof.
  destruct x as [[]|sx| |sx mx ex], y as [[]|sy| |sy my ey]; done.
Qed.

Lemma geometry_normalize_vector_zero_or_nan (v : vector_3d) :
  zero_or_nan (c0 v) = true -> zero_or_nan (c1 v) = true ->
  zero_or_nan (c2 v) = true ->
  geometry_normalize_vector v = nan_vector.
Proof.
  destruct v as [x y z]. cbn [c0 c1 c2].
  destruct x as [[]| | |], y as [[]| | |], z as [[]| | |]; done.
Qed.

(** X15.  A triangle with two coincident vertices has no normal:
    [geometry_calculate_normal] returns three NaNs whenever two of its
    three points are the same, whatever their coordinates. *)
Theorem geometry_calculate_normal_degenerate (p q : point_3d) :
  geometry_calculate_normal p p q = nan_vector /\
  geometry_calculate_normal p q p = nan_vector /\
  geometry_calculate_normal p q q = nan_vector.
Proof.
  unfold geometry_calculate_normal.
  split; [|split]; apply geometry_normalize_vector_zero_or_nan; cbn [c0 c1 c2].
  1-3: apply fsub_zero_or_nan;
         apply fmul_zero_or_nan_l, fsub_self_zero_or_nan.
  1-3: apply fsub_zero_or_nan;
         apply fmul_zero_or_nan_r, fsub_self_zero_or_nan.
  1-3: unfold fmul; rewrite (SFmul_comm _ _ (_ ⊖ _)%flt (_ ⊖ _)%flt) at 1;
         apply fsub_self_zero_or_nan.
Qed.

(* ===================================================================== *)
(** * Part V: the submarine controls and the camera angle *)
(* ===================================================================== *)

(** [PI] is the binary32 number nearest to the decimal [3.14159265]: it is
    [13176795 * 2^-22], less than half a unit in the last place away. *)
Example PI_literal :
  valid_binary prec32 emax32 PI = true /\
  2 * Z.abs (13176795 * 10 ^ 8 - 314159265 * 2 ^ 22) < 10 ^ 8.
Proof. split; vm_compute; reflexivity. Qed.

(** ** Numbers that are never NaN *)

Lemma binary_normalize_not_nan (prec emax m e : Z) :
  is_nan (binary_normalize prec emax m e false) = false.
Proof.
  assert (Hr : forall s p, is_nan (binary_round prec emax s p e) = false).
  { intros s p. unfold binary_round. destruct (shl_align p e _) as [mz ez].
    destruct (binary_round_aux_cases prec emax s (Zpos mz) ez loc_Exact)
      as [-> | [-> | (m' & e' & ->)]]; done. }
  destruct m as [|p|p]; [done | apply Hr | apply Hr].
Qed.

Lemma float_of_int_not_nan (n : Z) : is_nan (float_of_int n) = false.
Proof. apply binary_normalize_not_nan. Qed.

Lemma fmul_not_nan (x y : GLfloat) :
  is_nan x = false -> is_finite y = true -> is_zero y = false ->
  is_nan (x ⊗ y)%flt = false.
Proof.
  destruct x as [sx|sx| |sx mx ex], y as [sy|sy| |sy my ey]; try done.
  intros _ _ _. unfold fmul. cbn [SFmul].
  destruct (binary_round_aux_cases prec32 emax32 (xorb sx sy)
              (Zpos (mx * my)) (ex + ey) loc_Exact)
    as [-> | [-> | (m' & e' & ->)]]; done.
Qed.

Lemma fsub_not_nan (x y : GLfloat) :
  is_finite x = true -> is_nan y = false -> is_nan (x ⊖ y)%flt = false.
Proof.
  destruct x as [sx|sx| |sx mx ex], y as [sy|sy| |sy my ey]; try done.
  - intros _ _. by destruct sx, sy.
  - intros _ _. unfold fsub. cbn [SFsub]. apply binary_normalize_not_nan.
Qed.

(** ** The clamp of the polar angle *)

Lemma phi_bounds :
  SFleb phi_min phi_max = true /\ SFleb phi_min phi_min = true /\
  SFleb phi_max phi_max = true /\
  is_nan phi_min = false /\ is_nan phi_max = false.
Proof. vm_compute. done. Qed.

Lemma phi_in_range_finite (phi : GLfloat) :
  phi_in_range phi -> is_finite phi = true.
Proof.
  intros [Hlo Hhi]. destruct phi as [s|[]| |s m e]; try reflexivity.
  - vm_compute in Hlo. discriminate.
  - vm_compute in Hhi. discriminate.
  - discriminate Hlo.
Qed.

Lemma DEFAULT_CAMERA_PHI_in_range : phi_in_range DEFAULT_CAMERA_PHI.
Proof. split; vm_compute; reflexivity. Qed.

Lemma sensitivity_finite :
  is_finite DEFAULT_WINDOW_MOUSE_SENSITIVITY = true /\
  is_zero DEFAULT_WINDOW_MOUSE_SENSITIVITY = false.
Proof. vm_compute. done. Qed.

Lemma clamp_in_range (phi : GLfloat) :
  is_nan phi = false ->
  phi_in_range (if (phi_max ≺ phi)%flt then phi_max
                else if (phi ≺ phi_min)%flt then phi_min else phi).
Proof.
  intros Hn. destruct phi_bounds as (H1 & H2 & H3 & H4 & H5).
  unfold flt. destruct (SFltb phi_max phi) eqn:Hhi; [split; assumption|].
  destruct (SFltb phi phi_min) eqn:Hlo; [split; assumption|].
  split; apply SFltb_false_leb; assumption.
Qed.

(** ** The direction and the speed of the submarine *)

Lemma fne_zero_axis :
  fne_zero f0 = false /\ fne_zero f1 = true /\ fne_zero (SFopp f1) = true.
Proof. vm_compute. done. Qed.

Lemma submarine_invariant_start (d : vector_3d) (o : Scene.scene_object) :
  axis_value (c0 d) -> axis_value (c1 d) -> axis_value (c2 d) ->
  (geometry_is_zero_vector d = true -> Scene.speed o = f0) ->
  submarine_invariant (start_if_moving (Scene.set_direction d o)).
Proof.
  intros H0 H1 H2 Hs.
  unfold submarine_invariant, start_if_moving, Scene.set_speed, Scene.set_direction.
  cbn [Scene.direction Scene.speed].
  destruct (geometry_is_zero_vector d) eqn:Hz;
    cbn [negb Scene.direction Scene.speed]; rewrite ?Hz; repeat split; auto.
Qed.

Lemma submarine_invariant_stop (d : vector_3d) (o : Scene.scene_object) :
  axis_value (c0 d) -> axis_value (c1 d) -> axis_value (c2 d) ->
  (geometry_is_zero_vector d = false -> Scene.speed o = SUBMARINE_SPEED) ->
  submarine_invariant (stop_if_still (Scene.set_direction d o)).
Proof.
  intros H0 H1 H2 Hs.
  unfold submarine_invariant, stop_if_still, Scene.set_speed, Scene.set_direction.
  cbn [Scene.direction Scene.speed].
  destruct (geometry_is_zero_vector d) eqn:Hz;
    cbn [negb Scene.direction Scene.speed]; rewrite ?Hz; repeat split; auto.
Qed.

Lemma axis_value_f0 : axis_value f0.
Proof. by left. Qed.
Lemma axis_value_f1 : axis_value f1.
Proof. right. by left. Qed.
Lemma axis_value_opp_f1 : axis_value (SFopp f1).
Proof. right. by right. Qed.

#[local] Hint Resolve axis_value_f0 axis_value_f1 axis_value_opp_f1 : core.

(** A vector with a component just set to [1] or [-1] is not zero, and
    zeroing a component of a zero vector leaves a zero vector. *)
Lemma geometry_is_zero_vector_set (x : GLfloat) (d : vector_3d) :
  (fne_zero x = true ->
   geometry_is_zero_vector (set_c0 x d) = false /\
   geometry_is_zero_vector (set_c1 x d) = false /\
   geometry_is_zero_vector (set_c2 x d) = false) /\
  (fne_zero x = false -> geometry_is_zero_vector d = true ->
   geometry_is_zero_vector (set_c0 x d) = true /\
   geometry_is_zero_vector (set_c1 x d) = true /\
   geometry_is_zero_vector (set_c2 x d) = true).
Proof.
  unfold geometry_is_zero_vector, set_c0, set_c1, set_c2. cbn [c0 c1 c2].
  split; intros Hx; rewrite Hx;
    destruct (fne_zero (c0 d)), (fne_zero (c1 d)), (fne_zero (c2 d)); done.
Qed.

Ltac moving :=
  let H := fresh in
  intros H;
  match type of H with
  | geometry_is_zero_vector (_ ?x ?d) = true =>
      exfalso;
      let Hx := fresh in
      let Hset := fresh in
      assert (Hx : fne_zero x = true) by apply fne_zero_axis;
      destruct (geometry_is_zero_vector_set x d) as [Hset _];
      destruct (Hset Hx) as (? & ? & ?); congruence
  end.

Lemma callback_keyboard_submarine (key : ascii) (g : globals) :
  submarine_invariant (object_submarine g) ->
  submarine_invariant (object_submarine (callback_keyboard key g)).
Proof.
  intros (H0 & H1 & H2 & Hs).
  assert (Hrest : geometry_is_zero_vector (Scene.direction (object_submarine g)) = true ->
                  Scene.speed (object_submarine g) = f0)
    by (by intros Hz; rewrite Hz in Hs).
  assert (Hsame : submarine_invariant (start_if_moving (object_submarine g))).
  { unfold submarine_invariant, start_if_moving, Scene.set_speed.
    destruct (geometry_is_zero_vector _) eqn:Hz;
      cbn [negb Scene.direction Scene.speed]; rewrite ?Hz; repeat split; auto. }
  unfold callback_keyboard, set_object_submarine.
  destruct key as [[] [] [] [] [] [] [] []];
    cbn [object_submarine]; try exact Hsame;
    (apply submarine_invariant_start; [by auto | by auto | by auto | moving]).
Qed.

Lemma submarine_invariant_release (d : vector_3d) (o : Scene.scene_object) :
  submarine_invariant o ->
  d = Scene.direction o \/ d = set_c0 f0 (Scene.direction o) \/
  d = set_c1 f0 (Scene.direction o) \/ d = set_c2 f0 (Scene.direction o) ->
  submarine_invariant (stop_if_still (Scene.set_direction d o)).
Proof.
  intros (H0 & H1 & H2 & Hs) Hd.
  assert (Hz0 : fne_zero f0 = false) by apply fne_zero_axis.
  destruct (geometry_is_zero_vector_set f0 (Scene.direction o)) as [_ Hset].
  apply submarine_invariant_stop.
  1-3: by destruct Hd as [-> | [-> | [-> | ->]]]; cbn [set_c0 set_c1 set_c2 c0 c1 c2].
  intros Hmoving.
  destruct (geometry_is_zero_vector (Scene.direction o)) eqn:Hz; [|exact Hs].
  destruct (Hset Hz0 eq_refl) as (? & ? & ?).
  destruct Hd as [-> | [-> | [-> | ->]]]; congruence.
Qed.

Lemma callback_keyboard_up_submarine (key : ascii) (g : globals) :
  submarine_invariant (object_submarine g) ->
  submarine_invariant (object_submarine (callback_keyboard_up key g)).
Proof.
  intros Hinv. unfold callback_keyboard_up, set_object_submarine.
  cbn [object_submarine]. apply submarine_invariant_release; [exact Hinv|].
  destruct key as [[] [] [] [] [] [] [] []]; auto;
    match goal with |- context [if ?c then _ else _] => destruct c end; auto.
Qed.

Section SpecialKeysInvariant.

Variables GLUT_KEY_UP GLUT_KEY_DOWN : Z.

Lemma callback_special_up_submarine (key : Z) (g : globals) :
  submarine_invariant (object_submarine g) ->
  submarine_invariant
    (object_submarine (callback_special_up GLUT_KEY_UP GLUT_KEY_DOWN key g)).
Proof.
  intros Hinv. unfold callback_special_up, set_object_submarine.
  cbn [object_submarine]. apply submarine_invariant_release; [exact Hinv|].
  destruct (_ && _); [auto|]. destruct (_ && _); auto.
Qed.

Lemma callback_special_submarine (key : Z) (g : globals) :
  submarine_invariant (object_submarine g) ->
  submarine_invariant
    (object_submarine (callback_special GLUT_KEY_UP GLUT_KEY_DOWN key g)).
Proof.
  intros (H0 & H1 & H2 & Hs). unfold callback_special, set_object_submarine.
  cbn [object_submarine].
  destruct (key =? GLUT_KEY_UP);
    [|destruct (key =? GLUT_KEY_DOWN)];
    (apply submarine_invariant_start; [by auto | by auto | by auto |]);
    try moving.
  intros Hz. by rewrite Hz in Hs.
Qed.

Lemma callback_passive_motion_phi (x y : Z) (g : globals) :
  phi_in_range (Camera.phi (main_camera g)) ->
  mouse_sensitivity (main_window g) = DEFAULT_WINDOW_MOUSE_SENSITIVITY ->
  phi_in_range (Camera.phi (main_camera (callback_passive_motion x y g))).
Proof.
  intros Hphi Hsens. unfold callback_passive_motion.
  destruct (_ || _); cbn [main_camera Camera.phi]; [exact Hphi|].
  apply clamp_in_range, fsub_not_nan.
  - by apply phi_in_range_finite.
  - rewrite Hsens. apply fmul_not_nan; [apply float_of_int_not_nan | |];
      apply sensitivity_finite.
Qed.

Lemma flag_lnot (x : Z) : flag (lnot x).
Proof. unfold flag, lnot. destruct (x =? 0); auto. Qed.

Lemma glut_dispatch_invariant (g : globals) (ev : glut_event) :
  globals_invariant g ->
  globals_invariant (glut_dispatch GLUT_KEY_UP GLUT_KEY_DOWN g ev).
Proof.
  intros (Hsub & Hphi & Hsens & Hfs & Hfog & Hwf).
  destruct ev as [key|key|key|key|x y|]; cbn [glut_dispatch].
  - split; [by apply callback_keyboard_submarine|].
    unfold callback_keyboard, set_object_submarine.
    destruct key as [[] [] [] [] [] [] [] []];
      cbn [main_camera main_window full_screen_on fog_on wire_frame_on];
      (split; [exact Hphi|]); repeat split;
      first [assumption | apply flag_lnot].
  - split; [by apply callback_keyboard_up_submarine|].
    unfold callback_keyboard_up, set_object_submarine.
    cbn [main_camera main_window full_screen_on fog_on wire_frame_on].
    repeat split; first [assumption | apply Hphi].
  - split; [by apply callback_special_submarine|].
    unfold callback_special, set_object_submarine.
    cbn [main_camera main_window full_screen_on fog_on wire_frame_on].
    repeat split; first [assumption | apply Hphi].
  - split; [by apply callback_special_up_submarine|].
    unfold callback_special_up, set_object_submarine.
    cbn [main_camera main_window full_screen_on fog_on wire_frame_on].
    repeat split; first [assumption | apply Hphi].
  - split; [|split; [by apply callback_passive_motion_phi|]];
      unfold callback_passive_motion; destruct (_ || _);
      cbn [object_submarine main_window mouse_sensitivity full_screen_on
           fog_on wire_frame_on];
      first [exact Hsub | repeat split; assumption].
  - unfold callback_idle, set_object_submarine.
    split; [|repeat split; first [assumption | apply Hphi]].
    cbn [object_submarine]. exact Hsub.
Qed.

Lemma globals_at_main_loop_invariant : globals_invariant globals_at_main_loop.
Proof.
  split; [|split; [exact DEFAULT_CAMERA_PHI_in_range|]].
  - unfold submarine_invariant. cbn. repeat split; auto.
  - unfold flag. cbn. auto.
Qed.

Lemma glutMainLoop_invariant (events : list glut_event) (g : globals) :
  globals_invariant g ->
  globals_invariant (glutMainLoop GLUT_KEY_UP GLUT_KEY_DOWN events g).
Proof.
  unfold glutMainLoop. revert g.
  induction events as [|ev events IH]; intros g Hg; [exact Hg|].
  cbn [foldl]. by apply IH, glut_dispatch_invariant.
Qed.

(** X16.  Whatever keys are pressed and released, whatever the mouse does
    and however often the idle callback runs, each component of the
    submarine's direction is [0], [1] or [-1], its speed is [0] when the
    direction is the zero vector and [SUBMARINE_SPEED] otherwise, and the
    three toggles hold [0] or [1]. *)
Theorem submarine_controls_invariant (events : list glut_event) :
  let g := glutMainLoop GLUT_KEY_UP GLUT_KEY_DOWN events globals_at_main_loop in
  let o := object_submarine g in
  let d := Scene.direction o in
  axis_value (c0 d) /\ axis_value (c1 d) /\ axis_value (c2 d) /\
  Scene.speed o = (if geometry_is_zero_vector d then f0 else SUBMARINE_SPEED) /\
  flag (full_screen_on g) /\ flag (fog_on g) /\ flag (wire_frame_on g).
Proof.
  destruct (glutMainLoop_invariant events _ globals_at_main_loop_invariant)
    as ((H0 & H1 & H2 & Hs) & _ & _ & Hflags).
  cbn zeta. by repeat split; try apply Hflags.
Qed.

(** X17.  From the start of the main loop on, the camera's polar angle is
    a number between [-PI / 2 + 0.01f] and [PI / 2 - 0.01f], whatever the
    mouse movements: the angle is never NaN and the clamp of
    [callback_passive_motion] is never escaped. *)
Theorem camera_phi_clamped (events : list glut_event) :
  let g := glutMainLoop GLUT_KEY_UP GLUT_KEY_DOWN events globals_at_main_loop in
  SFleb phi_min (Camera.phi (main_camera g)) = true /\
  SFleb (Camera.phi (main_camera g)) phi_max = true.
Proof.
  destruct (glutMainLoop_invariant events _ globals_at_main_loop_invariant)
    as (_ & Hphi & _).
  exact Hphi.
Qed.

End SpecialKeysInvariant.

Lemma axis_value_zero (x : GLfloat) :
  axis_value x -> fne_zero x = false -> x = f0.
Proof.
  destruct fne_zero_axis as (_ & H1 & H2).
  intros [-> | [-> | ->]]; congruence.
Qed.

Lemma geometry_is_zero_vector_axes (d : vector_3d) :
  axis_value (c0 d) -> axis_value (c1 d) -> axis_value (c2 d) ->
  geometry_is_zero_vector d = true ->
  c0 d = f0 /\ c1 d = f0 /\ c2 d = f0.
Proof.
  intros H0 H1 H2. unfold geometry_is_zero_vector.
  destruct (fne_zero (c0 d)) eqn:E0; [done|].
  destruct (fne_zero (c1 d)) eqn:E1; [done|].
  destruct (fne_zero (c2 d)) eqn:E2; [done|].
  intros _. by repeat split; apply axis_value_zero.
Qed.

Lemma fadd_zero_product (p : GLfloat) : same_coordinate p (p ⊕ f0 ⊗ f0)%flt.
Proof.
  unfold same_coordinate. destruct p as [[]|s| |s m e]; cbn; auto.
Qed.

(** X18.  While no movement key is held (the direction is the zero
    vector) the idle callback leaves the submarine where it is: each
    coordinate keeps its value, a [-0] becoming [+0]. *)
Theorem submarine_at_rest_stays (GLUT_KEY_UP GLUT_KEY_DOWN : Z)
    (events : list glut_event) :
  let g := glutMainLoop GLUT_KEY_UP GLUT_KEY_DOWN events globals_at_main_loop in
  let o := object_submarine g in
  let o' := object_submarine (callback_idle g) in
  geometry_is_zero_vector (Scene.direction o) = true ->
  same_coordinate (c0 (Scene.position o)) (c0 (Scene.position o')) /\
  same_coordinate (c1 (Scene.position o)) (c1 (Scene.position o')) /\
  same_coordinate (c2 (Scene.position o)) (c2 (Scene.position o')).
Proof.
  cbn zeta. intros Hz.
  destruct (glutMainLoop_invariant GLUT_KEY_UP GLUT_KEY_DOWN events _
              globals_at_main_loop_invariant) as ((H0 & H1 & H2 & Hs) & _).
  rewrite Hz in Hs.
  destruct (geometry_is_zero_vector_axes _ H0 H1 H2 Hz) as (E0 & E1 & E2).
  unfold callback_idle, set_object_submarine, submarine_update,
    Scene.set_position.
  cbn [object_submarine Scene.position c0 c1 c2].
  rewrite Hs, E0, E1, E2. repeat split; apply fadd_zero_product.
Qed.

Lemma submarine_at_rest_stays_witness :
  let g := glutMainLoop 101 103 [Keyboard "w"; Idle; KeyboardUp "w"]
             globals_at_main_loop in
  same_coordinate (c2 (Scene.position (object_submarine g)))
                  (c2 (Scene.position (object_submarine (callback_idle g)))).
Proof.
  apply (submarine_at_rest_stays 101 103 [Keyboard "w"; Idle; KeyboardUp "w"]).
  vm_compute. reflexivity.
Defined.

Lemma flt_axis :
  (f0 ≺ f1)%flt = true /\ (SFopp f1 ≺ f0)%flt = true.
Proof. vm_compute. done. Qed.

(** X19.  Releasing a movement key right after pressing it zeroes that
    key's axis whatever the state before, so the axis is zeroed even while
    the opposite key of the pair is still held down. *)
Theorem key_release_stops_axis (GLUT_KEY_UP GLUT_KEY_DOWN : Z) (g : globals) :
  let press_release (key : ascii) :=
    Scene.direction
      (object_submarine (callback_keyboard_up key (callback_keyboard key g))) in
  let special_press_release (key : Z) :=
    Scene.direction
      (object_submarine
         (callback_special_up GLUT_KEY_UP GLUT_KEY_DOWN key
            (callback_special GLUT_KEY_UP GLUT_KEY_DOWN key g))) in
  c2 (press_release "w"%char) = f0 /\ c2 (press_release "s"%char) = f0 /\
  c0 (press_release "a"%char) = f0 /\ c0 (press_release "d"%char) = f0 /\
  c1 (special_press_release GLUT_KEY_UP) = f0 /\
  c1 (special_press_release GLUT_KEY_DOWN) = f0.
Proof.
  destruct flt_axis as [Hpos Hneg]. cbn zeta.
  unfold callback_keyboard_up, callback_keyboard, callback_special_up,
    callback_special, set_object_submarine, stop_if_still, start_if_moving,
    Scene.set_direction, Scene.set_speed.
  cbn [object_submarine Scene.direction Scene.speed Scene.position
       set_c0 set_c1 set_c2 c0 c1 c2].
  rewrite !Z.eqb_refl.
  repeat split;
    repeat match goal with
      | |- context [geometry_is_zero_vector ?v] =>
          destruct (geometry_is_zero_vector v);
          cbn [negb object_submarine Scene.direction Scene.speed
               Scene.position set_c0 set_c1 set_c2 c0 c1 c2]
      end;
    rewrite ?Hpos, ?Hneg; cbn [andb c0 c1 c2 set_c0 set_c1 set_c2]; try reflexivity.
  all: destruct (GLUT_KEY_DOWN =? GLUT_KEY_UP); cbn [c1 set_c1 andb];
    rewrite ?Hpos, ?Hneg; reflexivity.
Qed.


